(** * magnet-search: the bencode encoder, the keyword filter, the ingest
      loop and the DHT engine's entry points, embedded from the Go sources.

    Go strings are byte sequences: they are modelled by [string], whose
    characters are the 256 byte values.  Go's [int] and [int64] are 64-bit
    two's-complement integers (the build targets amd64): they are modelled
    by [Z], with the wrap-around written out where the code does arithmetic. *)

From Stdlib Require Import ZArith Lia List Ascii String.
From Stdlib Require Import DecimalString DecimalZ DecimalFacts DecimalPos.
From stdpp Require Import base tactics option list sorting strings gmap.

Set Warnings "-register-all".
Local Open Scope string_scope.
Local Open Scope Z_scope.

(** ** Go runtime and standard-library primitives used by the sources *)

Module Go.

(** [len(s)] of a string: its number of bytes. *)
Definition len (s : string) : Z := Z.of_nat (String.length s).

(** [strconv.Itoa] and [strconv.FormatInt(_, 10)]: the decimal numeral of an
    integer, a leading minus sign for negative numbers. *)
Definition Itoa (n : Z) : string := NilZero.string_of_int (Z.to_int n).
Definition FormatInt10 (n : Z) : string := Itoa n.

(** [strconv.Atoi] on the numerals [Itoa] produces; used to state that the
    emitted numeral denotes the integer. *)
Definition parseInt (s : string) : option Z :=
  match NilZero.int_of_string s with
  | Some d => Some (Z.of_int d)
  | None => None
  end.

(** Decimal numerals without padding: ["0"], or an optional minus sign and
    digits of which the first is not [0]. *)
Definition isDigit (c : ascii) : bool :=
  ((48 <=? N_of_ascii c) && (N_of_ascii c <=? 57))%N.

Fixpoint allDigits (s : string) : bool :=
  match s with
  | EmptyString => true
  | String c s' => isDigit c && allDigits s'
  end.

Definition naturalNumeral (s : string) : bool :=
  match s with
  | EmptyString => false
  | String c s' =>
      allDigits s && (negb (Ascii.eqb c "0") || String.eqb s' "")
  end.

Definition canonicalNumeral (s : string) : bool :=
  match s with
  | String c s' =>
      if Ascii.eqb c "-" then naturalNumeral s' && negb (String.eqb s' "0")
      else naturalNumeral s
  | EmptyString => false
  end.

(** Two's-complement wrap-around of a 64-bit signed integer. *)
Definition int64_min : Z := - 2 ^ 63.
Definition int64_max : Z := 2 ^ 63 - 1.
Definition wrap64 (z : Z) : Z := (z + 2 ^ 63) mod 2 ^ 64 - 2 ^ 63.
Definition in_int64 (z : Z) : Prop := int64_min <= z <= int64_max.
Definition add64 (a b : Z) : Z := wrap64 (a + b).


(** [sort.Strings]: ascending order of Go's [<] on strings, which compares
    byte by byte. *)
Definition sortStrings (l : list string) : list string :=
  merge_sort String.le l.

(** [strings.HasPrefix], [strings.HasSuffix] and [strings.Contains] compare
    bytes. *)
Definition HasPrefix (s pre : string) : bool := String.prefix pre s.

Fixpoint Contains (s sub : string) : bool :=
  HasPrefix s sub ||
  match s with
  | EmptyString => false
  | String _ s' => Contains s' sub
  end.

Fixpoint HasSuffix (s suf : string) : bool :=
  String.eqb s suf ||
  match s with
  | EmptyString => false
  | String _ s' => HasSuffix s' suf
  end.

(** The digits [encoding/hex] prints: [0]..[9] and [a]..[f]. *)
Definition isLowerHex (c : ascii) : bool :=
  (((48 <=? N_of_ascii c) && (N_of_ascii c <=? 57)) ||
   ((97 <=? N_of_ascii c) && (N_of_ascii c <=? 102)))%N.

Fixpoint lowercaseHex (s : string) : bool :=
  match s with
  | EmptyString => true
  | String c s' => isLowerHex c && lowercaseHex s'
  end.

(** [encoding/hex]: two lowercase hexadecimal digits per byte. *)
Definition hexdigit (n : N) : ascii :=
  if (n <? 10)%N then ascii_of_N (48 + n) else ascii_of_N (87 + n).

Fixpoint EncodeToString (b : string) : string :=
  match b with
  | EmptyString => EmptyString
  | String c b' =>
      let n := N_of_ascii c in
      String (hexdigit (n / 16)) (String (hexdigit (n mod 16)) (EncodeToString b'))
  end.

(** [sub] occurs in [s]: some bytes, then [sub], then some bytes. *)
Definition occurs (sub s : string) : Prop :=
  exists pre post, s = pre ++ sub ++ post.

(** *** crypto/sha1

    SHA-1 as FIPS 180-4 defines it, on 32-bit words held in [Z]. *)

Module sha1.

Definition mask32 (x : Z) : Z := Z.land x 0xFFFFFFFF.
Definition add32 (a b : Z) : Z := mask32 (a + b).
Definition rotl (n : Z) (x : Z) : Z :=
  mask32 (Z.lor (Z.shiftl x n) (Z.shiftr x (32 - n))).

Definition bytesOf (s : string) : list Z :=
  (fun c => Z.of_N (N_of_ascii c)) <$> list_ascii_of_string s.
Definition stringOf (l : list Z) : string :=
  string_of_list_ascii ((fun z => ascii_of_N (Z.to_N z)) <$> l).

(** The bytes of [x], most significant first, [n] of them. *)
Fixpoint bigEndianBytes (n : nat) (x : Z) : list Z :=
  match n with
  | O => []
  | S n' => Z.land (Z.shiftr x (8 * Z.of_nat n')) 0xFF :: bigEndianBytes n' x
  end.

Definition padding (msg : list Z) : list Z :=
  let l := Z.of_nat (length msg) in
  (msg ++ [0x80] ++ replicate (Z.to_nat ((55 - l) mod 64)) 0
       ++ bigEndianBytes 8 (8 * l))%list.

Fixpoint words (n : nat) (bytes : list Z) : list Z :=
  match n, bytes with
  | S n', b0 :: b1 :: b2 :: b3 :: rest =>
      (b0 * 2 ^ 24 + b1 * 2 ^ 16 + b2 * 2 ^ 8 + b3) :: words n' rest
  | _, _ => []
  end.

Definition word (w : list Z) (t : nat) : Z := nth t w 0.

Fixpoint schedule (n : nat) (w : list Z) : list Z :=
  match n with
  | O => w
  | S n' =>
      let t := length w in
      schedule n'
        (w ++ [rotl 1 (Z.lxor (Z.lxor (word w (t - 3)) (word w (t - 8)))
                              (Z.lxor (word w (t - 14)) (word w (t - 16))))])%list
  end.

Definition round (st : Z * Z * Z * Z * Z) (tw : nat * Z) : Z * Z * Z * Z * Z :=
  let '(a, b, c, d, e) := st in
  let '(t, w) := tw in
  let '(f, k) :=
    if (t <? 20)%nat then
      (Z.lor (Z.land b c) (Z.land (Z.lxor b 0xFFFFFFFF) d), 0x5A827999)
    else if (t <? 40)%nat then (Z.lxor (Z.lxor b c) d, 0x6ED9EBA1)
    else if (t <? 60)%nat then
      (Z.lor (Z.lor (Z.land b c) (Z.land b d)) (Z.land c d), 0x8F1BBCDC)
    else (Z.lxor (Z.lxor b c) d, 0xCA62C1D6) in
  (add32 (add32 (add32 (add32 (rotl 5 a) f) e) k) w, a, rotl 30 b, c, d).

Definition block (h : Z * Z * Z * Z * Z) (chunk : list Z) : Z * Z * Z * Z * Z :=
  let w := schedule 64 (words 16 chunk) in
  let '(a, b, c, d, e) := foldl round h (imap (fun t x => (t, x)) w) in
  let '(h0, h1, h2, h3, h4) := h in
  (add32 h0 a, add32 h1 b, add32 h2 c, add32 h3 d, add32 h4 e).

Fixpoint blocks (n : nat) (h : Z * Z * Z * Z * Z) (bytes : list Z)
    : Z * Z * Z * Z * Z :=
  match n with
  | O => h
  | S n' =>
      match bytes with
      | [] => h
      | _ => blocks n' (block h (take 64 bytes)) (drop 64 bytes)
      end
  end.

(** The digest of [data]: 20 bytes. *)
Definition Sum (data : string) : string :=
  let bytes := padding (bytesOf data) in
  let '(h0, h1, h2, h3, h4) :=
    blocks (length bytes)
      (0x67452301, 0xEFCDAB89, 0x98BADCFE, 0x10325476, 0xC3D2E1F0) bytes in
  stringOf (bigEndianBytes 4 h0 ++ bigEndianBytes 4 h1 ++ bigEndianBytes 4 h2
              ++ bigEndianBytes 4 h3 ++ bigEndianBytes 4 h4)%list.

(** A [hash.Hash]: the bytes written so far.  [Sum(b)] appends the digest of
    what was written to [b]. *)
Record Hash : Type := mkHash { written : string }.
Definition New : Hash := {| written := "" |}.
Definition HashWrite (h : Hash) (p : string) : Hash :=
  {| written := written h ++ p |}.
Definition HashSum (h : Hash) (b : string) : string := b ++ Sum (written h).

End sha1.

(** Errors returned by the modelled functions. *)
Inductive error : Type :=
| ErrUnsupportedType (tyname : string)   (* fmt.Errorf("不支持的类型: %T", v) *)
| ErrWrite (msg : string)                (* an io.Writer that refuses a write *)
| ErrInvalidMetadata                     (* fmt.Errorf("无效的元数据格式") *)
| ErrNoName                              (* fmt.Errorf("元数据中没有名称") *)
| ErrNotReady                            (* errors.New("dht is not ready") *)
| ErrOnGetPeersResponseNotSet            (* errors.New("OnGetPeersResponse is not set") *)
| ErrHexInvalidByte (c : ascii)          (* hex.InvalidByteError *)
| ErrHexLength                           (* hex.ErrLength *)
| ErrInvalidEncoding                     (* an error of dht.Decode *)
| ErrStore (msg : string).               (* an error reported by the store *)

(** A Go result [(x, err)]: either the value with [err == nil] or the error. *)
Inductive result (A : Type) : Type :=
| Ok (a : A)
| Err (e : error).
Arguments Ok {A} a.
Arguments Err {A} e.

#[global] Instance result_ret : MRet result := fun A a => Ok a.
#[global] Instance result_bind : MBind result := fun A B f m =>
  match m with
  | Ok a => f a
  | Err e => Err e
  end.
#[global] Instance result_fmap : FMap result := fun A B f m =>
  match m with
  | Ok a => Ok (f a)
  | Err e => Err e
  end.

(** [io.Writer]: a sink of bytes that may refuse a write. *)
Class Writer (W : Type) := Write : W -> string -> result W.

(** [bytes.Buffer]: the bytes written so far; its [Write] never fails. *)
Definition Buffer : Type := string.
#[global] Instance Buffer_Writer : Writer Buffer := fun b p => Ok (b ++ p).

End Go.
Import Go.

(** ** Dynamically typed values: Go's [interface{}] as the codec uses it *)

Module Bencode.

(** The dynamic types the sources switch on.  A [map[string]interface{}] is
    given by its entries in the order in which [range] happens to visit
    them; a Go map holds each key once.  [VOther] stands for a value of any
    other dynamic type (its [%T] name), [nil] included. *)
Inductive value : Type :=
| VString (s : string)
| VInt (n : Z)
| VInt64 (n : Z)
| VList (l : list value)
| VDict (d : list (string * value))
| VOther (tyname : string).

(** [dict[k]]: the value stored under [k], if any. *)
Fixpoint index {A} (dict : list (string * A)) (k : string) : option A :=
  match dict with
  | [] => None
  | (k', v) :: dict' => if String.eqb k' k then Some v else index dict' k
  end.

(** The keys of a map in iteration order: [for k := range dict]. *)
Definition keys {A} (dict : list (string * A)) : list string := dict.*1.

Section Writer.
Context {W : Type} `{Writer W}.

(** One turn of the loop of [writeBencodedDict] over the sorted keys: the
    key as a byte string, then the value stored under it. *)
Definition writeEntry (entries : list (string * (W -> result W)))
    (acc : result W) (k : string) : result W :=
  w ← acc;
  w ← Write w (Itoa (len k));
  w ← Write w ":";
  w ← Write w k;
  match index entries k with
  | Some writeValue => writeValue w
  | None => Err (ErrUnsupportedType "<nil>")
  end.

(** The body of [writeBencodedDict], over the map from each key to the
    action that writes its value: prefix [d], the sorted keys each followed
    by its value, suffix [e]. *)
Definition writeDictEntries (entries : list (string * (W -> result W)))
    (writer : W) : result W :=
  w ← Write writer "d";
  let ks := sortStrings (keys entries) in
  w ← foldl (writeEntry entries) (Ok w) ks;
  Write w "e".

(** [writeBencodedValue].  The dictionary case is [writeBencodedDict]; the
    recursive call on [dict[k]] is prepared for every entry of the map,
    which keeps the recursion structural. *)
Fixpoint writeBencodedValue (value : value) (writer : W) {struct value}
    : result W :=
  match value with
  | VString v =>
      w ← Write writer (Itoa (len v));
      w ← Write w ":";
      Write w v
  | VInt v =>
      w ← Write writer "i";
      w ← Write w (Itoa v);
      Write w "e"
  | VInt64 v =>
      w ← Write writer "i";
      w ← Write w (FormatInt10 v);
      Write w "e"
  | VList v =>
      w ← Write writer "l";
      w ← foldl (fun acc item => w ← acc; writeBencodedValue item w) (Ok w) v;
      Write w "e"
  | VDict v =>
      writeDictEntries (prod_map id writeBencodedValue <$> v) writer
  | VOther ty => Err (ErrUnsupportedType ty)
  end.

(** One turn of the loop over the items of a list. *)
Definition writeItem (acc : result W) (item : value) : result W :=
  w ← acc; writeBencodedValue item w.

Definition writeBencodedDict (dict : list (string * value)) (writer : W)
    : result W :=
  writeDictEntries (prod_map id writeBencodedValue <$> dict) writer.

End Writer.

(** [calculateInfoHash]: the encoding goes to a fresh buffer, whose bytes
    are hashed and printed in hexadecimal. *)
Definition calculateInfoHash (info : list (string * value)) : result string :=
  buffer ← writeBencodedDict info ("" : Buffer);
  let hasher := sha1.New in
  let hasher := sha1.HashWrite hasher buffer in
  Ok (EncodeToString (sha1.HashSum hasher "")).

(** *** The encoding as the specification words it *)

(** A byte string: [<len>:<bytes>]. *)
Definition bstring (s : string) : string := Itoa (len s) ++ ":" ++ s.

(** Entries in ascending order of their keys. *)
Definition keyLe {A} (e1 e2 : string * A) : Prop := String.le e1.1 e2.1.

#[global] Instance keyLe_dec {A} : RelDecision (@keyLe A).
Proof. intros e1 e2. unfold keyLe. apply _. Defined.

Definition sortEntries {A} (d : list (string * A)) : list (string * A) :=
  merge_sort keyLe d.

Definition entryBytes (e : string * string) : string := bstring e.1 ++ e.2.

(** The concatenation of a sequence of byte strings. *)
Definition concatBytes (l : list string) : string := foldr String.append "" l.

(** The entries of [d] met when its keys are visited in the order [ks]. *)
Definition entriesAt {A} (d : list (string * A)) (ks : list string)
    : list (string * A) :=
  omap (fun k => (fun x => (k, x)) <$> index d k) ks.

(** The canonical encoding of section 4.A: [i<decimal>e], [<len>:<bytes>],
    [l...e], and [d<key><value>...e] with the entries sorted by key. *)
Fixpoint encode_canonical (v : value) : string :=
  match v with
  | VString s => bstring s
  | VInt n | VInt64 n => "i" ++ Itoa n ++ "e"
  | VList l =>
      "l" ++ concatBytes (map encode_canonical l) ++ "e"
  | VDict d =>
      "d" ++ concatBytes
               (map entryBytes
                  (sortEntries (prod_map id encode_canonical <$> d)))
          ++ "e"
  | VOther _ => ""
  end.

(** The values the encoder supports: strings, integers, and lists and
    dictionaries of supported values. *)
Fixpoint supported (v : value) : bool :=
  match v with
  | VString _ | VInt _ | VInt64 _ => true
  | VList l => forallb supported l
  | VDict d => forallb (fun e => supported e.2) d
  | VOther _ => false
  end.

(** A value that Go can hold: every map in it has each key once. *)
Fixpoint wf_value (v : value) : Prop :=
  match v with
  | VList l =>
      (fix all (l : list value) :=
         match l with
         | [] => True
         | x :: l' => wf_value x /\ all l'
         end) l
  | VDict d =>
      NoDup (keys d) /\
      (fix all (d : list (string * value)) :=
         match d with
         | [] => True
         | (_, x) :: d' => wf_value x /\ all d'
         end) d
  | _ => True
  end.

(** Two values that differ at most in the order in which their maps, at
    any depth, are iterated. *)
Inductive same_value : value -> value -> Prop :=
| same_string s : same_value (VString s) (VString s)
| same_int n : same_value (VInt n) (VInt n)
| same_int64 n : same_value (VInt64 n) (VInt64 n)
| same_other ty : same_value (VOther ty) (VOther ty)
| same_list l1 l2 :
    Forall2 same_value l1 l2 -> same_value (VList l1) (VList l2)
| same_dict d1 d2 :
    NoDup (keys d1) -> NoDup (keys d2) ->
    (forall k, option_Forall2 same_value (index d1 k) (index d2 k)) ->
    same_value (VDict d1) (VDict d2).

End Bencode.
Import Bencode.

(** ** internal/crawler/filter.go *)

Module Filter.

(** [KeywordFilter]; the mutex serialises the methods, each of which is
    modelled as one atomic step. *)
Record KeywordFilter : Type := mkKeywordFilter {
  keywords : list string;
  blacklist : list string;
  categoryMap : gmap string string
}.

Definition NewKeywordFilter : KeywordFilter :=
  {| keywords := []; blacklist := []; categoryMap := ∅ |}.

Definition containsKeyword (kf : KeywordFilter) (keyword : string) : bool :=
  existsb (fun k => String.eqb k keyword) (keywords kf).

Definition containsBlacklistKeyword (kf : KeywordFilter) (keyword : string)
    : bool :=
  existsb (fun k => String.eqb k keyword) (blacklist kf).

(** The position of the first element equal to [keyword]: the index at
    which the removal loops stop. *)
Fixpoint firstIndex (l : list string) (keyword : string) : option nat :=
  match l with
  | [] => None
  | k :: l' =>
      if String.eqb k keyword then Some 0%nat
      else S <$> firstIndex l' keyword
  end.

(** [kw] is the first element of [l], in list order, that occurs in [s]. *)
Definition firstOccurring (l : list string) (s kw : string) : Prop :=
  exists i : nat,
    l !! i = Some kw /\ occurs kw s /\
    forall (j : nat) (k : string), (j < i)%nat -> l !! j = Some k -> ~ occurs k s.

Section Lowercase.

(** [strings.ToLower] maps every Unicode letter to its lower case; the
    filter is modelled over any such function. *)
Variable ToLower : string -> string.

Definition AddKeyword (kf : KeywordFilter) (keyword category : string)
    : KeywordFilter :=
  let keyword := ToLower keyword in
  if negb (containsKeyword kf keyword) then
    {| keywords := keywords kf ++ [keyword];
       blacklist := blacklist kf;
       categoryMap :=
         if negb (String.eqb category "") then <[keyword := category]> (categoryMap kf)
         else categoryMap kf |}
  else kf.

Definition AddKeywords (kf : KeywordFilter) (kws : list string)
    (category : string) : KeywordFilter :=
  foldl (fun kf keyword => AddKeyword kf keyword category) kf kws.

Definition AddToBlacklist (kf : KeywordFilter) (keyword : string)
    : KeywordFilter :=
  let keyword := ToLower keyword in
  if negb (containsBlacklistKeyword kf keyword) then
    {| keywords := keywords kf;
       blacklist := blacklist kf ++ [keyword];
       categoryMap := categoryMap kf |}
  else kf.

Definition AddBlacklist (kf : KeywordFilter) (kws : list string)
    : KeywordFilter :=
  foldl AddToBlacklist kf kws.

Definition RemoveKeyword (kf : KeywordFilter) (keyword : string)
    : KeywordFilter :=
  let keyword := ToLower keyword in
  match firstIndex (keywords kf) keyword with
  | Some i =>
      {| keywords := take i (keywords kf) ++ drop (S i) (keywords kf);
         blacklist := blacklist kf;
         categoryMap := delete keyword (categoryMap kf) |}
  | None => kf
  end.

Definition RemoveFromBlacklist (kf : KeywordFilter) (keyword : string)
    : KeywordFilter :=
  let keyword := ToLower keyword in
  match firstIndex (blacklist kf) keyword with
  | Some i =>
      {| keywords := keywords kf;
         blacklist := take i (blacklist kf) ++ drop (S i) (blacklist kf);
         categoryMap := categoryMap kf |}
  | None => kf
  end.

Definition GetKeywords (kf : KeywordFilter) : list string := keywords kf.
Definition GetBlacklist (kf : KeywordFilter) : list string := blacklist kf.

Definition GetCategory (kf : KeywordFilter) (keyword : string) : string :=
  match categoryMap kf !! ToLower keyword with
  | Some category => category
  | None => ""
  end.

Definition MatchContent (kf : KeywordFilter) (content : string)
    : bool * string :=
  if String.eqb content "" then (false, "")
  else
    let lowerContent := ToLower content in
    if existsb (fun blacklisted => Contains lowerContent blacklisted)
         (blacklist kf)
    then (false, "")
    else
      match find (fun keyword => Contains lowerContent keyword) (keywords kf) with
      | Some keyword => (true, keyword)
      | None => (false, "")
      end.

(** The calls that change a filter, and a filter's history from
    [NewKeywordFilter]. *)
Inductive Mutation : Type :=
| CallAddKeyword (keyword category : string)
| CallAddKeywords (kws : list string) (category : string)
| CallAddToBlacklist (keyword : string)
| CallAddBlacklist (kws : list string)
| CallRemoveKeyword (keyword : string)
| CallRemoveFromBlacklist (keyword : string).

Definition mutate (kf : KeywordFilter) (m : Mutation) : KeywordFilter :=
  match m with
  | CallAddKeyword keyword category => AddKeyword kf keyword category
  | CallAddKeywords kws category => AddKeywords kf kws category
  | CallAddToBlacklist keyword => AddToBlacklist kf keyword
  | CallAddBlacklist kws => AddBlacklist kf kws
  | CallRemoveKeyword keyword => RemoveKeyword kf keyword
  | CallRemoveFromBlacklist keyword => RemoveFromBlacklist kf keyword
  end.

Definition filterAfter (history : list Mutation) : KeywordFilter :=
  foldl mutate NewKeywordFilter history.

(** The invariant of the keyword list. *)
Definition keywords_ok (kf : KeywordFilter) : Prop :=
  Forall (fun k => ToLower k = k) (keywords kf) /\ NoDup (keywords kf).

(** Invariant I8 as the specification words it: a match is reported exactly
    when some keyword occurs in the lowered input and no blacklist entry
    does. *)
Definition match_iff_keyword_and_no_blacklist
    (kf : KeywordFilter) (s : string) : Prop :=
  (exists kw, MatchContent kf s = (true, kw)) <->
  ((exists k, k ∈ keywords kf /\ occurs k (ToLower s)) /\
   (forall b, b ∈ blacklist kf -> ~ occurs b (ToLower s))).

End Lowercase.

(** The restriction of [strings.ToLower] to ASCII, where it adds 32 to the
    bytes [A]..[Z]; used to run the filter on concrete inputs. *)
Definition lowerByte (c : ascii) : ascii :=
  let n := N_of_ascii c in
  if ((65 <=? n) && (n <=? 90))%N then ascii_of_N (n + 32) else c.

Fixpoint ToLowerASCII (s : string) : string :=
  match s with
  | EmptyString => EmptyString
  | String c s' => String (lowerByte c) (ToLowerASCII s')
  end.

(** The filter holding the empty keyword, as [AddKeyword("", "")] on a new
    filter leaves it. *)
Definition emptyKeywordFilter : KeywordFilter :=
  AddKeyword ToLowerASCII NewKeywordFilter "" "".

End Filter.
Import Filter.

(** ** The ingest pipeline (package crawler) *)

Module Crawler.

(** [time.Time] as the instant it denotes: seconds and nanoseconds since
    January 1 of year 1, UTC.  The zero value is that instant itself. *)
Record Time : Type := mkTime { sec : Z; nsec : Z }.

Definition zeroTime : Time := {| sec := 0; nsec := 0 |}.
Definition IsZero (t : Time) : bool := (sec t =? 0) && (nsec t =? 0).

(** [time.Unix(s, 0)]: [s] counts from 1970, which is 62135596800 seconds
    after year 1. *)
Definition unixToInternal : Z := 62135596800.
Definition Unix (s : Z) : Time := {| sec := wrap64 (s + unixToInternal); nsec := 0 |}.

Record TorrentFile : Type := mkTorrentFile {
  FLength : Z;
  Path : list string
}.

Record TorrentMetadata : Type := mkTorrentMetadata {
  InfoHash : string;
  Name : string;
  Length : Z;
  Files : list TorrentFile;
  PieceLength : Z;
  Pieces : string;
  Private : Z;
  Announce : string;
  Comment : string;
  Creation : Time
}.

(** [models.Torrent], the record handed to the store.  [TInfoHash] is its
    field [InfoHash]. *)
Record Torrent : Type := mkTorrent {
  Title : string;
  TInfoHash : string;
  MagnetLink : string;
  Size : Z;
  FileCount : Z;
  Category : string;
  UploadDate : Time;
  Seeds : Z;
  Peers : Z;
  Downloads : Z;
  Description : string;
  Source : string;
  Heat : Z
}.

(** The type assertions [x.(string)], [x.(int64)], [x.(int)],
    [x.([]interface{})] and [x.(map[string]interface{})] on a map lookup:
    an absent key yields [nil], on which every assertion fails. *)
Definition asString (x : option value) : option string :=
  match x with Some (VString s) => Some s | _ => None end.
Definition asInt64 (x : option value) : option Z :=
  match x with Some (VInt64 n) => Some n | _ => None end.
Definition asInt (x : option value) : option Z :=
  match x with Some (VInt n) => Some n | _ => None end.
Definition asList (x : option value) : option (list value) :=
  match x with Some (VList l) => Some l | _ => None end.
Definition asDict (x : option value) : option (list (string * value)) :=
  match x with Some (VDict d) => Some d | _ => None end.

(** The body of the loop over [files].  [fileLength] is the [length] of a
    file dictionary, as [int64] or as [int], when it has one; a
    [TorrentFile] without it keeps the zero value, and nothing is added to
    [totalLength] for it.  [FLength] is the field [Length] of
    [TorrentFile]. *)
Definition fileLength (fileDict : list (string * value)) : option Z :=
  match asInt64 (index fileDict "length") with
  | Some length => Some length
  | None => asInt (index fileDict "length")
  end.

Definition convertFile (fileDict : list (string * value)) : TorrentFile :=
  {| FLength := default 0 (fileLength fileDict);
     Path :=
       match asList (index fileDict "path") with
       | Some path => omap (fun p => asString (Some p)) path
       | None => []
       end |}.

Fixpoint convertFiles (files : list value) (acc : list TorrentFile)
    (totalLength : Z) : list TorrentFile * Z :=
  match files with
  | [] => (acc, totalLength)
  | file :: files' =>
      match asDict (Some file) with
      | Some fileDict =>
          let totalLength :=
            match fileLength fileDict with
            | Some length => add64 totalLength length
            | None => totalLength
            end in
          convertFiles files' (acc ++ [convertFile fileDict]) totalLength
      | None => convertFiles files' acc totalLength
      end
  end.


Definition convertToTorrentMetadata (infoHash : string) (metadata : value)
    : result TorrentMetadata :=
  match asDict (Some metadata) with
  | None => Err ErrInvalidMetadata
  | Some info =>
      match asString (index info "name") with
      | None => Err ErrNoName
      | Some name =>
          let comment := default "" (asString (index info "comment")) in
          let creation :=
            match asInt64 (index info "creation date") with
            | Some creation => Unix creation
            | None => zeroTime
            end in
          let announce := default "" (asString (index info "announce")) in
          let pieceLength :=
            match asInt64 (index info "piece length") with
            | Some pieceLength => pieceLength
            | None => default 0 (asInt (index info "piece length"))
            end in
          let private :=
            match asInt64 (index info "private") with
            | Some private => private
            | None => default 0 (asInt (index info "private"))
            end in
          let '(files, length) :=
            match asInt64 (index info "length") with
            | Some length => ([], length)
            | None =>
                match asInt (index info "length") with
                | Some length => ([], length)
                | None =>
                    match asList (index info "files") with
                    | Some files => convertFiles files [] 0
                    | None => ([], 0)
                    end
                end
            end in
          Ok {| InfoHash := infoHash; Name := name; Length := length;
                Files := files; PieceLength := pieceLength; Pieces := "";
                Private := private; Announce := announce;
                Comment := comment; Creation := creation |}
      end
  end.

Definition GiB : Z := 1024 * 1024 * 1024.

Definition videoExtensions : list string :=
  [".mp4"; ".mkv"; ".avi"; ".mov"; ".wmv"; ".flv"; ".ts"; ".m4v"; ".3gp"].
Definition audioExtensions : list string :=
  [".mp3"; ".flac"; ".aac"; ".wav"; ".wma"; ".m4a"; ".ogg"].
Definition imageExtensions : list string :=
  [".jpg"; ".jpeg"; ".png"; ".gif"; ".bmp"; ".tiff"].
Definition docExtensions : list string :=
  [".pdf"; ".doc"; ".docx"; ".xls"; ".xlsx"; ".ppt"; ".pptx"; ".txt"; ".epub"].
Definition archiveExtensions : list string :=
  [".zip"; ".rar"; ".7z"; ".tar"; ".gz"; ".iso"].

(** The keyword table of [categorizeContent], a Go map literal. *)
Definition keywordTable : list (string * list string) :=
  [ ("电影", ["movie"; "film"; "bluray"; "bdrip"; "dvdrip"; "1080p"; "720p"; "4k"]);
    ("电视剧", ["tv"; "series"; "season"; "episode"; "s01"; "s02"; "e01"; "e02"]);
    ("音乐", ["album"; "discography"; "soundtrack"; "ost"; "music"]);
    ("游戏", ["game"; "xbox"; "ps4"; "ps5"; "nintendo"; "switch"]);
    ("软件", ["software"; "app"; "windows"; "macos"; "linux"]);
    ("动漫", ["anime"; "cartoon"; "animation"]);
    ("电子书", ["ebook"; "books"; "novel"; "comics"; "manga"]) ].

(** The first category, in visiting order, one of whose words occurs. *)
Fixpoint firstKeywordCategory (lowerName : string)
    (visit : list (string * list string)) : option string :=
  match visit with
  | [] => None
  | (category, words) :: visit' =>
      if existsb (fun word => Contains lowerName word) words then Some category
      else firstKeywordCategory lowerName visit'
  end.

(** No extension of the five suffix tables ends the name, and no word of
    the keyword table occurs in it. *)
Definition matchesNoTable (lowerName : string) : bool :=
  negb (existsb (fun ext => HasSuffix lowerName ext)
          (videoExtensions ++ audioExtensions ++ imageExtensions
             ++ docExtensions ++ archiveExtensions)) &&
  negb (existsb (fun e : string * list string =>
                   existsb (fun word => Contains lowerName word) e.2)
          keywordTable).

Section Environment.

Variable ToLower : string -> string.

(** [url.QueryEscape] of net/url. *)
Variable QueryEscape : string -> string.

(** [categorizeContent]; [visit] is the order in which [range] visits the
    keyword table, some permutation of [keywordTable]. *)
Definition categorizeContent (visit : list (string * list string))
    (name : string) (fileCount : Z) (size : Z) : string :=
  let lowerName := ToLower name in
  if existsb (fun ext => HasSuffix lowerName ext) videoExtensions then
    if size >? GiB then "电影" else "视频"
  else if existsb (fun ext => HasSuffix lowerName ext) audioExtensions then "音乐"
  else if existsb (fun ext => HasSuffix lowerName ext) imageExtensions then "图片"
  else if existsb (fun ext => HasSuffix lowerName ext) docExtensions then "文档"
  else if existsb (fun ext => HasSuffix lowerName ext) archiveExtensions then "压缩包"
  else
    match firstKeywordCategory lowerName visit with
    | Some category => category
    | None =>
        if (fileCount >? 50) && (size >? 10 * GiB) then "合集"
        else if size >? 4 * GiB then "电影"
        else if fileCount >? 10 then "其他"
        else "未知"
    end.

(** The size and count heuristics as step 4 of section 4.I words them:
    three outcomes. *)
Definition heuristics_as_specified (visit : list (string * list string))
    (name : string) (fileCount size : Z) : Prop :=
  matchesNoTable (ToLower name) = true ->
  categorizeContent visit name fileCount size =
    if (fileCount >? 50) && (size >? 10 * GiB) then "合集"
    else if size >? 4 * GiB then "电影"
    else "未知".

Definition convertMetadataToTorrent (now : Time)
    (visit : list (string * list string)) (metadata : TorrentMetadata)
    (category : string) : Torrent :=
  let magnetLink := "magnet:?xt=urn:btih:" ++ EncodeToString (InfoHash metadata) in
  let magnetLink :=
    if negb (String.eqb (Announce metadata) "")
    then magnetLink ++ "&tr=" ++ QueryEscape (Announce metadata)
    else magnetLink in
  let magnetLink :=
    if negb (String.eqb (Name metadata) "")
    then magnetLink ++ "&dn=" ++ QueryEscape (Name metadata)
    else magnetLink in
  let fileCount := Z.of_nat (length (Files metadata)) in
  let fileCount := if fileCount =? 0 then 1 else fileCount in
  let category :=
    if String.eqb category ""
    then categorizeContent visit (Name metadata) fileCount (Length metadata)
    else category in
  let torrent :=
    {| Title := Name metadata;
       TInfoHash := EncodeToString (InfoHash metadata);
       MagnetLink := magnetLink;
       Size := Length metadata;
       FileCount := fileCount;
       Category := category;
       UploadDate := Creation metadata;
       Seeds := 0; Peers := 0; Downloads := 0;
       Description := Comment metadata;
       Source := "DHT";
       Heat := 1 |} in
  if IsZero (UploadDate torrent) then
    {| Title := Title torrent; TInfoHash := TInfoHash torrent;
       MagnetLink := MagnetLink torrent; Size := Size torrent;
       FileCount := FileCount torrent; Category := Category torrent;
       UploadDate := now;
       Seeds := Seeds torrent; Peers := Peers torrent;
       Downloads := Downloads torrent; Description := Description torrent;
       Source := Source torrent; Heat := Heat torrent |}
  else torrent.

End Environment.

(** What the loop receives from the Wire's response channel. *)
Record Response : Type := mkResponse {
  RInfoHash : string;
  MetadataInfo : string
}.

(** The calls of package database the loop makes, each returning its error
    (or [nil]) and the store it leaves behind.  The loop is modelled over
    any store with these calls, which covers a driver that fails; the
    package itself is [database] below. *)
Class Database (DB : Type) : Type := {
  InfoHashExists : DB -> string -> result bool;
  IncrementTorrentHeat : DB -> string -> DB * option error;
  AddTorrent : DB -> Torrent -> DB * option error
}.

(** The store calls issued, in order. *)
Inductive StoreOp : Type :=
| OpInfoHashExists (infoHash : string)
| OpIncrementTorrentHeat (infoHash : string)
| OpAddTorrent (torrent : Torrent).

(** What the runtime supplies while one response is handled: the reading of
    [time.Now()] and the order in which [range] visits the keyword table. *)
Record Runtime : Type := mkRuntime {
  now : Time;
  visit : list (string * list string)
}.

Section Ingest.

Variable ToLower : string -> string.
Variable QueryEscape : string -> string.

(** [dht.Decode], the bencode decoder of package dht. *)
Variable Decode : string -> result value.

Context {DB : Type} `{Database DB}.

Record Crawler : Type := mkCrawler {
  filter : KeywordFilter;
  running : bool
}.

(** One iteration of the loop of [processMetadata], after the [running]
    check: the store it leaves and the store calls it issued. *)
Definition processResponse (c : Crawler) (rt : Runtime) (resp : Response)
    (db : DB) : DB * list StoreOp :=
  match Decode (MetadataInfo resp) with
  | Err _ => (db, [])
  | Ok metadata =>
  match convertToTorrentMetadata (RInfoHash resp) metadata with
  | Err _ => (db, [])
  | Ok torrentMetadata =>
  if String.eqb (Name torrentMetadata) "" then (db, [])
  else
    match InfoHashExists db (InfoHash torrentMetadata) with
    | Err _ => (db, [OpInfoHashExists (InfoHash torrentMetadata)])
    | Ok true =>
        let '(db', _) := IncrementTorrentHeat db (InfoHash torrentMetadata) in
        (db', [OpInfoHashExists (InfoHash torrentMetadata);
               OpIncrementTorrentHeat (InfoHash torrentMetadata)])
    | Ok false =>
        let '(matched, keyword) :=
          MatchContent ToLower (filter c) (Name torrentMetadata) in
        if negb matched then
          (db, [OpInfoHashExists (InfoHash torrentMetadata)])
        else
          let category := GetCategory ToLower (filter c) keyword in
          let category :=
            if String.eqb category "" then
              categorizeContent ToLower (visit rt) (Name torrentMetadata)
                (Z.of_nat (length (Files torrentMetadata)))
                (Length torrentMetadata)
            else category in
          let torrent :=
            convertMetadataToTorrent ToLower QueryEscape (now rt) (visit rt)
              torrentMetadata category in
          let '(db', _) := AddTorrent db torrent in
          (db', [OpInfoHashExists (InfoHash torrentMetadata);
                 OpAddTorrent torrent])
    end
  end
  end.

(** Step 2 of section 4.I as the specification words it: an item
    whose info-hash the store reports present has a heat increment issued
    for it. *)
Definition increment_issued_if_present (c : Crawler) (rt : Runtime)
    (resp : Response) (db : DB) : Prop :=
  InfoHashExists db (RInfoHash resp) = Ok true ->
  OpIncrementTorrentHeat (RInfoHash resp)
    ∈ (processResponse c rt resp db).2.

(** [processMetadata]: the responses are handled in order of arrival until
    the channel is drained or the crawler is found stopped. *)
Fixpoint processMetadata (c : Crawler) (arrivals : list (Runtime * Response))
    (db : DB) : DB * list StoreOp :=
  match arrivals with
  | [] => (db, [])
  | (rt, resp) :: arrivals' =>
      if negb (running c) then (db, [])
      else
        let '(db1, ops1) := processResponse c rt resp db in
        let '(db2, ops2) := processMetadata c arrivals' db1 in
        (db2, (ops1 ++ ops2)%list)
  end.

End Ingest.

(** The record [t] with its heat set to [heat]. *)
Definition withHeat (t : Torrent) (heat : Z) : Torrent :=
  {| Title := Title t; TInfoHash := TInfoHash t; MagnetLink := MagnetLink t;
     Size := Size t; FileCount := FileCount t; Category := Category t;
     UploadDate := UploadDate t; Seeds := Seeds t; Peers := Peers t;
     Downloads := Downloads t; Description := Description t;
     Source := Source t; Heat := heat |}.

(** *** internal/database

    The collection [torrents] of the MongoDB database, as the driver
    presents it: its documents in natural order, kept as the values handed
    to the driver.  [InitDB] puts a unique index on [info_hash].  The calls
    of the driver are modelled on a server that answers: [FindOne] fails
    with [mongo.ErrNoDocuments] when nothing matches, [InsertOne] with a
    duplicate-key error when the key of the unique index is taken, and
    [UpdateOne] changes the first match, or nothing when there is none. *)

Module database.

Record DB : Type := mkDB { Torrents : list Torrent }.

Definition ErrNoDocuments : error := ErrStore "mongo: no documents in result".

#[global] Instance error_eq_dec : EqDecision error.
Proof. solve_decision. Defined.

(** [FindOne(ctx, bson.M{"info_hash": infoHash}).Decode(&t)]. *)
Definition FindOne (coll : list Torrent) (infoHash : string) : result Torrent :=
  match find (fun t => String.eqb (TInfoHash t) infoHash) coll with
  | Some t => Ok t
  | None => Err ErrNoDocuments
  end.

(** [{"$inc": {"heat": 1}}] applied to a document. *)
Definition incHeat (t : Torrent) : Torrent := withHeat t (Heat t + 1).

(** [UpdateOne(ctx, bson.M{"info_hash": infoHash}, update)] with the update
    [{"$inc": {"heat": 1}}]. *)
Fixpoint UpdateOne (coll : list Torrent) (infoHash : string)
    : list Torrent * option error :=
  match coll with
  | [] => ([], None)
  | t :: coll' =>
      if String.eqb (TInfoHash t) infoHash then (incHeat t :: coll', None)
      else
        let '(coll'', err) := UpdateOne coll' infoHash in (t :: coll'', err)
  end.

(** [InsertOne(ctx, torrent)] under the unique index on [info_hash]. *)
Definition InsertOne (coll : list Torrent) (torrent : Torrent)
    : list Torrent * option error :=
  if existsb (fun t => String.eqb (TInfoHash t) (TInfoHash torrent)) coll
  then (coll, Some (ErrStore "E11000 duplicate key error"))
  else ((coll ++ [torrent])%list, None).

(** [CountDocuments(ctx, bson.M{"info_hash": infoHash})]. *)
Fixpoint CountDocuments (coll : list Torrent) (infoHash : string) : result Z :=
  match coll with
  | [] => Ok 0
  | t :: coll' =>
      count ← CountDocuments coll' infoHash;
      Ok (if String.eqb (TInfoHash t) infoHash then count + 1 else count)
  end.

Definition AddTorrent (db : DB) (torrent : Torrent) : DB * option error :=
  match FindOne (Torrents db) (TInfoHash torrent) with
  | Ok existingTorrent =>
      let '(coll, err) := UpdateOne (Torrents db) (TInfoHash torrent) in
      ({| Torrents := coll |}, err)
  | Err err =>
      if bool_decide (err = ErrNoDocuments) then
        let '(coll, err) := InsertOne (Torrents db) torrent in
        ({| Torrents := coll |}, err)
      else (db, Some err)
  end.

Definition IncrementTorrentHeat (db : DB) (infoHash : string)
    : DB * option error :=
  let hexInfoHash := EncodeToString infoHash in
  let '(coll, err) := UpdateOne (Torrents db) hexInfoHash in
  ({| Torrents := coll |}, err).

Definition InfoHashExists (db : DB) (infoHash : string) : result bool :=
  let hexInfoHash := EncodeToString infoHash in
  count ← CountDocuments (Torrents db) hexInfoHash;
  Ok (count >? 0).

End database.

(** The loop runs on this store. *)
#[global] Instance Store : Database database.DB := {|
  InfoHashExists := database.InfoHashExists;
  IncrementTorrentHeat := database.IncrementTorrentHeat;
  AddTorrent := database.AddTorrent
|}.

(** The decoder of package dht on the two encodings the examples use. *)
Definition decodeExamples (b : string) : result value :=
  if String.eqb b "d4:name0:e" then Ok (VDict [("name", VString "")])
  else if String.eqb b "d6:lengthi7e4:name9:movie.mkve" then
    Ok (VDict [("length", VInt 7); ("name", VString "movie.mkv")])
  else Err ErrInvalidEncoding.

Definition exampleRecord : Torrent :=
  {| Title := "old"; TInfoHash := "6162"; MagnetLink := ""; Size := 0;
     FileCount := 1; Category := ""; UploadDate := zeroTime; Seeds := 0;
     Peers := 0; Downloads := 0; Description := ""; Source := "DHT";
     Heat := 1 |}.

End Crawler.
Import Crawler.

(** ** The DHT engine (package dht) *)

Module DHT.

Definition StandardMode : Z := 0.
Definition CrawlMode : Z := 1.

(** [hex.DecodeString]. *)
Definition fromHexChar (c : ascii) : option N :=
  let n := N_of_ascii c in
  if ((48 <=? n) && (n <=? 57))%N then Some (n - 48)%N
  else if ((97 <=? n) && (n <=? 102))%N then Some (n - 87)%N
  else if ((65 <=? n) && (n <=? 70))%N then Some (n - 55)%N
  else None.

Fixpoint DecodeString (s : string) : result string :=
  match s with
  | EmptyString => Ok EmptyString
  | String c EmptyString =>
      match fromHexChar c with
      | Some _ => Err ErrHexLength
      | None => Err (ErrHexInvalidByte c)
      end
  | String c1 (String c2 s') =>
      match fromHexChar c1 with
      | None => Err (ErrHexInvalidByte c1)
      | Some a =>
          match fromHexChar c2 with
          | None => Err (ErrHexInvalidByte c2)
          | Some b =>
              rest ← DecodeString s';
              Ok (String (ascii_of_N (a * 16 + b)) rest)
          end
      end
  end.

(** The slice expressions [s[:n]] and [s[n:]] of a string: a run-time
    panic ([None]) when [n] exceeds the length. *)
Definition sliceTo (s : string) (n : nat) : option string :=
  if (n <=? String.length s)%nat then Some (String.substring 0 n s) else None.
Definition sliceFrom (s : string) (n : nat) : option string :=
  if (n <=? String.length s)%nat
  then Some (String.substring n (String.length s - n) s) else None.

(** A node of the network: its identifier (the raw bytes of its bitmap) and
    its UDP address. *)
Record node : Type := mkNode {
  id_RawString : string;
  addr : string
}.

(** Modelled from the spec: the routing table, whose source file is not
    among the sources at hand.  Only what [GetPeers] and [Run] use is
    modelled: the nodes it holds, [Len], and [GetNeighbors], which by
    section 4.C of the spec returns the [n] nodes with smallest XOR
    distance to the target, ties kept in table order. *)
Record routingTable : Type := mkRoutingTable {
  nodes : list node
}.

Definition Len (rt : routingTable) : Z := Z.of_nat (length (nodes rt)).

(** The number a byte string denotes, most significant byte first. *)
Definition bigEndian (s : string) : N :=
  foldl (fun acc c => (acc * 256 + N_of_ascii c)%N) 0%N (list_ascii_of_string s).

Definition xorDistance (a b : string) : N := N.lxor (bigEndian a) (bigEndian b).

Definition closer (target : string) (n1 n2 : node) : Prop :=
  (xorDistance (id_RawString n1) target <= xorDistance (id_RawString n2) target)%N.

#[global] Instance closer_dec target : RelDecision (closer target).
Proof. intros n1 n2. unfold closer. apply _. Defined.

Definition GetNeighbors (rt : routingTable) (target : string) (size : Z)
    : list node :=
  take (Z.to_nat size) (merge_sort (closer target) (nodes rt)).

(** What the engine sends or starts. *)
Inductive Action : Type :=
| FindNode (no : node) (target : string)      (* transactionManager.findNode *)
| GetPeersQuery (no : node) (infoHash : string) (* transactionManager.getPeers *)
| Fresh                                       (* go routingTable.Fresh() *)
| Handle (pkt : string) (raddr : option string) (* handle(dht, pkt) *)
| RefreshNAT                                  (* natTraversal.Refresh(ctx) *)
| Return.                                     (* Run returns *)

Section Engine.

(** The type of the callbacks registered in the configuration. *)
Context {Callback : Type}.

(** [net.ResolveUDPAddr] on the configured network. *)
Variable ResolveUDPAddr : string -> result string.

(** The fields of [Config] and [DHT] the modelled functions read. *)
Record DHT : Type := mkDHT {
  K : Z;
  Mode : Z;
  PrimeNodes : list string;
  OnGetPeersResponse : option Callback;
  self : node;
  table : routingTable;
  transactions : Z;            (* transactionManager.len() *)
  natTraversal : bool;         (* natTraversal != nil *)
  Ready : bool
}.

Definition IsStandardMode (dht : DHT) : bool := Mode dht =? StandardMode.
Definition IsCrawlMode (dht : DHT) : bool := Mode dht =? CrawlMode.

(** [id]; [None] is the run-time panic of a slice out of range. *)
Definition id (dht : DHT) (target : string) : option string :=
  if IsStandardMode dht || String.eqb target "" then
    Some (id_RawString (self dht))
  else
    head ← sliceTo target 15;
    tail ← sliceFrom (id_RawString (self dht)) 15;
    Some (head ++ tail).

(** The raw info-hash [GetPeers] works with: a 40-byte argument is decoded
    from hexadecimal, any other is taken as it is. *)
Definition rawInfoHash (infoHash : string) : result string :=
  if Go.len infoHash =? 40 then DecodeString infoHash else Ok infoHash.

(** [GetPeers]: the error, or the queries emitted. *)
Definition GetPeers (dht : DHT) (infoHash : string) : result (list Action) :=
  if negb (Ready dht) then Err ErrNotReady
  else if negb (bool_decide (is_Some (OnGetPeersResponse dht))) then
    Err ErrOnGetPeersResponseNotSet
  else
    infoHash ← rawInfoHash infoHash;
    let neighbors := GetNeighbors (table dht) infoHash (Len (table dht)) in
    Ok ((fun no => GetPeersQuery no infoHash) <$> neighbors).

(** [getPeers] as section 4.F words it: the queries go to the [K]
    closest nodes. *)
Definition queries_K_closest (dht : DHT) (infoHash : string) : Prop :=
  Ready dht = true -> is_Some (OnGetPeersResponse dht) ->
  forall raw, rawInfoHash infoHash = Ok raw ->
  GetPeers dht infoHash
    = Ok ((fun no => GetPeersQuery no raw)
            <$> GetNeighbors (table dht) raw (K dht)).

(** [join]: a [find_node] for the engine's own identifier to every prime
    node whose address resolves. *)
Definition join (dht : DHT) : list Action :=
  omap (fun a =>
          match ResolveUDPAddr a with
          | Ok raddr =>
              Some (FindNode {| id_RawString := ""; addr := raddr |}
                      (id_RawString (self dht)))
          | Err _ => None
          end) (PrimeNodes dht).

(** The events the [select] of [Run] waits for. *)
Inductive Event : Type :=
| Packet (data : string) (raddr : option string)   (* <-dht.packets *)
| Tick                                             (* <-tick *)
| NatRefreshTick                                   (* <-natRefreshTick *)
| Closing.                                         (* <-dht.closing *)

(** One turn of the loop of [Run]: what the chosen case does. *)
Definition runStep (dht : DHT) (ev : Event) : list Action :=
  match ev with
  | Packet data raddr => [Handle data raddr]
  | Tick =>
      if Len (table dht) =? 0 then join dht
      else if transactions dht =? 0 then [Fresh]
      else []
  | NatRefreshTick => if natTraversal dht then [RefreshNAT] else []
  | Closing => [Return]
  end.

(** The periodic tick as section 4.F words it: a tick re-joins when the
    routing table is empty and refreshes it otherwise. *)
Definition tick_joins_or_refreshes (dht : DHT) : Prop :=
  (Len (table dht) = 0 -> runStep dht Tick = join dht) /\
  (Len (table dht) <> 0 -> runStep dht Tick = [Fresh]).

End Engine.

(** An engine in the standard configuration ([K] = 8) whose routing table
    holds nine nodes. *)
Definition nineNodes : list node :=
  (fun c => {| id_RawString := "aaaaaaaaaaaaaaaaaaa" ++ c; addr := "10.0.0." ++ c |})
    <$> ["1"; "2"; "3"; "4"; "5"; "6"; "7"; "8"; "9"].

Definition standard9 : @DHT unit :=
  {| K := 8; Mode := StandardMode; PrimeNodes := ["router.bittorrent.com:6881"];
     OnGetPeersResponse := Some tt;
     self := {| id_RawString := "ABCDEFGHIJKLMNOPQRST"; addr := ":6881" |};
     table := {| nodes := nineNodes |}; transactions := 1;
     natTraversal := false; Ready := true |}.

Definition crawler20 : @DHT unit :=
  {| K := 8; Mode := CrawlMode; PrimeNodes := []; OnGetPeersResponse := None;
     self := {| id_RawString := "ABCDEFGHIJKLMNOPQRST"; addr := "" |};
     table := {| nodes := [] |}; transactions := 0; natTraversal := false;
     Ready := true |}.

End DHT.

(** ** Further vocabulary for the keyword filter *)

Module FilterLaws.

(** Every category of the map belongs to a keyword of the list and is not
    the empty string. *)
Definition categories_ok (kf : KeywordFilter) : Prop :=
  forall k c, categoryMap kf !! k = Some c -> k ∈ keywords kf /\ c <> "".

Section Lowercase.
Variable ToLower : string -> string.

(** The invariant of the blacklist. *)
Definition blacklist_ok (kf : KeywordFilter) : Prop :=
  Forall (fun k => ToLower k = k) (blacklist kf) /\ NoDup (blacklist kf).

End Lowercase.

End FilterLaws.
Import FilterLaws.

(** ** Setting the crawler up (package crawler) *)

Module CrawlerSetup.

(** [strings.Split(s, sep)] for a separator of one byte: the pieces of [s]
    between the occurrences of [sep], one more than there are
    occurrences. *)
Fixpoint Split (s : string) (sep : ascii) : list string :=
  match s with
  | EmptyString => [EmptyString]
  | String c s' =>
      if Ascii.eqb c sep then EmptyString :: Split s' sep
      else
        match Split s' sep with
        | part :: parts => String c part :: parts
        | [] => [String c EmptyString]
        end
  end.

(** The two errors of [parseListenAddr], with the text they quote. *)
Inductive AddrError : Type :=
| ErrAddrFormat (addr : string)
| ErrPort (part : string).

Section Scan.

(** [fmt.Sscanf(s, "%d", &port)]: the integer scanned from [s], or its
    failure. *)
Variable Sscanf_d : string -> option Z.

Definition parseListenAddr (addr : string) : (string * Z) + AddrError :=
  match Split addr ":" with
  | [host; portText] =>
      let host := if String.eqb host "" then "0.0.0.0" else host in
      match Sscanf_d portText with
      | Some port => inl (host, port)
      | None => inr (ErrPort portText)
      end
  | _ => inr (ErrAddrFormat addr)
  end.

End Scan.

(** Bytes that [strings.ToLower] leaves alone for sure: the ASCII bytes
    other than the capital letters. *)
Definition plainLowerByte (c : ascii) : bool :=
  ((N_of_ascii c <? 128) && negb ((65 <=? N_of_ascii c) && (N_of_ascii c <=? 90)))%N.

Fixpoint plainLower (s : string) : bool :=
  match s with
  | EmptyString => true
  | String c s' => plainLowerByte c && plainLower s'
  end.

Section Lowercase.
Variable ToLower : string -> string.

Definition initDefaultKeywords (filter : KeywordFilter) : KeywordFilter :=
  let filter :=
    AddKeywords ToLower filter
      ["movie"; "film"; "bluray"; "bdrip"; "1080p"; "720p"; "4k"; "uhd";
       "av"; "jav"; "sex"] "电影" in
  let filter :=
    AddKeywords ToLower filter
      ["tv series"; "season"; "episode"; "s01"; "s02"; "e01"; "e02"; "tv"]
      "电视剧" in
  let filter :=
    AddKeywords ToLower filter
      ["anime"; "animation"; "cartoon"; "animated"] "动漫" in
  let filter :=
    AddKeywords ToLower filter
      ["ost"; "soundtrack"; "album"; "discography"; "concert"; "music";
       "mp3"; "flac"] "音乐" in
  let filter :=
    AddKeywords ToLower filter
      ["software"; "application"; "app"; "windows"; "macos"; "linux";
       "android"; "ios"] "软件" in
  let filter :=
    AddKeywords ToLower filter
      ["game"; "pc game"; "xbox"; "playstation"; "ps4"; "ps5"; "nintendo";
       "switch"] "游戏" in
  let filter :=
    AddKeywords ToLower filter
      ["ebook"; "pdf"; "epub"; "mobi"; "azw3"; "textbook"; "book"]
      "电子书" in
  AddBlacklist ToLower filter ["child"; "teen"; "underage"].

(** The filter [NewCrawler] gives the crawler. *)
Definition defaultFilter : KeywordFilter :=
  initDefaultKeywords NewKeywordFilter.

End Lowercase.

End CrawlerSetup.
Import CrawlerSetup.

(** ** The engine's counters (package dht) *)

Module DHTMonitor.

(** [Peer] as [updatePeerStats] reads it: the text of [IP.String()] and the
    port. *)
Record Peer : Type := mkPeer { IP : string; Port : Z }.

(** The monitoring fields of [DHT], with the prime nodes of its [Config].
    [bootNodeLatency], which no function writes, is left out. *)
Record Monitor : Type := mkMonitor {
  PrimeNodes : list string;
  totalBootNodes : Z;
  connectedBootNodes : Z;
  bootNodeStatus : gmap string bool;
  totalPeersFound : Z;
  uniquePeersCount : Z;
  activeInfoHashes : gmap string Z;
  uniquePeerMap : gset string
}.

(** The fields as [New] leaves them. *)
Definition New (primeNodes : list string) : Monitor :=
  {| PrimeNodes := primeNodes;
     totalBootNodes := Z.of_nat (length primeNodes);
     connectedBootNodes := 0;
     bootNodeStatus := ∅;
     totalPeersFound := 0;
     uniquePeersCount := 0;
     activeInfoHashes := ∅;
     uniquePeerMap := ∅ |}.

Definition initBootNodeStatus (dht : Monitor) : Monitor :=
  {| PrimeNodes := PrimeNodes dht;
     totalBootNodes := totalBootNodes dht;
     connectedBootNodes := connectedBootNodes dht;
     bootNodeStatus :=
       foldl (fun status addr => <[addr := false]> status)
         (bootNodeStatus dht) (PrimeNodes dht);
     totalPeersFound := totalPeersFound dht;
     uniquePeersCount := uniquePeersCount dht;
     activeInfoHashes := activeInfoHashes dht;
     uniquePeerMap := uniquePeerMap dht |}.

Definition recordNodeResponse (dht : Monitor) (addr : string) : Monitor :=
  match bootNodeStatus dht !! addr with
  | Some status =>
      {| PrimeNodes := PrimeNodes dht;
         totalBootNodes := totalBootNodes dht;
         connectedBootNodes :=
           if negb status then add64 (connectedBootNodes dht) 1
           else connectedBootNodes dht;
         bootNodeStatus := <[addr := true]> (bootNodeStatus dht);
         totalPeersFound := totalPeersFound dht;
         uniquePeersCount := uniquePeersCount dht;
         activeInfoHashes := activeInfoHashes dht;
         uniquePeerMap := uniquePeerMap dht |}
  | None => dht
  end.

(** [GetBootNodeStats]: the counters and a copy of the status map. *)
Definition GetBootNodeStats (dht : Monitor) : Z * Z * gmap string bool :=
  (totalBootNodes dht, connectedBootNodes dht, bootNodeStatus dht).

(** [fmt.Sprintf("%s:%d", peer.IP.String(), peer.Port)]. *)
Definition peerKey (peer : Peer) : string :=
  IP peer ++ ":" ++ Itoa (Port peer).

Definition updatePeerStats (dht : Monitor) (infoHash : string) (peer : Peer)
    : Monitor :=
  let totalPeersFound := add64 (totalPeersFound dht) 1 in
  let activeInfoHashes :=
    match activeInfoHashes dht !! infoHash with
    | None => <[infoHash := 1]> (activeInfoHashes dht)
    | Some count => <[infoHash := add64 count 1]> (activeInfoHashes dht)
    end in
  let peerKey := peerKey peer in
  let fresh := bool_decide (peerKey ∉ uniquePeerMap dht) in
  {| PrimeNodes := PrimeNodes dht;
     totalBootNodes := totalBootNodes dht;
     connectedBootNodes := connectedBootNodes dht;
     bootNodeStatus := bootNodeStatus dht;
     totalPeersFound := totalPeersFound;
     uniquePeersCount :=
       if fresh then add64 (uniquePeersCount dht) 1 else uniquePeersCount dht;
     activeInfoHashes := activeInfoHashes;
     uniquePeerMap :=
       if fresh then {[ peerKey ]} ∪ uniquePeerMap dht else uniquePeerMap dht |}.

(** [GetPeerStats]: the counters and a copy of the per-hash counts. *)
Definition GetPeerStats (dht : Monitor) : Z * Z * gmap string Z :=
  (totalPeersFound dht, uniquePeersCount dht, activeInfoHashes dht).

(** What reaches the monitor while the engine runs: a packet from [addr]
    taken by [Run], or a peer handed to the wrapped [OnGetPeersResponse]. *)
Inductive MonitorEvent : Type :=
| Responded (addr : string)
| Found (infoHash : string) (peer : Peer).

Definition monitorStep (dht : Monitor) (ev : MonitorEvent) : Monitor :=
  match ev with
  | Responded addr => recordNodeResponse dht addr
  | Found infoHash peer => updatePeerStats dht infoHash peer
  end.

(** The monitor of an engine that was made by [New], initialised by
    [init], and has since met the events [events], in this order. *)
Definition monitorAfter (primeNodes : list string)
    (events : list MonitorEvent) : Monitor :=
  foldl monitorStep (initBootNodeStatus (New primeNodes)) events.

(** The addresses that responded and the peers that were found. *)
Definition responded (events : list MonitorEvent) : list string :=
  omap (fun ev => match ev with Responded addr => Some addr | _ => None end)
    events.
Definition found (events : list MonitorEvent) : list (string * Peer) :=
  omap (fun ev =>
          match ev with Found h peer => Some (h, peer) | _ => None end)
    events.

(** The entries of the status map that are true. *)
Definition connected (status : gmap string bool) : gmap string bool :=
  base.filter (fun kv : string * bool => kv.2 = true) status.

(** What [recordNodeResponse] keeps, [seen] being the addresses recorded
    so far. *)
Definition boot_ok (primeNodes seen : list string) (dht : Monitor) : Prop :=
  PrimeNodes dht = primeNodes /\
  totalBootNodes dht = Z.of_nat (length primeNodes) /\
  (size (bootNodeStatus dht) <= length primeNodes)%nat /\
  (forall a, bootNodeStatus dht !! a
             = if bool_decide (a ∈ primeNodes)
               then Some (bool_decide (a ∈ seen)) else None) /\
  connectedBootNodes dht = Z.of_nat (size (connected (bootNodeStatus dht))).

(** How many of the peers found so far were reported for [infoHash]. *)
Definition hashCount (infoHash : string) (seen : list (string * Peer)) : nat :=
  length (base.filter (fun f : string * Peer => f.1 = infoHash) seen).

(** What [updatePeerStats] keeps, [seen] being the peers reported so far. *)
Definition peers_ok (seen : list (string * Peer)) (dht : Monitor) : Prop :=
  totalPeersFound dht = Z.of_nat (length seen) /\
  uniquePeerMap dht = list_to_set ((fun f => peerKey f.2) <$> seen) /\
  uniquePeersCount dht = Z.of_nat (size (uniquePeerMap dht)) /\
  (size (uniquePeerMap dht) <= length seen)%nat /\
  (forall h, activeInfoHashes dht !! h
             = if (hashCount h seen =? 0)%nat then None
               else Some (Z.of_nat (hashCount h seen))).

End DHTMonitor.

(** ** The web server's helpers (package server) *)

Module Server.

Record PaginationItem : Type := mkPaginationItem {
  Type_ : string;       (* the field [Type]: "page" or "ellipsis" *)
  Number : Z;
  Current : bool
}.

Definition sub64 (a b : Z) : Z := wrap64 (a - b).

(** [generatePagination]; the zero values of the fields left out of a
    literal are written out. *)
Definition generatePagination (currentPage totalPages : Z)
    : list PaginationItem :=
  let items : list PaginationItem := [] in
  let items :=
    if currentPage >? 3 then
      let items :=
        (items ++ [{| Type_ := "page"; Number := 1; Current := false |}])%list in
      if currentPage >? 4 then
        (items ++ [{| Type_ := "ellipsis"; Number := 0; Current := false |}])%list
      else items
    else items in
  let items :=
    if currentPage >? 1 then
      (items ++ [{| Type_ := "page"; Number := sub64 currentPage 1;
                   Current := false |}])%list
    else items in
  let items :=
    (items ++ [{| Type_ := "page"; Number := currentPage; Current := true |}])%list in
  let items :=
    if currentPage <? totalPages then
      (items ++ [{| Type_ := "page"; Number := add64 currentPage 1;
                   Current := false |}])%list
    else items in
  let items :=
    if currentPage <? sub64 totalPages 2 then
      let items :=
        if currentPage <? sub64 totalPages 3 then
          (items ++ [{| Type_ := "ellipsis"; Number := 0; Current := false |}])%list
        else items in
      (items ++ [{| Type_ := "page"; Number := totalPages; Current := false |}])%list
    else items in
  items.

(** The numbers of the items that are pages, in order. *)
Definition pageNumbers (items : list PaginationItem) : list Z :=
  omap (fun item =>
          if String.eqb (Type_ item) "page" then Some (Number item) else None)
    items.

(** [formatSize].  [unit] is the constant of the function; the loop runs
    on [fuel]; [None] is a loop that has not ended within the fuel, or the
    run-time panic of an index out of range. *)
Definition unit : Z := 1024.

Fixpoint formatSizeLoop (fuel : nat) (n div exp : Z) : option (Z * Z) :=
  match fuel with
  | O => None
  | S fuel' =>
      if n >=? unit then
        formatSizeLoop fuel' (Z.quot n unit) (wrap64 (div * unit)) (add64 exp 1)
      else Some (div, exp)
  end.

(** ["KMGTPE"[exp]]. *)
Definition unitLetter (exp : Z) : option ascii :=
  if (0 <=? exp) && (exp <? 6) then String.get (Z.to_nat exp) "KMGTPE"
  else None.

Section Float.

(** [strconv.FormatFloat(float64(bytes)/float64(div), 'f', 2, 64)]. *)
Variable FormatQuotient : Z -> Z -> string.

Definition formatSize (fuel : nat) (bytes : Z) : option string :=
  if bytes <? unit then Some (FormatInt10 bytes ++ " B")
  else
    '(div, exp) ← formatSizeLoop fuel (Z.quot bytes unit) unit 0;
    letter ← unitLetter exp;
    Some (FormatQuotient bytes div ++ " " ++ String letter "B").

End Float.

End Server.

(** ** Guessing the gateway (package gateway) *)

Module Gateway.

(** [guessGatewayFromIP]; an address and a mask are byte slices, and [nil]
    is [None].  The two other guesses the function builds and drops are
    left out. *)
Definition guessGatewayFromIP (ip mask : list Z) : option (list Z) :=
  if (length ip =? 4)%nat && (length mask =? 4)%nat then
    let network := zip_with Z.land ip mask in
    let gateway1 := <[3%nat := 1]> network in
    Some gateway1
  else None.

(** The network an address lies in under a mask. *)
Definition networkOf (ip mask : list Z) : list Z := zip_with Z.land ip mask.

End Gateway.

(** ** Paging the search results (packages server and database) *)

Module Search.

(** [searchHandler]: the page and the page size it passes on, from what
    [strconv.Atoi] made of the query ([0] on a failure). *)
Definition normalize (page pageSize : Z) : Z * Z :=
  let page := if page <=? 0 then 1 else page in
  let pageSize := if pageSize <=? 0 then 20 else pageSize in
  (page, pageSize).

(** [SearchTorrents]: the number of documents skipped for a page, and the
    number of pages, [None] being the run-time panic of a division by
    zero. *)
Definition skip (page pageSize : Z) : Z :=
  wrap64 (wrap64 (page - 1) * pageSize).

Definition TotalPage (total pageSize : Z) : option Z :=
  if pageSize =? 0 then None
  else
    Some (add64 (wrap64 (Z.quot total pageSize))
            (if Z.rem total pageSize >? 0 then 1 else 0)).

(** [searchHandler]: the links to the previous and the next page. *)
Definition prevPage (page : Z) : Z :=
  let prevPage := wrap64 (page - 1) in
  if prevPage <? 1 then 1 else prevPage.

Definition nextPage (page totalPage : Z) : Z :=
  let nextPage := add64 page 1 in
  if nextPage >? totalPage then totalPage else nextPage.

End Search.

(** * Properties *)

(** ** Byte strings *)

Module StringFacts.

Lemma append_nil_l (s : string) : "" ++ s = s.
Proof. reflexivity. Qed.

Lemma append_cons (c : ascii) (s1 s2 : string) :
  String c s1 ++ s2 = String c (s1 ++ s2).
Proof. reflexivity. Qed.

Lemma append_nil_r (s : string) : s ++ "" = s.
Proof.
  induction s as [|c s IH]; [reflexivity|]. now rewrite append_cons, IH.
Qed.

Lemma append_assoc (s1 s2 s3 : string) : (s1 ++ s2) ++ s3 = s1 ++ (s2 ++ s3).
Proof.
  induction s1 as [|c s1 IH]; [reflexivity|]. now rewrite !append_cons, IH.
Qed.

Lemma length_append (s1 s2 : string) :
  String.length (s1 ++ s2) = (String.length s1 + String.length s2)%nat.
Proof.
  induction s1 as [|c s1 IH]; [reflexivity|].
  rewrite append_cons. simpl. now rewrite IH.
Qed.

Lemma prefix_spec (pre s : string) :
  String.prefix pre s = true <-> exists post, s = pre ++ post.
Proof.
  revert s. induction pre as [|c pre IH]; intros s.
  - destruct s; simpl; split; eauto.
  - destruct s as [|c' s]; simpl.
    + split; [discriminate | intros [post Hp]; discriminate].
    + destruct (ascii_dec c c') as [->|Hne].
      * rewrite IH. split; intros [post Hp]; exists post.
        -- rewrite append_cons. congruence.
        -- rewrite append_cons in Hp. congruence.
      * split; [discriminate | intros [post Hp]].
        rewrite append_cons in Hp. congruence.
Qed.

Lemma Contains_nil (sub : string) : Contains "" sub = HasPrefix "" sub.
Proof. unfold Contains. now rewrite orb_false_r. Qed.

Lemma Contains_cons (c : ascii) (s sub : string) :
  Contains (String c s) sub = HasPrefix (String c s) sub || Contains s sub.
Proof. reflexivity. Qed.

Lemma HasPrefix_spec (s pre : string) :
  HasPrefix s pre = true <-> exists post, s = pre ++ post.
Proof. apply prefix_spec. Qed.

Lemma Contains_spec (s sub : string) :
  Contains s sub = true <-> occurs sub s.
Proof.
  induction s as [|c s IH].
  - rewrite Contains_nil, HasPrefix_spec. split.
    + intros [post Hp]. exists "", post. exact Hp.
    + intros (pre & post & Hp). destruct pre; [|discriminate].
      exists post. exact Hp.
  - rewrite Contains_cons, orb_true_iff, IH, HasPrefix_spec. split.
    + intros [[post Hp] | (pre & post & Hp)].
      * exists "", post. exact Hp.
      * exists (String c pre), post. rewrite append_cons. now rewrite Hp.
    + intros (pre & post & Hp). destruct pre as [|c' pre].
      * left. eauto.
      * right. exists pre, post. rewrite append_cons in Hp. congruence.
Qed.

Lemma Contains_empty (s : string) : Contains s "" = true.
Proof. apply Contains_spec. exists "", s. reflexivity. Qed.

Lemma HasSuffix_nil (suf : string) : HasSuffix "" suf = String.eqb "" suf.
Proof. unfold HasSuffix. now rewrite orb_false_r. Qed.

Lemma HasSuffix_cons (c : ascii) (s suf : string) :
  HasSuffix (String c s) suf = String.eqb (String c s) suf || HasSuffix s suf.
Proof. reflexivity. Qed.

Lemma HasSuffix_spec (s suf : string) :
  HasSuffix s suf = true <-> exists pre, s = pre ++ suf.
Proof.
  induction s as [|c s IH].
  - rewrite HasSuffix_nil, String.eqb_eq. split.
    + intros <-. now exists "".
    + intros [pre Hp]. destruct pre; [exact Hp | discriminate].
  - rewrite HasSuffix_cons, orb_true_iff, String.eqb_eq, IH. split.
    + intros [<- | [pre ->]]; [now exists "" | now exists (String c pre)].
    + intros [pre Hp]. destruct pre as [|c' pre].
      * now left.
      * right. exists pre. rewrite append_cons in Hp. congruence.
Qed.

(** [String.le] is the lexicographic order on bytes, a proper prefix being
    smaller: the order of Go's [<] on strings and of [sort.Strings]. *)
Lemma le_lexicographic (s1 s2 : string) :
  String.le s1 s2 <->
  match s1, s2 with
  | EmptyString, _ => True
  | String _ _, EmptyString => False
  | String c1 s1', String c2 s2' =>
      (N_of_ascii c1 < N_of_ascii c2)%N \/ (c1 = c2 /\ String.le s1' s2')
  end.
Proof.
  unfold String.le, String.leb.
  destruct s1 as [|c1 s1], s2 as [|c2 s2]; cbn [String.compare]; try tauto.
  unfold Ascii.compare.
  destruct (N.compare_spec (N_of_ascii c1) (N_of_ascii c2)) as [E|E|E].
  - assert (c1 = c2) as ->
      by (rewrite <- (ascii_N_embedding c1), <- (ascii_N_embedding c2); congruence).
    split; [intros Hle; right; auto | intros [Hlt|[_ Hle]]; [lia | exact Hle]].
  - cbn. tauto.
  - cbn. split; [tauto|]. intros [Hlt|[-> _]]; lia.
Qed.

End StringFacts.
Import StringFacts.

(** ** The bencode encoder *)

Module BencodeFacts.

(** Induction on values, with the hypothesis available for the elements of
    a list and of a dictionary. *)
Lemma value_ind' (P : value -> Prop)
    (Hstring : forall s, P (VString s))
    (Hint : forall n, P (VInt n))
    (Hint64 : forall n, P (VInt64 n))
    (Hlist : forall l, Forall P l -> P (VList l))
    (Hdict : forall d, Forall (fun e => P e.2) d -> P (VDict d))
    (Hother : forall ty, P (VOther ty)) :
  forall v, P v.
Proof.
  fix IH 1. intros [s|n|n|l|d|ty].
  - apply Hstring.
  - apply Hint.
  - apply Hint64.
  - apply Hlist. induction l as [|x l IHl]; constructor; [apply IH | exact IHl].
  - apply Hdict. induction d as [|[k x] d IHd]; constructor; [apply IH | exact IHd].
  - apply Hother.
Qed.

Section AnyWriter.
Context {W : Type} `{Writer W}.

Lemma writeBencodedValue_VList (l : list value) (writer : W) :
  writeBencodedValue (VList l) writer =
  (w ← Write writer "l"; w ← foldl writeItem (Ok w) l; Write w "e").
Proof. reflexivity. Qed.

Lemma writeBencodedValue_VDict (d : list (string * value)) (writer : W) :
  writeBencodedValue (VDict d) writer = writeBencodedDict d writer.
Proof. reflexivity. Qed.

Lemma writeDictEntries_fold (entries : list (string * (W -> result W)))
    (writer : W) :
  writeDictEntries entries writer =
  (w ← Write writer "d";
   w ← foldl (writeEntry entries) (Ok w) (sortStrings (keys entries));
   Write w "e").
Proof. reflexivity. Qed.

Lemma index_fmap {A B} (f : A -> B) (d : list (string * A)) (k : string) :
  index (prod_map id f <$> d) k = f <$> index d k.
Proof.
  induction d as [|[k' x] d IHd]; [reflexivity|]. simpl.
  destruct (String.eqb k' k); [reflexivity | exact IHd].
Qed.

Lemma keys_fmap {A B} (f : A -> B) (d : list (string * A)) :
  keys (prod_map id f <$> d) = keys d.
Proof.
  unfold keys. induction d as [|[k' x] d IHd]; [reflexivity|].
  rewrite !fmap_cons. simpl. f_equal. exact IHd.
Qed.

End AnyWriter.

(** *** Dictionaries as entry lists *)

Lemma index_None {A} (d : list (string * A)) (k : string) :
  k ∉ keys d -> index d k = None.
Proof.
  unfold keys. induction d as [|[k' x] d IHd]; intros Hk; [reflexivity|].
  rewrite fmap_cons, not_elem_of_cons in Hk. destruct Hk as [Hne Hk]. simpl in *.
  destruct (String.eqb_spec k' k) as [->|_]; [congruence | auto].
Qed.

Lemma index_Some_elem {A} (d : list (string * A)) (k : string) (x : A) :
  index d k = Some x -> (k, x) ∈ d.
Proof.
  induction d as [|[k' x'] d IHd]; simpl; [discriminate|].
  destruct (String.eqb_spec k' k) as [->|_].
  - intros [= ->]. left.
  - intros Hi. right. auto.
Qed.

Lemma index_elem_NoDup {A} (d : list (string * A)) (k : string) (x : A) :
  NoDup (keys d) -> (k, x) ∈ d -> index d k = Some x.
Proof.
  unfold keys. induction d as [|[k' x'] d IHd]; intros Hnd Hin.
  - inversion Hin.
  - rewrite fmap_cons in Hnd. apply NoDup_cons in Hnd as [Hk' Hnd]. simpl in *.
    apply elem_of_cons in Hin as [[= -> ->] | Hin].
    + now rewrite String.eqb_refl.
    + destruct (String.eqb_spec k' k) as [->|_]; [|auto].
      exfalso. apply Hk'. apply list_elem_of_fmap. exists (k, x). auto.
Qed.

Lemma index_is_Some {A} (d : list (string * A)) (k : string) :
  k ∈ keys d -> is_Some (index d k).
Proof.
  destruct (index d k) eqn:E; [eauto|]. intros Hin. exfalso.
  unfold keys in Hin. induction d as [|[k' x'] d IHd].
  - inversion Hin.
  - simpl in E. rewrite fmap_cons in Hin. simpl in Hin.
    destruct (String.eqb_spec k' k) as [->|Hne]; [discriminate|].
    apply elem_of_cons in Hin as [->|Hin]; [congruence | auto].
Qed.

Lemma entriesAt_keys {A} (d : list (string * A)) :
  NoDup (keys d) -> entriesAt d (keys d) = d.
Proof.
  unfold entriesAt, keys. induction d as [|[k x] d IHd]; intros Hnd.
  - reflexivity.
  - rewrite fmap_cons in *. apply NoDup_cons in Hnd as [Hk Hnd].
    cbn [fst omap list_omap]. simpl index at 1. rewrite String.eqb_refl.
    cbn [fmap option_fmap option_map]. f_equal.
    rewrite <- (IHd Hnd) at 2. apply list_omap_ext.
    apply Forall2_same_length_lookup. split; [reflexivity|].
    intros i k1 k2 H1 H2. assert (k1 = k2) as <- by congruence.
    simpl. destruct (String.eqb_spec k k1) as [->|_]; [|reflexivity].
    exfalso. apply Hk. eapply list_elem_of_lookup_2; eauto.
Qed.

Lemma entriesAt_Permutation {A} (d : list (string * A)) (ks : list string) :
  NoDup (keys d) -> ks ≡ₚ keys d -> entriesAt d ks ≡ₚ d.
Proof.
  intros Hnd Hp. rewrite <- (entriesAt_keys d Hnd) at 2.
  unfold entriesAt. now rewrite Hp.
Qed.

Lemma keys_entriesAt {A} (d : list (string * A)) (ks : list string) :
  (forall k, k ∈ ks -> k ∈ keys d) -> keys (entriesAt d ks) = ks.
Proof.
  unfold entriesAt. induction ks as [|k ks IHks]; intros Hin; [reflexivity|].
  destruct (index_is_Some d k) as [x Hx]; [apply Hin; left|].
  cbn [omap list_omap]. rewrite Hx. cbn [fmap option_fmap option_map].
  unfold keys in *. rewrite fmap_cons. simpl. f_equal. apply IHks.
  intros k' Hk'. apply Hin. now right.
Qed.

#[local] Instance keyLe_trans {A} : Transitive (@keyLe A).
Proof. intros e1 e2 e3. unfold keyLe. apply transitivity. Qed.

#[local] Instance keyLe_total {A} : Total (@keyLe A).
Proof. intros e1 e2. unfold keyLe. apply total. apply _. Qed.

Lemma StronglySorted_keys {A} (l : list (string * A)) :
  StronglySorted keyLe l <-> StronglySorted String.le (keys l).
Proof.
  unfold keys. induction l as [|e l IHl].
  - split; constructor.
  - rewrite fmap_cons, !StronglySorted_cons, IHl, Forall_fmap. reflexivity.
Qed.

Lemma sortStrings_sorted (l : list string) :
  StronglySorted String.le (sortStrings l).
Proof. apply StronglySorted_merge_sort; apply _. Qed.

Lemma sortStrings_Permutation (l : list string) : sortStrings l ≡ₚ l.
Proof. apply merge_sort_Permutation. Qed.

(** Sorting the entries by key and visiting the sorted keys meet the same
    entries in the same order. *)
Lemma sortEntries_entriesAt {A} (d : list (string * A)) :
  NoDup (keys d) -> sortEntries d = entriesAt d (sortStrings (keys d)).
Proof.
  intros Hnd.
  assert (Hperm : entriesAt d (sortStrings (keys d)) ≡ₚ d)
    by (apply entriesAt_Permutation; [exact Hnd | apply sortStrings_Permutation]).
  apply StronglySorted_unique_strong with (R := keyLe).
  - intros [k1 x1] [k2 x2] H1 H2 Hle1 Hle2. unfold keyLe in *. simpl in *.
    assert (k1 = k2) as <- by (apply (anti_symm String.le); assumption).
    f_equal. unfold sortEntries in H1. rewrite merge_sort_Permutation in H1.
    rewrite Hperm in H2.
    apply (index_elem_NoDup _ _ _ Hnd) in H1, H2. congruence.
  - apply StronglySorted_merge_sort; apply _.
  - apply StronglySorted_keys. rewrite keys_entriesAt.
    + apply sortStrings_sorted.
    + intros k Hk. now rewrite sortStrings_Permutation in Hk.
  - unfold sortEntries. now rewrite merge_sort_Permutation, Hperm.
Qed.

(** *** The encoder writes the canonical encoding *)

Lemma concatBytes_app (l1 l2 : list string) :
  concatBytes (l1 ++ l2)%list = concatBytes l1 ++ concatBytes l2.
Proof.
  unfold concatBytes. induction l1 as [|x l1 IHl]; [reflexivity|].
  simpl. now rewrite IHl, append_assoc.
Qed.

Lemma encode_canonical_VDict (d : list (string * value)) :
  encode_canonical (VDict d) =
  "d" ++ concatBytes
           (map entryBytes (sortEntries (prod_map id encode_canonical <$> d)))
      ++ "e".
Proof. reflexivity. Qed.

Lemma supported_VDict (d : list (string * value)) :
  supported (VDict d) = forallb (fun e => supported e.2) d.
Proof. reflexivity. Qed.

Lemma wf_value_VList (l : list value) :
  wf_value (VList l) <-> Forall wf_value l.
Proof.
  simpl. induction l as [|x l IHl].
  - split; constructor.
  - rewrite Forall_cons, IHl. reflexivity.
Qed.

Lemma wf_value_VDict (d : list (string * value)) :
  wf_value (VDict d) <-> NoDup (keys d) /\ Forall (fun e => wf_value e.2) d.
Proof.
  simpl. apply and_iff_compat_l. induction d as [|[k x] d IHd].
  - split; constructor.
  - rewrite Forall_cons, IHd. reflexivity.
Qed.

Lemma Write_buffer (b : Buffer) (p : string) : Write b p = Ok (b ++ p).
Proof. reflexivity. Qed.

Lemma bind_Ok {A B} (a : A) (f : A -> result B) : (Ok a ≫= f) = f a.
Proof. reflexivity. Qed.

Ltac write_steps := repeat (rewrite Write_buffer || rewrite bind_Ok).

(** Writing to a buffer appends the canonical encoding. *)
Lemma writeBencodedValue_canonical (v : value) :
  wf_value v -> supported v = true ->
  forall w : Buffer, writeBencodedValue v w = Ok (w ++ encode_canonical v).
Proof.
  induction v as [s|n|n|l IHl|d IHd|ty] using value_ind'; intros Hwf Hsup w.
  - cbn [writeBencodedValue encode_canonical]. write_steps.
    unfold bstring. now rewrite !append_assoc.
  - cbn [writeBencodedValue encode_canonical]. write_steps.
    now rewrite !append_assoc.
  - cbn [writeBencodedValue encode_canonical]. unfold FormatInt10. write_steps.
    now rewrite !append_assoc.
  - rewrite writeBencodedValue_VList. write_steps.
    apply wf_value_VList in Hwf. simpl in Hsup.
    assert (Hfold : forall w0 : Buffer,
              foldl writeItem (Ok w0) l =
              Ok (w0 ++ concatBytes (map encode_canonical l))).
    { clear w. induction l as [|x l IHl']; intros w0.
      - simpl. now rewrite append_nil_r.
      - apply Forall_cons in IHl as [IHx IHl], Hwf as [Hwx Hwf].
        simpl in Hsup. apply andb_true_iff in Hsup as [Hsx Hsup].
        cbn [foldl]. unfold writeItem at 2. write_steps.
        rewrite (IHx Hwx Hsx), (IHl' IHl Hwf Hsup).
        cbn [map]. unfold concatBytes. cbn [foldr].
        now rewrite append_assoc. }
    rewrite Hfold. write_steps.
    cbn [encode_canonical]. now rewrite !append_assoc.
  - rewrite writeBencodedValue_VDict. unfold writeBencodedDict.
    rewrite writeDictEntries_fold, keys_fmap. write_steps.
    apply wf_value_VDict in Hwf as [Hnd Hwf].
    rewrite supported_VDict in Hsup.
    rewrite encode_canonical_VDict, sortEntries_entriesAt
      by (now rewrite keys_fmap).
    rewrite keys_fmap.
    assert (Hsub : forall k, k ∈ sortStrings (keys d) -> k ∈ keys d)
      by (intros k Hk; now rewrite sortStrings_Permutation in Hk).
    revert Hsub. generalize (sortStrings (keys d)) as ks. intros ks Hsub.
    assert (Hfold : forall w0 : Buffer,
              foldl (writeEntry (prod_map id writeBencodedValue <$> d)) (Ok w0) ks =
              Ok (w0 ++ concatBytes
                          (map entryBytes
                             (entriesAt (prod_map id encode_canonical <$> d) ks)))).
    { clear w. induction ks as [|k ks IHks]; intros w0.
      - simpl. now rewrite append_nil_r.
      - cbn [foldl]. unfold writeEntry at 2. write_steps.
        destruct (index_is_Some d k) as [x Hx]; [apply Hsub; left|].
        rewrite index_fmap, Hx. cbn [fmap option_fmap option_map].
        pose proof (index_Some_elem _ _ _ Hx) as Hin.
        rewrite Forall_forall in IHd, Hwf. rewrite forallb_forall in Hsup.
        rewrite (IHd _ Hin) by
          (first [ apply (Hwf _ Hin)
                 | apply (Hsup (k, x)); apply list_elem_of_In; exact Hin ]).
        rewrite IHks by (intros k' Hk'; apply Hsub; now right).
        unfold entriesAt. cbn [omap list_omap]. rewrite index_fmap, Hx.
        cbn [fmap option_fmap option_map map]. unfold concatBytes.
        cbn [foldr]. unfold entryBytes at 2, bstring. cbn [fst snd].
        now rewrite !append_assoc. }
    rewrite Hfold. write_steps.
    now rewrite !append_assoc.
  - discriminate.
Qed.

(** *** The encoding does not depend on the iteration order *)

Lemma index_keys {A} (d : list (string * A)) (k : string) :
  k ∈ keys d <-> is_Some (index d k).
Proof.
  split; [apply index_is_Some|]. intros [x Hx].
  apply index_Some_elem in Hx. unfold keys. apply list_elem_of_fmap.
  now exists (k, x).
Qed.

Lemma index_Permutation {A} (d1 d2 : list (string * A)) (k : string) :
  NoDup (keys d1) -> d1 ≡ₚ d2 -> index d1 k = index d2 k.
Proof.
  intros Hnd Hp.
  assert (Hnd2 : NoDup (keys d2)) by (unfold keys in *; now rewrite <- Hp).
  destruct (index d1 k) as [x|] eqn:E1.
  - apply index_Some_elem in E1. rewrite Hp in E1.
    symmetry. now apply index_elem_NoDup.
  - destruct (index d2 k) as [y|] eqn:E2; [|reflexivity].
    apply index_Some_elem in E2. rewrite <- Hp in E2.
    apply (index_elem_NoDup _ _ _ Hnd) in E2. congruence.
Qed.

Section AnyWriter.
Context {W : Type} `{Writer W}.

Lemma writeDictEntries_ext (e1 e2 : list (string * (W -> result W))) :
  NoDup (keys e1) -> NoDup (keys e2) ->
  (forall k, option_Forall2 (fun f g => forall w, f w = g w)
               (index e1 k) (index e2 k)) ->
  forall w, writeDictEntries e1 w = writeDictEntries e2 w.
Proof.
  intros Hnd1 Hnd2 Hidx w. rewrite !writeDictEntries_fold.
  assert (Hks : sortStrings (keys e1) = sortStrings (keys e2)).
  { apply (StronglySorted_unique String.le); try apply sortStrings_sorted.
    rewrite !sortStrings_Permutation. apply NoDup_Permutation; try assumption.
    intros k. rewrite !index_keys. specialize (Hidx k).
    destruct Hidx; split; intros [? ?]; eauto; discriminate. }
  rewrite <- Hks. destruct (Write w "d") as [w1|e]; [|reflexivity].
  cbn [mbind result_bind]. f_equal.
  generalize (Ok w1) as acc. generalize (sortStrings (keys e1)) as ks.
  induction ks as [|k ks IHks]; intros acc; [reflexivity|].
  cbn [foldl]. rewrite IHks. f_equal.
  unfold writeEntry. destruct acc as [w0|e]; [|reflexivity].
  cbn [mbind result_bind].
  destruct (Write w0 (Itoa (len k))) as [w2|e]; [|reflexivity].
  cbn [mbind result_bind].
  destruct (Write w2 ":") as [w3|e]; [|reflexivity].
  cbn [mbind result_bind].
  destruct (Write w3 k) as [w4|e]; [|reflexivity].
  cbn [mbind result_bind].
  destruct (Hidx k) as [f g Hfg|]; [apply Hfg | reflexivity].
Qed.

Lemma same_value_write (v1 : value) :
  forall v2, same_value v1 v2 ->
  forall w : W, writeBencodedValue v1 w = writeBencodedValue v2 w.
Proof.
  induction v1 as [s|n|n|l IHl|d IHd|ty] using value_ind';
    intros v2 Hs w; inversion Hs; subst; try reflexivity.
  - rewrite !writeBencodedValue_VList.
    destruct (Write w "l") as [w1|e]; [|reflexivity].
    cbn [mbind result_bind]. f_equal.
    generalize (Ok w1) as acc.
    match goal with Hf : Forall2 same_value l _ |- _ =>
      induction Hf as [|x y l l' Hxy Hll IHf]; intros acc; [reflexivity|]
    end.
    apply Forall_cons in IHl as [IHx IHl]. cbn [foldl].
    rewrite (IHf IHl (same_list _ _ Hll)). f_equal.
    unfold writeItem. destruct acc as [w0|e]; [|reflexivity].
    cbn [mbind result_bind]. now apply IHx.
  - rewrite !writeBencodedValue_VDict. unfold writeBencodedDict.
    apply writeDictEntries_ext; rewrite ?keys_fmap; try assumption.
    intros k. rewrite !index_fmap.
    match goal with Hk : forall k, option_Forall2 _ _ _ |- _ =>
      specialize (Hk k); destruct (index d k) as [x|] eqn:Ex;
      inversion Hk as [x' y Hxy|]; subst
    end; constructor.
    intros w'. apply index_Some_elem in Ex.
    rewrite Forall_forall in IHd. now apply (IHd _ Ex).
Qed.

End AnyWriter.

Lemma same_value_refl (v : value) : wf_value v -> same_value v v.
Proof.
  induction v as [s|n|n|l IHl|d IHd|ty] using value_ind'; intros Hwf;
    try constructor.
  - apply wf_value_VList in Hwf. induction l as [|x l IHl']; constructor.
    + apply Forall_cons in IHl as [IHx _], Hwf as [Hx _]. auto.
    + apply Forall_cons in IHl as [_ IHl], Hwf as [_ Hwf]. auto.
  - now apply wf_value_VDict in Hwf as [Hnd _].
  - now apply wf_value_VDict in Hwf as [Hnd _].
  - apply wf_value_VDict in Hwf as [Hnd Hwf]. intros k.
    destruct (index d k) as [x|] eqn:Ex; constructor.
    apply index_Some_elem in Ex. rewrite Forall_forall in IHd, Hwf.
    apply (IHd _ Ex). apply (Hwf _ Ex).
Qed.

(** Two iteration orders of one map are the same value. *)
Lemma same_value_Permutation (d1 d2 : list (string * value)) :
  wf_value (VDict d1) -> d1 ≡ₚ d2 -> same_value (VDict d1) (VDict d2).
Proof.
  intros Hwf Hp. pose proof (same_value_refl _ Hwf) as Hs.
  inversion Hs as [| | | | |? ? Hnd _ Hk]; subst.
  constructor; [exact Hnd | unfold keys in *; now rewrite <- Hp |].
  intros k. rewrite <- (index_Permutation d1 d2 k Hnd Hp). apply Hk.
Qed.

End BencodeFacts.
(** ** Decimal numerals *)

Module NumeralFacts.

Lemma to_int_not_nil (n : Z) :
  Z.to_int n <> Decimal.Pos Decimal.Nil /\
  Z.to_int n <> Decimal.Neg Decimal.Nil.
Proof.
  destruct n as [|p|p]; simpl; split; try discriminate;
    intros [= Hp]; now apply (Unsigned.to_uint_nonnil p).
Qed.

(** The numeral [Itoa] prints denotes the integer. *)
Lemma parseInt_Itoa (n : Z) : parseInt (Itoa n) = Some n.
Proof.
  unfold parseInt, Itoa. destruct (to_int_not_nil n) as [H1 H2].
  rewrite NilZero.isi by assumption. now rewrite DecimalZ.of_to.
Qed.

Lemma to_uint_no_leading_zero (p : positive) (d : Decimal.uint) :
  Pos.to_uint p <> Decimal.D0 d.
Proof.
  intros E.
  assert (Hn : Decimal.unorm (Pos.to_uint p) = Pos.to_uint p).
  { rewrite <- (Unsigned.to_of (Pos.to_uint p)), Unsigned.of_to. reflexivity. }
  rewrite E, DecimalFacts.unorm_D0 in Hn.
  destruct d as [| | | | | | | | | |].
  1: { apply (Unsigned.to_uint_nonzero p). exact E. }
  all: match type of Hn with Decimal.unorm ?u = _ =>
         assert (Hl : (Decimal.nb_digits (Decimal.unorm u) <= Decimal.nb_digits u)%nat)
           by (apply DecimalFacts.nb_digits_unorm; discriminate)
       end; rewrite Hn in Hl; simpl in Hl; lia.
Qed.

Lemma allDigits_string_of_uint (d : Decimal.uint) :
  allDigits (NilEmpty.string_of_uint d) = true.
Proof. induction d; simpl; auto. Qed.

Lemma naturalNumeral_to_uint (p : positive) :
  naturalNumeral (NilZero.string_of_uint (Pos.to_uint p)) = true /\
  (exists c s, NilZero.string_of_uint (Pos.to_uint p) = String c s /\
               Ascii.eqb c "-" = false /\ Ascii.eqb c "0" = false).
Proof.
  pose proof (to_uint_no_leading_zero p) as H0.
  pose proof (Unsigned.to_uint_nonnil p) as Hnil.
  destruct (Pos.to_uint p) as [|d|d|d|d|d|d|d|d|d|d]; try congruence;
    try (exfalso; now apply (H0 d));
    (split; [ unfold naturalNumeral, NilZero.string_of_uint;
              cbn [NilEmpty.string_of_uint allDigits];
              rewrite allDigits_string_of_uint; reflexivity
            | eexists _, _; split; [reflexivity | split; reflexivity] ]).
Qed.

(** The numeral [Itoa] prints has no padding. *)
Lemma canonicalNumeral_Itoa (n : Z) : canonicalNumeral (Itoa n) = true.
Proof.
  unfold Itoa. destruct n as [|p|p]; [reflexivity| |].
  - cbn [Z.to_int NilZero.string_of_int].
    destruct (naturalNumeral_to_uint p) as [Hnat (c & s & E & Hm & _)].
    rewrite E in *. unfold canonicalNumeral. now rewrite Hm.
  - cbn [Z.to_int NilZero.string_of_int].
    destruct (naturalNumeral_to_uint p) as [Hnat (c & s & E & _ & Hz)].
    unfold canonicalNumeral. rewrite Ascii.eqb_refl, Hnat. rewrite E.
    cbn [String.eqb andb negb]. now rewrite Hz.
Qed.

End NumeralFacts.

Import NumeralFacts BencodeFacts.

(** ** The canonical encoder and the info-hash *)

Module BencodeClaims.

Lemma entriesAt_fmap {A B} (f : A -> B) (d : list (string * A))
    (ks : list string) :
  entriesAt (prod_map id f <$> d) ks = prod_map id f <$> entriesAt d ks.
Proof.
  unfold entriesAt. induction ks as [|k ks IHks]; [reflexivity|].
  cbn [omap list_omap]. rewrite index_fmap.
  destruct (index d k) as [x|]; cbn [fmap option_fmap option_map];
    [rewrite fmap_cons; f_equal|]; exact IHks.
Qed.

Lemma wf_value_Permutation (d d' : list (string * value)) :
  wf_value (VDict d) -> d ≡ₚ d' -> wf_value (VDict d').
Proof.
  rewrite !wf_value_VDict. intros [Hnd Hall] Hp. unfold keys in *.
  now rewrite <- Hp.
Qed.

Lemma lowercaseHex_EncodeToString (b : string) :
  lowercaseHex (EncodeToString b) = true.
Proof.
  induction b as [|c b IHb]; [reflexivity|].
  cbn [EncodeToString lowercaseHex]. rewrite IHb.
  destruct c as [[] [] [] [] [] [] [] []]; reflexivity.
Qed.

Lemma length_EncodeToString (b : string) :
  String.length (EncodeToString b) = (2 * String.length b)%nat.
Proof.
  induction b as [|c b IHb]; [reflexivity|].
  cbn [EncodeToString String.length]. rewrite IHb. lia.
Qed.

(** C1.  The encoder writes a dictionary as [d], then its entries in
    ascending byte order of their keys, each key as a byte string followed
    by the canonical encoding of its value, then [e]; the bytes written are
    the same for every iteration order of the map, at any depth; a string
    is written as its length, a colon and its bytes; an integer as [i], its
    decimal numeral without padding, and [e]; and the dictionary
    [{"b": 2, "a": "x"}] is written as [d1:a1:x1:bi2ee]. *)
Theorem writeBencodedDict_sorted_canonical
    (dict : list (string * value)) (w : Buffer) :
  wf_value (VDict dict) -> supported (VDict dict) = true ->
  (exists entries : list (string * value),
      entries ≡ₚ dict /\
      StronglySorted String.le (keys entries) /\
      NoDup (keys entries) /\
      writeBencodedDict dict w =
        Ok (w ++ "d"
              ++ concatBytes
                   (map (fun e => bstring e.1 ++ encode_canonical e.2) entries)
              ++ "e")) /\
  (forall dict', dict ≡ₚ dict' ->
     writeBencodedDict dict' w = writeBencodedDict dict w) /\
  (forall (v1 v2 : value) (w' : Buffer), same_value v1 v2 ->
     writeBencodedValue v1 w' = writeBencodedValue v2 w') /\
  (forall (s : string) (w' : Buffer),
     writeBencodedValue (VString s) w' = Ok (w' ++ Itoa (len s) ++ ":" ++ s)) /\
  (forall (n : Z) (w' : Buffer),
     writeBencodedValue (VInt n) w' = Ok (w' ++ "i" ++ Itoa n ++ "e") /\
     writeBencodedValue (VInt64 n) w' = Ok (w' ++ "i" ++ Itoa n ++ "e") /\
     parseInt (Itoa n) = Some n /\
     canonicalNumeral (Itoa n) = true) /\
  writeBencodedDict [("b", VInt 2); ("a", VString "x")] ("" : Buffer)
    = Ok "d1:a1:x1:bi2ee".
Proof.
  intros Hwf Hsup. repeat split.
  - pose proof (proj1 (wf_value_VDict dict) Hwf) as [Hnd _].
    assert (Hperm : entriesAt dict (sortStrings (keys dict)) ≡ₚ dict)
      by (apply entriesAt_Permutation;
          [exact Hnd | apply sortStrings_Permutation]).
    exists (entriesAt dict (sortStrings (keys dict))).
    assert (Hkeys : keys (entriesAt dict (sortStrings (keys dict)))
                    = sortStrings (keys dict)).
    { apply keys_entriesAt. intros k Hk.
      now rewrite sortStrings_Permutation in Hk. }
    split; [exact Hperm|]. rewrite Hkeys.
    split; [apply sortStrings_sorted|].
    split; [now rewrite sortStrings_Permutation|].
    rewrite <- writeBencodedValue_VDict.
    rewrite (writeBencodedValue_canonical _ Hwf Hsup).
    rewrite encode_canonical_VDict, sortEntries_entriesAt
      by (now rewrite keys_fmap).
    rewrite keys_fmap, entriesAt_fmap, ?append_assoc.
    do 4 f_equal. rewrite <- list_fmap_compose. reflexivity.
  - intros dict' Hp. rewrite <- !writeBencodedValue_VDict. symmetry.
    apply same_value_write. now apply same_value_Permutation.
  - intros v1 v2 w' Hs. now apply same_value_write.
  - intros s w'. cbn [writeBencodedValue]. write_steps.
    now rewrite !append_assoc.
  - cbn [writeBencodedValue]. write_steps. now rewrite !append_assoc.
  - cbn [writeBencodedValue]. unfold FormatInt10. write_steps.
    now rewrite !append_assoc.
  - apply parseInt_Itoa.
  - apply canonicalNumeral_Itoa.
Qed.

Lemma writeBencodedDict_sorted_canonical_witness :
  exists entries : list (string * value),
    entries ≡ₚ [("b", VInt 2); ("a", VString "x")] /\
    StronglySorted String.le (keys entries) /\
    NoDup (keys entries) /\
    writeBencodedDict [("b", VInt 2); ("a", VString "x")] ("" : Buffer) =
      Ok ("" ++ "d"
            ++ concatBytes
                 (map (fun e => bstring e.1 ++ encode_canonical e.2) entries)
            ++ "e").
Proof.
  refine (proj1 (writeBencodedDict_sorted_canonical
                   [("b", VInt 2); ("a", VString "x")] "" _ _)).
  - simpl. split; [|tauto].
    apply NoDup_cons. split; [|apply NoDup_singleton].
    intros Hin. apply list_elem_of_singleton in Hin. discriminate.
  - reflexivity.
Defined.

Lemma length_bigEndianBytes (n : nat) (x : Z) :
  length (sha1.bigEndianBytes n x) = n.
Proof. induction n as [|n IHn]; [reflexivity|]. cbn. now rewrite IHn. Qed.

Lemma length_stringOf (l : list Z) :
  String.length (sha1.stringOf l) = length l.
Proof.
  unfold sha1.stringOf. induction l as [|x l IHl]; [reflexivity|].
  rewrite fmap_cons. cbn. now rewrite IHl.
Qed.

(** A SHA-1 digest has 20 bytes. *)
Lemma length_Sum (data : string) : String.length (sha1.Sum data) = 20%nat.
Proof.
  unfold sha1.Sum.
  destruct (sha1.blocks _ _ _) as [[[[h0 h1] h2] h3] h4].
  rewrite length_stringOf, !length_app, !length_bigEndianBytes. reflexivity.
Qed.

(** C2.  For a metadata dictionary the encoder supports,
    [calculateInfoHash] returns the hexadecimal form of the SHA-1 digest of
    the canonical encoding of the dictionary: 40 lowercase hexadecimal
    digits, the same whatever the order in which the map is iterated. *)
Theorem calculateInfoHash_sha1_of_canonical (info : list (string * value)) :
  wf_value (VDict info) -> supported (VDict info) = true ->
  calculateInfoHash info
    = Ok (EncodeToString (sha1.Sum (encode_canonical (VDict info)))) /\
  lowercaseHex (EncodeToString (sha1.Sum (encode_canonical (VDict info))))
    = true /\
  String.length (EncodeToString (sha1.Sum (encode_canonical (VDict info))))
    = 40%nat /\
  (forall info', info ≡ₚ info' ->
     calculateInfoHash info' = calculateInfoHash info).
Proof.
  intros Hwf Hsup. repeat split.
  - unfold calculateInfoHash. rewrite <- writeBencodedValue_VDict.
    rewrite (writeBencodedValue_canonical _ Hwf Hsup). reflexivity.
  - apply lowercaseHex_EncodeToString.
  - now rewrite length_EncodeToString, length_Sum.
  - intros info' Hp. unfold calculateInfoHash.
    rewrite <- !writeBencodedValue_VDict.
    rewrite (same_value_write (VDict info') (VDict info)); [reflexivity|].
    apply same_value_Permutation; [|now symmetry].
    now apply (wf_value_Permutation info).
Qed.

Lemma calculateInfoHash_sha1_of_canonical_witness :
  calculateInfoHash
    [("name", VString "hello.txt"); ("length", VInt 12345);
     ("pieces", VString ""); ("piece length", VInt 16384)]
  = Ok (EncodeToString
          (sha1.Sum
             (encode_canonical
                (VDict [("name", VString "hello.txt"); ("length", VInt 12345);
                        ("pieces", VString "");
                        ("piece length", VInt 16384)])))).
Proof.
  refine (proj1 (calculateInfoHash_sha1_of_canonical
                   [("name", VString "hello.txt"); ("length", VInt 12345);
                    ("pieces", VString ""); ("piece length", VInt 16384)] _ _)).
  - simpl. split; [|tauto].
    apply (bool_decide_unpack _). vm_compute. exact I.
  - reflexivity.
Defined.

(** Scenario 2 of the specification: the dictionary, its canonical bytes
    and its info-hash. *)
Example calculateInfoHash_hello :
  encode_canonical
    (VDict [("name", VString "hello.txt"); ("length", VInt 12345);
            ("pieces", VString ""); ("piece length", VInt 16384)])
  = "d6:lengthi12345e4:name9:hello.txt12:piece lengthi16384e6:pieces0:e" /\
  calculateInfoHash
    [("name", VString "hello.txt"); ("length", VInt 12345);
     ("pieces", VString ""); ("piece length", VInt 16384)]
  = Ok "755ded7512e6c06beda307bac00efb9e1c50d0fe".
Proof. split; vm_compute; reflexivity. Qed.

(** The digests of FIPS 180's examples. *)
Example sha1_abc :
  EncodeToString (sha1.Sum "abc") = "a9993e364706816aba3e25717850c26c9cd0d89d".
Proof. vm_compute. reflexivity. Qed.

Example sha1_empty :
  EncodeToString (sha1.Sum "") = "da39a3ee5e6b4b0d3255bfef95601890afd80709".
Proof. vm_compute. reflexivity. Qed.

Example sha1_two_blocks :
  EncodeToString
    (sha1.Sum "abcdbcdecdefdefgefghfghighijhijkijkljklmklmnlmnomnopnopq")
  = "84983e441c3bd26ebaae4aa1f95129e5e54670f1".
Proof. vm_compute. reflexivity. Qed.

End BencodeClaims.

(** ** The keyword filter *)

Module FilterClaims.

Lemma existsb_Contains (l : list string) (s : string) :
  existsb (fun x => Contains s x) l = true <-> exists x, x ∈ l /\ occurs x s.
Proof.
  rewrite existsb_exists. split; intros (x & Hin & Hx); exists x.
  - split; [now apply list_elem_of_In | now apply Contains_spec].
  - split; [now apply list_elem_of_In | now apply Contains_spec].
Qed.

Lemma existsb_Contains_false (l : list string) (s : string) :
  existsb (fun x => Contains s x) l = false <->
  forall x, x ∈ l -> ~ occurs x s.
Proof.
  rewrite <- not_true_iff_false, existsb_Contains. split.
  - intros Hn x Hin Ho. apply Hn. eauto.
  - intros Hn (x & Hin & Ho). eapply Hn; eauto.
Qed.

Lemma find_Contains_Some (l : list string) (s kw : string) :
  find (fun x => Contains s x) l = Some kw <-> firstOccurring l s kw.
Proof.
  unfold firstOccurring. induction l as [|x l IHl]; simpl.
  - split; [discriminate | intros (i & Hi & _); discriminate].
  - destruct (Contains s x) eqn:Ex.
    + split.
      * intros [= ->]. exists 0%nat. split; [reflexivity|].
        split; [now apply Contains_spec | intros; lia].
      * intros ([|i] & Hi & Ho & Hfirst).
        -- now inversion Hi.
        -- exfalso. apply (Hfirst 0%nat x); [lia | reflexivity |].
           now apply Contains_spec.
    + rewrite IHl. split.
      * intros (i & Hi & Ho & Hfirst). exists (S i).
        split; [exact Hi|]. split; [exact Ho|].
        intros [|j] k Hj Hk.
        -- injection Hk as <-. rewrite <- Contains_spec. congruence.
        -- apply (Hfirst j); [lia | exact Hk].
      * intros ([|i] & Hi & Ho & Hfirst).
        -- injection Hi as ->. apply Contains_spec in Ho. congruence.
        -- exists i. split; [exact Hi|]. split; [exact Ho|].
           intros j k Hj Hk. apply (Hfirst (S j)); [lia | exact Hk].
Qed.

Lemma find_Contains_None (l : list string) (s : string) :
  find (fun x => Contains s x) l = None <-> forall x, x ∈ l -> ~ occurs x s.
Proof.
  induction l as [|x l IHl]; simpl.
  - split; [intros _ x Hx; inversion Hx | reflexivity].
  - destruct (Contains s x) eqn:Ex.
    + split; [discriminate|]. intros Hn. exfalso.
      apply (Hn x); [left | now apply Contains_spec].
    + rewrite IHl. split.
      * intros Hn y Hy. apply elem_of_cons in Hy as [->|Hy]; [|auto].
        rewrite <- Contains_spec. congruence.
      * intros Hn y Hy. apply Hn. now right.
Qed.

Section Lowercase.
Variable ToLower : string -> string.

Local Abbreviation match_iff_keyword_and_no_blacklist :=
  (Filter.match_iff_keyword_and_no_blacklist ToLower).

Lemma MatchContent_empty (kf : KeywordFilter) :
  MatchContent ToLower kf "" = (false, "").
Proof. reflexivity. Qed.

Lemma MatchContent_true (kf : KeywordFilter) (s kw : string) :
  s <> "" ->
  MatchContent ToLower kf s = (true, kw) <->
  ((forall b, b ∈ blacklist kf -> ~ occurs b (ToLower s)) /\
   firstOccurring (keywords kf) (ToLower s) kw).
Proof.
  intros Hne. unfold MatchContent.
  destruct (String.eqb_spec s "") as [->|_]; [congruence|].
  destruct (existsb _ (blacklist kf)) eqn:Eb.
  - split; [discriminate|]. intros [Hn _]. exfalso.
    apply existsb_Contains in Eb as (b & Hin & Ho). eapply Hn; eauto.
  - pose proof (proj1 (existsb_Contains_false _ _) Eb) as Hbl. clear Eb.
    destruct (find _ (keywords kf)) as [k|] eqn:Ef.
    + apply find_Contains_Some in Ef. split.
      * intros [= <-]. auto.
      * intros [_ Hfirst]. apply find_Contains_Some in Ef, Hfirst. congruence.
    + split; [discriminate|]. intros [_ Hfirst].
      apply find_Contains_Some in Hfirst. congruence.
Qed.

Lemma MatchContent_cases (kf : KeywordFilter) (s : string) :
  MatchContent ToLower kf s = (false, "") \/
  exists kw, MatchContent ToLower kf s = (true, kw).
Proof.
  unfold MatchContent. destruct (String.eqb s ""); [now left|].
  destruct (existsb _ (blacklist kf)); [now left|].
  destruct (find _ (keywords kf)); eauto.
Qed.

Lemma match_iff_nonempty (kf : KeywordFilter) (s : string) :
  s <> "" -> match_iff_keyword_and_no_blacklist kf s.
Proof.
  intros Hne. unfold Filter.match_iff_keyword_and_no_blacklist. split.
  - intros [kw Hkw]. apply MatchContent_true in Hkw as [Hbl Hfirst]; [|exact Hne].
    split; [|exact Hbl]. destruct Hfirst as (i & Hi & Ho & _).
    exists kw. split; [|exact Ho]. eapply list_elem_of_lookup_2; eauto.
  - intros [(k & Hin & Ho) Hbl].
    destruct (find (fun x => Contains (ToLower s) x) (keywords kf)) as [kw|] eqn:Ef.
    + exists kw. apply MatchContent_true; [exact Hne|].
      split; [exact Hbl | now apply find_Contains_Some].
    + exfalso. rewrite find_Contains_None in Ef. eapply Ef; eauto.
Qed.

(** C3, amended.  For a non-empty input, [MatchContent] returns
    [(true, kw)] exactly when no blacklist entry occurs in the lowered
    input and [kw] is the first keyword, in list order, that occurs in it;
    hence it reports a match exactly when some keyword occurs and no
    blacklist entry does, and it returns [(false, "")] otherwise.  For the
    empty input it returns [(false, "")] whatever the filter holds. *)
Theorem MatchContent_nonempty_spec (kf : KeywordFilter) (s : string) :
  s <> "" ->
  (forall kw, MatchContent ToLower kf s = (true, kw) <->
     ((forall b, b ∈ blacklist kf -> ~ occurs b (ToLower s)) /\
      firstOccurring (keywords kf) (ToLower s) kw)) /\
  match_iff_keyword_and_no_blacklist kf s /\
  (MatchContent ToLower kf s = (false, "") \/
   exists kw, MatchContent ToLower kf s = (true, kw)) /\
  MatchContent ToLower kf "" = (false, "").
Proof.
  intros Hne. split; [intros kw; now apply MatchContent_true|].
  split; [now apply match_iff_nonempty|].
  split; [apply MatchContent_cases | reflexivity].
Qed.

(** The empty input is the only obstacle, and only for a filter that
    holds the empty keyword. *)
Lemma match_iff_without_empty_keyword (kf : KeywordFilter) (s : string) :
  ToLower "" = "" -> "" ∉ keywords kf ->
  match_iff_keyword_and_no_blacklist kf s.
Proof.
  intros Hlow Hno. destruct (String.eqb_spec s "") as [->|Hne].
  - unfold Filter.match_iff_keyword_and_no_blacklist.
    rewrite MatchContent_empty, Hlow. split.
    + intros [kw Hkw]. discriminate.
    + intros [(k & Hin & pre & post & Hk) _]. exfalso. apply Hno.
      destruct pre; [|discriminate]. destruct k; [exact Hin | discriminate].
  - now apply match_iff_nonempty.
Qed.

End Lowercase.

(** C3 as stated fails on the empty input: the empty keyword occurs in it
    and the blacklist is empty, yet no match is reported. *)
Lemma MatchContent_empty_input_counterexample :
  ~ match_iff_keyword_and_no_blacklist ToLowerASCII emptyKeywordFilter "".
Proof.
  unfold match_iff_keyword_and_no_blacklist. intros [_ Hback].
  destruct Hback as [kw Hkw]; [|discriminate].
  split.
  - exists "". split; [left | exists "", ""; reflexivity].
  - intros b Hb. inversion Hb.
Qed.

Lemma MatchContent_nonempty_spec_witness :
  MatchContent ToLowerASCII
    {| keywords := ["movie"; "film"]; blacklist := ["teen"]; categoryMap := ∅ |}
    "Some.FILM.about.a.Movie" = (true, "movie").
Proof.
  apply (proj1 (MatchContent_nonempty_spec ToLowerASCII
           {| keywords := ["movie"; "film"]; blacklist := ["teen"];
              categoryMap := ∅ |}
           "Some.FILM.about.a.Movie" ltac:(discriminate))).
  split.
  - intros b Hb Ho. apply list_elem_of_singleton in Hb as ->.
    apply Contains_spec in Ho. vm_compute in Ho. discriminate.
  - apply find_Contains_Some. reflexivity.
Defined.

(** *** The keyword list holds lowercase entries, each once *)

Lemma containsKeyword_true (kf : KeywordFilter) (keyword : string) :
  containsKeyword kf keyword = true <-> keyword ∈ keywords kf.
Proof.
  unfold containsKeyword. rewrite existsb_exists. split.
  - intros (k & Hin & Hk). apply String.eqb_eq in Hk as <-.
    now apply list_elem_of_In.
  - intros Hin. exists keyword. split; [now apply list_elem_of_In|].
    apply String.eqb_refl.
Qed.

Lemma lowerByte_idem (c : ascii) : lowerByte (lowerByte c) = lowerByte c.
Proof. destruct c as [[] [] [] [] [] [] [] []]; reflexivity. Qed.

Lemma ToLowerASCII_idem (s : string) :
  ToLowerASCII (ToLowerASCII s) = ToLowerASCII s.
Proof.
  induction s as [|c s IHs]; [reflexivity|].
  cbn [ToLowerASCII]. now rewrite lowerByte_idem, IHs.
Qed.

Section Lowercase.
Variable ToLower : string -> string.

(** Lowering a lowered string changes nothing. *)
Hypothesis ToLower_idem : forall s, ToLower (ToLower s) = ToLower s.

Local Abbreviation keywords_ok := (Filter.keywords_ok ToLower).

Lemma keywords_ok_New : keywords_ok NewKeywordFilter.
Proof. split; constructor. Qed.

Lemma keywords_ok_AddKeyword (kf : KeywordFilter) (keyword category : string) :
  keywords_ok kf -> keywords_ok (AddKeyword ToLower kf keyword category).
Proof.
  intros [Hlow Hnd]. unfold AddKeyword.
  destruct (containsKeyword kf (ToLower keyword)) eqn:Ec; cbn [negb].
  - now split.
  - split; cbn [keywords].
    + apply Forall_app. split; [exact Hlow|]. constructor; [|constructor].
      apply ToLower_idem.
    + apply NoDup_app. split; [exact Hnd|]. split; [|apply NoDup_singleton].
      intros k Hk Hk'. apply list_elem_of_singleton in Hk' as ->.
      apply containsKeyword_true in Hk. congruence.
Qed.

Lemma keywords_ok_AddKeywords (kf : KeywordFilter) (kws : list string)
    (category : string) :
  keywords_ok kf -> keywords_ok (AddKeywords ToLower kf kws category).
Proof.
  unfold AddKeywords. revert kf.
  induction kws as [|k kws IHk]; intros kf Hok; [exact Hok|].
  cbn [foldl]. apply IHk. now apply keywords_ok_AddKeyword.
Qed.

Lemma keywords_ok_RemoveKeyword (kf : KeywordFilter) (keyword : string) :
  keywords_ok kf -> keywords_ok (RemoveKeyword ToLower kf keyword).
Proof.
  intros [Hlow Hnd]. unfold RemoveKeyword.
  destruct (firstIndex (keywords kf) (ToLower keyword)) as [i|]; [|now split].
  split; cbn [keywords]; rewrite <- delete_take_drop.
  - now apply Forall_delete.
  - eapply sublist_NoDup; [exact Hnd | apply sublist_delete].
Qed.

(** Adding a keyword that is present up to case changes nothing. *)
Lemma AddKeyword_present (kf : KeywordFilter) (keyword category : string) :
  keywords_ok kf ->
  (exists k, k ∈ keywords kf /\ ToLower k = ToLower keyword) ->
  AddKeyword ToLower kf keyword category = kf.
Proof.
  intros [Hlow _] (k & Hin & Hk). unfold AddKeyword.
  assert (Hc : containsKeyword kf (ToLower keyword) = true).
  { apply containsKeyword_true. rewrite <- Hk.
    rewrite Forall_forall in Hlow. now rewrite (Hlow k Hin). }
  now rewrite Hc.
Qed.

Lemma keywords_AddToBlacklist (kf : KeywordFilter) (keyword : string) :
  keywords (AddToBlacklist ToLower kf keyword) = keywords kf.
Proof.
  unfold AddToBlacklist.
  now destruct (containsBlacklistKeyword kf (ToLower keyword)).
Qed.

Lemma keywords_AddBlacklist (kf : KeywordFilter) (kws : list string) :
  keywords (AddBlacklist ToLower kf kws) = keywords kf.
Proof.
  unfold AddBlacklist. revert kf.
  induction kws as [|k kws IHk]; intros kf; [reflexivity|].
  cbn [foldl]. now rewrite IHk, keywords_AddToBlacklist.
Qed.

Lemma keywords_RemoveFromBlacklist (kf : KeywordFilter) (keyword : string) :
  keywords (RemoveFromBlacklist ToLower kf keyword) = keywords kf.
Proof.
  unfold RemoveFromBlacklist.
  now destruct (firstIndex (blacklist kf) (ToLower keyword)).
Qed.

Lemma keywords_ok_mutate (kf : KeywordFilter) (m : Mutation) :
  keywords_ok kf -> keywords_ok (mutate ToLower kf m).
Proof.
  intros Hok. destruct m as [k c|ks c|k|ks|k|k]; cbn [mutate].
  - now apply keywords_ok_AddKeyword.
  - now apply keywords_ok_AddKeywords.
  - unfold Filter.keywords_ok. now rewrite keywords_AddToBlacklist.
  - unfold Filter.keywords_ok. now rewrite keywords_AddBlacklist.
  - now apply keywords_ok_RemoveKeyword.
  - unfold Filter.keywords_ok. now rewrite keywords_RemoveFromBlacklist.
Qed.

Lemma keywords_ok_filterAfter (history : list Mutation) :
  keywords_ok (filterAfter ToLower history).
Proof.
  unfold filterAfter. generalize keywords_ok_New.
  generalize NewKeywordFilter as kf. induction history as [|m ms IHm];
    intros kf Hok; [exact Hok|].
  cbn [foldl]. apply IHm. now apply keywords_ok_mutate.
Qed.

(** C9.  A new filter's keyword list is lowercase and free of duplicates;
    [AddKeyword], [AddKeywords] and [RemoveKeyword] keep it so, hence it
    is so after every history of calls; and [AddKeyword] with a keyword
    that is present up to case returns the filter unchanged, list and
    category map alike, whatever the category argument. *)
Theorem keywords_lowercase_unique
    (kf : KeywordFilter) (keyword category : string) (kws : list string) :
  keywords_ok kf ->
  keywords_ok NewKeywordFilter /\
  keywords_ok (AddKeyword ToLower kf keyword category) /\
  keywords_ok (AddKeywords ToLower kf kws category) /\
  keywords_ok (RemoveKeyword ToLower kf keyword) /\
  (forall history, keywords_ok (filterAfter ToLower history)) /\
  ((exists k, k ∈ keywords kf /\ ToLower k = ToLower keyword) ->
   AddKeyword ToLower kf keyword category = kf /\
   keywords (AddKeyword ToLower kf keyword category) = keywords kf /\
   categoryMap (AddKeyword ToLower kf keyword category) = categoryMap kf).
Proof.
  intros Hok.
  split; [apply keywords_ok_New|].
  split; [now apply keywords_ok_AddKeyword|].
  split; [now apply keywords_ok_AddKeywords|].
  split; [now apply keywords_ok_RemoveKeyword|].
  split; [apply keywords_ok_filterAfter|].
  intros Hpresent. rewrite (AddKeyword_present kf keyword category Hok Hpresent).
  auto.
Qed.

End Lowercase.

Lemma keywords_lowercase_unique_witness :
  AddKeyword ToLowerASCII
    (AddKeyword ToLowerASCII NewKeywordFilter "Movie" "电影") "MOVIE" "其他"
  = AddKeyword ToLowerASCII NewKeywordFilter "Movie" "电影".
Proof.
  refine (proj1 (proj2 (proj2 (proj2 (proj2 (proj2
    (keywords_lowercase_unique ToLowerASCII ToLowerASCII_idem
       (AddKeyword ToLowerASCII NewKeywordFilter "Movie" "电影")
       "MOVIE" "其他" [] _))))) _)).
  - apply keywords_ok_AddKeyword; [apply ToLowerASCII_idem | apply keywords_ok_New].
  - exists "movie". split; [left | reflexivity].
Defined.

End FilterClaims.

(** ** The ingest pipeline *)

Module CrawlerClaims.

(** *** The automatic classifier *)

Lemma firstKeywordCategory_None (lowerName : string)
    (visit : list (string * list string)) :
  existsb (fun e : string * list string =>
             existsb (fun word => Contains lowerName word) e.2) visit = false ->
  firstKeywordCategory lowerName visit = None.
Proof.
  induction visit as [|[category words] visit IHv]; [reflexivity|].
  cbn [existsb firstKeywordCategory snd]. intros Hn.
  apply orb_false_iff in Hn as [-> Hn]. auto.
Qed.

Lemma existsb_Permutation {A} (f : A -> bool) (l1 l2 : list A) :
  l1 ≡ₚ l2 -> existsb f l1 = existsb f l2.
Proof.
  induction 1 as [|x l1 l2 _ IH|x y l|l1 l2 l3 _ IH1 _ IH2]; simpl.
  - reflexivity.
  - now rewrite IH.
  - destruct (f x), (f y); reflexivity.
  - congruence.
Qed.

Section Lowercase.
Variable ToLower : string -> string.

Local Abbreviation heuristics_as_specified :=
  (Crawler.heuristics_as_specified ToLower).

Lemma categorizeContent_no_table (visit : list (string * list string))
    (name : string) (fileCount size : Z) :
  visit ≡ₚ keywordTable ->
  matchesNoTable (ToLower name) = true ->
  categorizeContent ToLower visit name fileCount size =
    if (fileCount >? 50) && (size >? 10 * GiB) then "合集"
    else if size >? 4 * GiB then "电影"
    else if fileCount >? 10 then "其他"
    else "未知".
Proof.
  intros Hp Hno. unfold matchesNoTable in Hno.
  apply andb_true_iff in Hno as [Hext Hkw].
  apply negb_true_iff in Hext, Hkw.
  rewrite !existsb_app, !orb_false_iff in Hext.
  destruct Hext as (Hv & Ha & Hi & Hd & Har).
  unfold categorizeContent. rewrite Hv, Ha, Hi, Hd, Har.
  rewrite firstKeywordCategory_None; [reflexivity|].
  now rewrite (existsb_Permutation _ _ _ Hp).
Qed.

(** C7, amended.  When the lowered name matches no suffix table and no
    keyword table, whatever the order in which the keyword table is
    visited, the classifier returns "合集" (collection) iff there are more
    than 50 files and more than 10 GiB; else "电影" (movie) iff the size
    exceeds 4 GiB; else "其他" (other) iff there are more than 10 files;
    and "未知" (unknown) otherwise. *)
Theorem categorizeContent_heuristics (visit : list (string * list string))
    (name : string) (fileCount size : Z) :
  visit ≡ₚ keywordTable ->
  matchesNoTable (ToLower name) = true ->
  let category := categorizeContent ToLower visit name fileCount size in
  (category = "合集" <-> fileCount > 50 /\ size > 10 * GiB) /\
  (category = "电影" <->
     ~ (fileCount > 50 /\ size > 10 * GiB) /\ size > 4 * GiB) /\
  (category = "其他" <-> size <= 4 * GiB /\ fileCount > 10) /\
  (category = "未知" <-> size <= 4 * GiB /\ fileCount <= 10).
Proof.
  intros Hp Hno category. subst category.
  rewrite (categorizeContent_no_table visit name fileCount size Hp Hno).
  unfold GiB.
  destruct (Z.gtb_spec fileCount 50), (Z.gtb_spec size (10 * (1024 * 1024 * 1024))),
    (Z.gtb_spec size (4 * (1024 * 1024 * 1024))), (Z.gtb_spec fileCount 10);
    cbn [andb]; repeat split; intros; try discriminate; try lia.
Qed.

End Lowercase.

(** C7 as stated fails for eleven small files: the classifier answers
    "其他" where the three-way rule says "未知". *)
Lemma categorizeContent_other_counterexample :
  ~ heuristics_as_specified ToLowerASCII keywordTable "x" 11 0.
Proof.
  unfold heuristics_as_specified. intros Hc.
  specialize (Hc eq_refl). vm_compute in Hc. discriminate.
Qed.

Lemma categorizeContent_heuristics_witness :
  categorizeContent ToLowerASCII keywordTable "x" 11 0 = "其他".
Proof.
  apply (proj1 (proj2 (proj2 (categorizeContent_heuristics ToLowerASCII
           keywordTable "x" 11 0 (Permutation_refl _) eq_refl)))).
  unfold GiB. lia.
Defined.

(** *** File count and total length *)

Lemma wrap64_small (z : Z) : in_int64 z -> wrap64 z = z.
Proof.
  unfold in_int64, int64_min, int64_max, wrap64. intros Hz.
  rewrite Z.mod_small; lia.
Qed.






Section Environment.
Variable ToLower : string -> string.
Variable QueryEscape : string -> string.

Lemma FileCount_convert (now : Time) (visit : list (string * list string))
    (md : TorrentMetadata) (category : string) :
  FileCount (convertMetadataToTorrent ToLower QueryEscape now visit md category)
  = if Z.of_nat (length (Files md)) =? 0 then 1
    else Z.of_nat (length (Files md)).
Proof.
  unfold convertMetadataToTorrent. cbv zeta.
  match goal with |- context [if IsZero ?t then _ else _] =>
    destruct (IsZero t) end; reflexivity.
Qed.



End Environment.


(** *** The ingest loop *)

Lemma Unix_epoch_not_zero : IsZero (Unix 0) = false.
Proof. reflexivity. Qed.

Lemma IsZero_Unix (s : Z) :
  in_int64 s -> (IsZero (Unix s) = true <-> s = - unixToInternal).
Proof.
  unfold in_int64, int64_min, int64_max, IsZero, Unix, unixToInternal, wrap64.
  cbn [sec nsec]. intros Hs. rewrite andb_true_r, Z.eqb_eq.
  split; [|intros ->; reflexivity].
  intros Hw.
  destruct (Z_lt_le_dec (s + 62135596800) (2 ^ 63)) as [Hlt|Hge].
  - rewrite Z.mod_small in Hw by lia. lia.
  - assert (Hm : (s + 62135596800 + 2 ^ 63) mod 2 ^ 64
                 = s + 62135596800 + 2 ^ 63 - 2 ^ 64).
    { symmetry. apply Z.mod_unique_pos with (q := 1); lia. }
    lia.
Qed.

Section Ingest.
Variable ToLower : string -> string.
Variable QueryEscape : string -> string.
Variable Decode : string -> result value.
Context {DB : Type} `{Database DB}.

Lemma convert_InfoHash (infoHash : string) (metadata : value)
    (md : TorrentMetadata) :
  convertToTorrentMetadata infoHash metadata = Ok md ->
  InfoHash md = infoHash /\
  forall info, metadata = VDict info ->
    Creation md = match asInt64 (index info "creation date") with
                  | Some creation => Unix creation
                  | None => zeroTime
                  end.
Proof.
  unfold convertToTorrentMetadata.
  destruct (asDict (Some metadata)) as [info|] eqn:Ed; [|discriminate].
  destruct (asString (index info "name")) as [name|]; [|discriminate].
  match goal with |- context [let '(files, length) := ?e in _] =>
    destruct e as [files length] end.
  intros [= <-]. split; [reflexivity|].
  intros info' ->. cbn in Ed. injection Ed as ->. reflexivity.
Qed.

Lemma convertMetadataToTorrent_fields (now : Time)
    (visit : list (string * list string)) (md : TorrentMetadata)
    (category : string) :
  let torrent :=
    convertMetadataToTorrent ToLower QueryEscape now visit md category in
  Heat torrent = 1 /\ Source torrent = "DHT" /\
  UploadDate torrent = (if IsZero (Creation md) then now else Creation md) /\
  Title torrent = Name md /\
  TInfoHash torrent = EncodeToString (InfoHash md).
Proof.
  unfold convertMetadataToTorrent. cbv zeta. cbn [UploadDate].
  destruct (IsZero (Creation md)); cbn; auto.
Qed.

(** The loop handles the arrivals one by one while the crawler runs, and
    nothing once it is found stopped. *)
Lemma processMetadata_running (c : Crawler) (rt : Runtime) (resp : Response)
    (arrivals : list (Runtime * Response)) (db : DB) :
  running c = true ->
  processMetadata ToLower QueryEscape Decode c ((rt, resp) :: arrivals) db =
    let out1 := processResponse ToLower QueryEscape Decode c rt resp db in
    let out2 :=
      processMetadata ToLower QueryEscape Decode c arrivals out1.1 in
    (out2.1, (out1.2 ++ out2.2)%list).
Proof.
  intros Hrun. cbn [processMetadata]. rewrite Hrun. cbn [negb].
  destruct (processResponse _ _ _ _ _ _ _) as [db1 ops1].
  destruct (processMetadata _ _ _ _ _ _) as [db2 ops2]. reflexivity.
Qed.

Lemma processMetadata_stopped (c : Crawler)
    (arrivals : list (Runtime * Response)) (db : DB) :
  running c = false ->
  processMetadata ToLower QueryEscape Decode c arrivals db = (db, []).
Proof.
  intros Hrun. destruct arrivals as [|[rt resp] arrivals]; [reflexivity|].
  cbn [processMetadata]. now rewrite Hrun.
Qed.

(** A response that does not decode, or does not convert, is dropped. *)
Lemma processResponse_dropped (c : Crawler) (rt : Runtime) (resp : Response)
    (db : DB) :
  (forall metadata, Decode (MetadataInfo resp) = Ok metadata ->
     exists e, convertToTorrentMetadata (RInfoHash resp) metadata = Err e) ->
  processResponse ToLower QueryEscape Decode c rt resp db = (db, []).
Proof.
  intros Hdrop. unfold processResponse.
  destruct (Decode (MetadataInfo resp)) as [metadata|e]; [|reflexivity].
  destruct (Hdrop metadata eq_refl) as [e ->]. reflexivity.
Qed.

End Ingest.

(** *** The store of package database *)

Local Abbreviation holds coll key :=
  (exists t, t ∈ coll /\ TInfoHash t = key).

Lemma existsb_holds (coll : list Torrent) (key : string) :
  existsb (fun t => String.eqb (TInfoHash t) key) coll = true <->
  holds coll key.
Proof.
  rewrite existsb_exists. split; intros (t & Hin & Ht); exists t.
  - split; [now apply list_elem_of_In | now apply String.eqb_eq].
  - split; [now apply list_elem_of_In | now apply String.eqb_eq].
Qed.

Lemma CountDocuments_spec (coll : list Torrent) (key : string) :
  exists count,
    database.CountDocuments coll key = Ok count /\ 0 <= count /\
    (count >? 0) = existsb (fun t => String.eqb (TInfoHash t) key) coll.
Proof.
  induction coll as [|t coll (count & Hc & Hpos & Hex)].
  - exists 0. split; [reflexivity|]. split; [lia | reflexivity].
  - cbn [database.CountDocuments existsb]. rewrite Hc, bind_Ok, <- Hex.
    destruct (String.eqb (TInfoHash t) key); cbn [orb].
    + exists (count + 1). split; [reflexivity|]. split; [lia|].
      apply Z.gtb_lt. lia.
    + exists count. auto.
Qed.

Lemma InfoHashExists_holds (db : database.DB) (infoHash : string) :
  database.InfoHashExists db infoHash
  = Ok (existsb
          (fun t => String.eqb (TInfoHash t) (EncodeToString infoHash))
          (database.Torrents db)).
Proof.
  unfold database.InfoHashExists.
  destruct (CountDocuments_spec (database.Torrents db) (EncodeToString infoHash))
    as (count & -> & _ & <-).
  reflexivity.
Qed.

(** [UpdateOne] raises the heat of the first document under the key, and
    of no other. *)
Lemma UpdateOne_first (coll : list Torrent) (key : string) :
  holds coll key ->
  exists pre t post,
    coll = (pre ++ t :: post)%list /\ TInfoHash t = key /\
    (forall x, x ∈ pre -> TInfoHash x <> key) /\
    database.UpdateOne coll key
      = ((pre ++ withHeat t (Heat t + 1) :: post)%list, None).
Proof.
  induction coll as [|x coll IHc]; intros (t & Hin & Ht).
  { inversion Hin. }
  cbn [database.UpdateOne].
  destruct (String.eqb_spec (TInfoHash x) key) as [Hx|Hx].
  - exists [], x, coll. repeat split; [exact Hx|].
    intros y Hy. inversion Hy.
  - apply elem_of_cons in Hin as [->|Hin]; [congruence|].
    destruct IHc as (pre & t' & post & -> & Ht' & Hpre & ->); [now exists t|].
    exists (x :: pre), t', post. repeat split; [exact Ht'|].
    intros y Hy. apply elem_of_cons in Hy as [->|Hy]; auto.
Qed.

Lemma UpdateOne_none (coll : list Torrent) (key : string) :
  (forall t, t ∈ coll -> TInfoHash t <> key) ->
  database.UpdateOne coll key = (coll, None).
Proof.
  induction coll as [|x coll IHc]; intros Hno; [reflexivity|].
  cbn [database.UpdateOne].
  destruct (String.eqb_spec (TInfoHash x) key) as [Hx|_].
  - exfalso. apply (Hno x); [left | exact Hx].
  - rewrite IHc; [reflexivity|]. intros t Ht. apply Hno. now right.
Qed.

(** [AddTorrent] of a record whose key is free appends the record. *)
Lemma AddTorrent_new (db : database.DB) (torrent : Torrent) :
  (forall t, t ∈ database.Torrents db -> TInfoHash t <> TInfoHash torrent) ->
  database.AddTorrent db torrent
  = ({| database.Torrents := (database.Torrents db ++ [torrent])%list |}, None).
Proof.
  intros Hno.
  assert (Hex : existsb
            (fun t => String.eqb (TInfoHash t) (TInfoHash torrent))
            (database.Torrents db) = false).
  { apply not_true_iff_false. rewrite existsb_holds.
    intros (t & Hin & Ht). now apply (Hno t). }
  unfold database.AddTorrent, database.FindOne.
  destruct (find _ (database.Torrents db)) as [t|] eqn:Ef.
  - apply find_some in Ef as [Hin Ht]. exfalso.
    apply (Hno t); [now apply list_elem_of_In | now apply String.eqb_eq].
  - rewrite bool_decide_eq_true_2 by reflexivity.
    unfold database.InsertOne. now rewrite Hex.
Qed.

(** [AddTorrent] of a record whose key is taken raises the heat of the
    record that holds the key, and adds nothing. *)
Lemma AddTorrent_taken (db : database.DB) (torrent : Torrent) :
  holds (database.Torrents db) (TInfoHash torrent) ->
  exists pre t post,
    database.Torrents db = (pre ++ t :: post)%list /\
    TInfoHash t = TInfoHash torrent /\
    database.AddTorrent db torrent
      = ({| database.Torrents :=
              (pre ++ withHeat t (Heat t + 1) :: post)%list |}, None).
Proof.
  intros Hholds.
  destruct (UpdateOne_first _ _ Hholds) as (pre & t & post & Hc & Ht & _ & Hu).
  exists pre, t, post. split; [exact Hc|]. split; [exact Ht|].
  unfold database.AddTorrent, database.FindOne.
  destruct (find _ (database.Torrents db)) as [t'|] eqn:Ef.
  - now rewrite Hu.
  - exfalso. destruct Hholds as (x & Hin & Hx).
    apply list_elem_of_In in Hin.
    pose proof (find_none _ _ Ef x Hin) as Hf. cbn beta in Hf.
    apply String.eqb_neq in Hf. contradiction.
Qed.

Section Store.
Variable ToLower : string -> string.
Variable QueryEscape : string -> string.
Variable Decode : string -> result value.

(** C4, amended.  For a response that decodes and converts to metadata
    [md] with a name that is not empty: when the store holds a record
    under its info-hash, the loop issues the probe and one heat increment
    and no insert, and the store keeps its records, the one under that
    info-hash with its heat raised by one; when the store holds no such
    record and the filter matches the name, the loop issues the probe and
    one insert, and the store gains one record, with heat 1, source "DHT"
    and upload date the parsed creation time of the metadata, or the
    current time when that is the zero time, as it is when the metadata
    has no creation date.  When the name is empty the loop issues nothing
    and the store is left as it was. *)
Theorem processResponse_store_calls (c : Crawler) (rt : Runtime)
    (resp : Response) (db : database.DB) (metadata : value)
    (md : TorrentMetadata) :
  Decode (MetadataInfo resp) = Ok metadata ->
  convertToTorrentMetadata (RInfoHash resp) metadata = Ok md ->
  let out := processResponse ToLower QueryEscape Decode c rt resp db in
  let key := EncodeToString (InfoHash md) in
  (Name md <> "" ->
     (holds (database.Torrents db) key ->
        out.2 = [OpInfoHashExists (InfoHash md);
                 OpIncrementTorrentHeat (InfoHash md)] /\
        exists pre t post,
          database.Torrents db = (pre ++ t :: post)%list /\
          TInfoHash t = key /\
          (forall x, x ∈ pre -> TInfoHash x <> key) /\
          database.Torrents out.1
            = (pre ++ withHeat t (Heat t + 1) :: post)%list) /\
     ((forall t, t ∈ database.Torrents db -> TInfoHash t <> key) ->
        forall kw, MatchContent ToLower (filter c) (Name md) = (true, kw) ->
        exists torrent,
          out.2 = [OpInfoHashExists (InfoHash md); OpAddTorrent torrent] /\
          database.Torrents out.1 = (database.Torrents db ++ [torrent])%list /\
          Heat torrent = 1 /\ Source torrent = "DHT" /\
          UploadDate torrent
            = (if IsZero (Creation md) then now rt else Creation md) /\
          Title torrent = Name md /\
          TInfoHash torrent = key)) /\
  (Name md = "" -> out = (db, [])) /\
  InfoHash md = RInfoHash resp /\
  (forall info, metadata = VDict info ->
     index info "creation date" = None -> Creation md = zeroTime).
Proof.
  intros Hdec Hconv out key. subst out key. unfold processResponse.
  rewrite Hdec, Hconv.
  destruct (convert_InfoHash _ _ _ Hconv) as [Hih Hcreation].
  split; [|split; [|split; [exact Hih|]]].
  - intros Hname.
    destruct (String.eqb_spec (Name md) "") as [?|_]; [congruence|].
    cbn [InfoHashExists IncrementTorrentHeat AddTorrent Store].
    rewrite InfoHashExists_holds. split.
    + intros Hholds. rewrite (proj2 (existsb_holds _ _) Hholds).
      unfold database.IncrementTorrentHeat.
      destruct (UpdateOne_first _ _ Hholds)
        as (pre & t & post & Hc & Ht & Hpre & ->).
      cbn [fst snd database.Torrents]. split; [reflexivity|].
      now exists pre, t, post.
    + intros Hno kw ->. cbn [negb].
      assert (Hex : existsb
                (fun t => String.eqb (TInfoHash t)
                            (EncodeToString (InfoHash md)))
                (database.Torrents db) = false).
      { apply not_true_iff_false. rewrite existsb_holds.
        intros (t & Hin & Ht). now apply (Hno t). }
      rewrite Hex.
      match goal with |- context [database.AddTorrent db ?t] =>
        set (torrent := t) end.
      pose proof (convertMetadataToTorrent_fields ToLower QueryEscape
                    (now rt) (visit rt) md
                    (if String.eqb (GetCategory ToLower (filter c) kw) ""
                     then categorizeContent ToLower (visit rt) (Name md)
                            (Z.of_nat (length (Files md))) (Length md)
                     else GetCategory ToLower (filter c) kw))
        as (Hheat & Hsrc & Hdate & Htitle & Hkey).
      fold torrent in Hheat, Hsrc, Hdate, Htitle, Hkey.
      rewrite AddTorrent_new by (rewrite Hkey; exact Hno).
      exists torrent. cbn [fst snd database.Torrents]. auto 10.
  - intros ->. reflexivity.
  - intros info Hm Hnone. rewrite (Hcreation info Hm), Hnone. reflexivity.
Qed.

End Store.

(** C4 as stated fails for an item whose name is the empty string: it is
    dropped before the store is probed, so no heat increment is issued
    although the store holds its info-hash. *)
Lemma processResponse_empty_name_counterexample :
  ~ increment_issued_if_present ToLowerASCII (fun s => s) decodeExamples
      {| filter := NewKeywordFilter; running := true |}
      {| now := zeroTime; visit := keywordTable |}
      {| RInfoHash := "ab"; MetadataInfo := "d4:name0:e" |}
      {| database.Torrents := [exampleRecord] |}.
Proof.
  unfold increment_issued_if_present. intros Hc.
  specialize (Hc eq_refl). vm_compute in Hc. inversion Hc.
Qed.

Lemma processResponse_store_calls_witness :
  exists pre t post,
    [exampleRecord] = (pre ++ t :: post)%list /\
    TInfoHash t = "6162" /\
    (forall x, x ∈ pre -> TInfoHash x <> "6162") /\
    database.Torrents
      (processResponse ToLowerASCII (fun s => s) decodeExamples
         {| filter := NewKeywordFilter; running := true |}
         {| now := zeroTime; visit := keywordTable |}
         {| RInfoHash := "ab";
            MetadataInfo := "d6:lengthi7e4:name9:movie.mkve" |}
         {| database.Torrents := [exampleRecord] |}).1
      = (pre ++ withHeat t (Heat t + 1) :: post)%list.
Proof.
  pose proof (processResponse_store_calls ToLowerASCII (fun s => s)
    decodeExamples
    {| filter := NewKeywordFilter; running := true |}
    {| now := zeroTime; visit := keywordTable |}
    {| RInfoHash := "ab"; MetadataInfo := "d6:lengthi7e4:name9:movie.mkve" |}
    {| database.Torrents := [exampleRecord] |}
    _ _ eq_refl eq_refl) as [Hnonempty _].
  destruct (Hnonempty ltac:(discriminate)) as [Hpresent _].
  apply Hpresent. exists exampleRecord. split; [left | reflexivity].
Defined.

(** Scenario 6 of the specification: the same matching metadata delivered
    twice leaves one record, with heat 2. *)
Example ingest_dedup :
  let c := {| filter := AddKeyword ToLowerASCII NewKeywordFilter "movie" "";
              running := true |} in
  let arrival :=
    ({| now := Unix 1700000000; visit := keywordTable |},
     {| RInfoHash := "ab";
        MetadataInfo := "d6:lengthi7e4:name9:movie.mkve" |}) in
  let out :=
    processMetadata ToLowerASCII (fun s => s) decodeExamples c
      [arrival; arrival] {| database.Torrents := [] |} in
  exists torrent,
    out.2 = [OpInfoHashExists "ab"; OpAddTorrent torrent;
             OpInfoHashExists "ab"; OpIncrementTorrentHeat "ab"] /\
    database.Torrents out.1 = [withHeat torrent 2] /\
    Heat torrent = 1 /\ TInfoHash torrent = "6162" /\
    Category torrent = "视频" /\
    UploadDate torrent = Unix 1700000000.
Proof.
  eexists. split; [vm_compute; reflexivity|]. vm_compute. repeat split.
Qed.

End CrawlerClaims.

(** ** The DHT engine *)

Module DHTClaims.
Import DHT.

(** *** Slices of byte strings *)

Lemma substring_prefix (s : string) (n : nat) :
  (n <= String.length s)%nat ->
  String.length (String.substring 0 n s) = n /\
  exists post, s = String.substring 0 n s ++ post.
Proof.
  revert n. induction s as [|c s IHs]; intros [|n] Hn; cbn in *; try lia.
  - split; [reflexivity | now exists ""].
  - split; [reflexivity | now exists (String c s)].
  - destruct (IHs n ltac:(lia)) as [Hl [post Hp]].
    split; [now rewrite Hl|]. exists post. rewrite append_cons. now f_equal.
Qed.

Lemma substring_all (s : string) :
  String.substring 0 (String.length s) s = s.
Proof. induction s as [|c s IHs]; cbn; [reflexivity | now rewrite IHs]. Qed.

Lemma substring_suffix (s : string) (n : nat) :
  (n <= String.length s)%nat ->
  String.length (String.substring n (String.length s - n) s)
    = (String.length s - n)%nat /\
  exists pre, s = pre ++ String.substring n (String.length s - n) s /\
              String.length pre = n.
Proof.
  revert n. induction s as [|c s IHs]; intros [|n] Hn.
  - split; [reflexivity | now exists ""].
  - cbn in Hn. lia.
  - rewrite Nat.sub_0_r, substring_all.
    split; [reflexivity | now exists ""].
  - cbn [String.length] in *. cbn [String.substring Nat.sub].
    destruct (IHs n ltac:(lia)) as [Hl (pre & Hp & Hpl)].
    split; [exact Hl|]. exists (String c pre).
    rewrite append_cons. split; [now f_equal | cbn; now rewrite Hpl].
Qed.

Section Engine.
Context {Callback : Type}.
Implicit Type dht : @DHT Callback.

(** A non-empty target shorter than 15 bytes makes the slice
    [target[:15]] panic outside standard mode. *)
Lemma id_short_target dht (target : string) :
  Mode dht <> StandardMode -> target <> "" ->
  (String.length target < 15)%nat -> id dht target = None.
Proof.
  intros Hmode Hne Hlen. unfold id, IsStandardMode.
  destruct (Z.eqb_spec (Mode dht) StandardMode) as [?|_]; [congruence|].
  destruct (String.eqb_spec target "") as [?|_]; [congruence|].
  unfold sliceTo. cbn [orb].
  destruct (Nat.leb_spec 15 (String.length target)) as [?|_]; [lia|].
  reflexivity.
Qed.

(** C6.  With a 20-byte identifier of its own, the engine uses that
    identifier as source in standard mode and whenever the target is empty;
    in crawl mode, with a non-empty target (of at least the 15 bytes that
    are taken from it), it uses the first 15 bytes of the target followed
    by the last 5 bytes of its own identifier, 20 bytes in all. *)
Theorem id_source_identifier dht (target : string) :
  String.length (id_RawString (self dht)) = 20%nat ->
  ((Mode dht = StandardMode \/ target = "") ->
     id dht target = Some (id_RawString (self dht))) /\
  (Mode dht = CrawlMode -> target <> "" ->
   (15 <= String.length target)%nat ->
     exists head tail rest own15 : string,
       id dht target = Some (head ++ tail) /\
       target = head ++ rest /\ String.length head = 15%nat /\
       id_RawString (self dht) = own15 ++ tail /\
       String.length own15 = 15%nat /\ String.length tail = 5%nat /\
       String.length (head ++ tail) = 20%nat).
Proof.
  intros Hself. unfold id, IsStandardMode. split.
  - intros [-> | ->]; [reflexivity|]. now rewrite orb_true_r.
  - intros -> Hne Hlen. cbn [Z.eqb CrawlMode StandardMode orb].
    destruct (String.eqb_spec target "") as [?|_]; [congruence|].
    unfold sliceTo, sliceFrom. rewrite Hself.
    destruct (Nat.leb_spec 15 (String.length target)) as [_|?]; [|lia].
    cbn [Nat.leb Nat.sub mbind option_bind].
    destruct (substring_prefix target 15 Hlen) as [Hhl [rest Hrest]].
    destruct (substring_suffix (id_RawString (self dht)) 15 ltac:(lia))
      as [Htl (own15 & Hown & Hol)].
    rewrite Hself in Htl, Hown. cbn [Nat.sub] in Htl, Hown.
    eexists _, _, rest, own15. split; [reflexivity|].
    repeat split; try assumption.
    rewrite length_append, Hhl, Htl. reflexivity.
Qed.

End Engine.

Lemma id_source_identifier_witness :
  exists head tail rest own15 : string,
    id crawler20 "abcdefghijklmnopqrst" = Some (head ++ tail) /\
    "abcdefghijklmnopqrst" = head ++ rest /\ String.length head = 15%nat /\
    id_RawString (self crawler20) = own15 ++ tail /\
    String.length own15 = 15%nat /\ String.length tail = 5%nat /\
    String.length (head ++ tail) = 20%nat.
Proof.
  apply (proj2 (id_source_identifier crawler20
                  "abcdefghijklmnopqrst" eq_refl));
    [reflexivity | discriminate | cbn; lia].
Defined.

Example id_crawl_example :
  id crawler20 "abcdefghijklmnopqrst" = Some "abcdefghijklmnoPQRST".
Proof. reflexivity. Qed.

(** *** GetPeers *)

Lemma DecodeString_error (s : string) (e : error) :
  DecodeString s = Err e ->
  e = ErrHexLength \/ exists c, e = ErrHexInvalidByte c.
Proof.
  revert e.
  assert (Hboth : (forall e, DecodeString s = Err e ->
                     e = ErrHexLength \/ exists c, e = ErrHexInvalidByte c) /\
                  (forall c e, DecodeString (String c s) = Err e ->
                     e = ErrHexLength \/ exists c, e = ErrHexInvalidByte c)).
  { induction s as [|c1 s [IH1 IH2]].
    - split; [discriminate|]. intros c e. cbn.
      destruct (fromHexChar c); intros [= <-]; eauto.
    - split; [apply IH2|]. intros c e. cbn [DecodeString].
      destruct (fromHexChar c); [|intros [= <-]; eauto].
      destruct (fromHexChar c1); [|intros [= <-]; eauto].
      destruct (DecodeString s) as [rest|e'] eqn:Ed; [discriminate|].
      cbn. intros [= <-]. now apply IH1. }
  apply Hboth.
Qed.

#[local] Instance closer_trans target : Transitive (closer target).
Proof. intros n1 n2 n3. unfold closer. lia. Qed.

#[local] Instance closer_total target : Total (closer target).
Proof. intros n1 n2. unfold closer. lia. Qed.

Lemma GetNeighbors_all (rt : routingTable) (target : string) :
  GetNeighbors rt target (Len rt) ≡ₚ nodes rt /\
  StronglySorted (closer target) (GetNeighbors rt target (Len rt)).
Proof.
  unfold GetNeighbors, Len. rewrite Nat2Z.id.
  rewrite firstn_all2 by
    (rewrite (Permutation_length (merge_sort_Permutation _ _)); lia).
  split; [apply merge_sort_Permutation|].
  apply StronglySorted_merge_sort; apply _.
Qed.

Section Engine.
Context {Callback : Type}.
Implicit Type dht : @DHT Callback.

(** C5, amended.  When the DHT is ready, [GetPeers] fails with
    [ErrOnGetPeersResponseNotSet] iff the callback is not set; with the
    callback set, a 40-byte argument that is not hexadecimal makes it
    return the decoding error and emit nothing, and otherwise it emits one
    [get_peers] query to every node that
    [GetNeighbors(infoHash, routingTable.Len())] returns, which is every
    node of the routing table, by increasing XOR distance to the
    info-hash. *)
Theorem GetPeers_queries_all_neighbors dht (infoHash : string) :
  Ready dht = true ->
  (GetPeers dht infoHash = Err ErrOnGetPeersResponseNotSet <->
   OnGetPeersResponse dht = None) /\
  (is_Some (OnGetPeersResponse dht) ->
     (forall e, rawInfoHash infoHash = Err e -> GetPeers dht infoHash = Err e) /\
     (forall raw, rawInfoHash infoHash = Ok raw ->
        GetPeers dht infoHash
          = Ok ((fun no => GetPeersQuery no raw)
                  <$> GetNeighbors (table dht) raw (Len (table dht))) /\
        GetNeighbors (table dht) raw (Len (table dht)) ≡ₚ nodes (table dht) /\
        StronglySorted (closer raw)
          (GetNeighbors (table dht) raw (Len (table dht))))).
Proof.
  intros Hready. unfold GetPeers. rewrite Hready. cbn [negb].
  fold (rawInfoHash infoHash).
  destruct (OnGetPeersResponse dht) as [cb|] eqn:Ecb.
  - rewrite bool_decide_eq_true_2 by eauto. cbn [negb]. split.
    + split; [|discriminate].
      destruct (rawInfoHash infoHash) as [raw|e] eqn:Er; [discriminate|].
      cbn. intros [= ->]. unfold rawInfoHash in Er.
      destruct (Go.len infoHash =? 40); [|discriminate].
      apply DecodeString_error in Er as [?|[c ?]]; discriminate.
    + intros _. split.
      * intros e ->. reflexivity.
      * intros raw ->. split; [reflexivity | apply GetNeighbors_all].
  - rewrite bool_decide_eq_false_2 by (intros [? ?]; discriminate).
    split; [split; reflexivity|]. intros [? ?]. discriminate.
Qed.

(** *** The periodic tick *)

(** C8, amended.  On a tick the engine re-joins when the routing table is
    empty, sending a [find_node] for its own identifier to every prime node
    whose address resolves; when the table is not empty it starts
    [routingTable.Fresh()] iff the transaction manager holds no
    transaction, and does nothing otherwise. *)
Theorem runStep_tick (resolve : string -> result string) dht :
  (Len (table dht) = 0 -> runStep resolve dht Tick = join resolve dht) /\
  (Len (table dht) <> 0 -> transactions dht = 0 ->
     runStep resolve dht Tick = [Fresh]) /\
  (Len (table dht) <> 0 -> transactions dht <> 0 ->
     runStep resolve dht Tick = []) /\
  Forall (fun a => exists no, a = FindNode no (id_RawString (self dht)))
    (join resolve dht) /\
  (forall raddr,
     (exists no, FindNode no (id_RawString (self dht)) ∈ join resolve dht /\
                 addr no = raddr) <->
     (exists a, a ∈ PrimeNodes dht /\ resolve a = Ok raddr)).
Proof.
  cbn [runStep]. split; [|split; [|split; [|split]]].
  - intros ->. reflexivity.
  - intros Hlen ->. destruct (Z.eqb_spec (Len (table dht)) 0); [lia | reflexivity].
  - intros Hlen Htx. destruct (Z.eqb_spec (Len (table dht)) 0); [lia|].
    destruct (Z.eqb_spec (transactions dht) 0); [lia | reflexivity].
  - unfold join. apply Forall_forall. intros a Ha.
    apply list_elem_of_omap in Ha as (p & _ & Hp).
    destruct (resolve p); [|discriminate]. injection Hp as <-. eauto.
  - intros raddr. unfold join. split.
    + intros (no & Hin & <-). apply list_elem_of_omap in Hin as (p & Hp & Hr).
      exists p. split; [exact Hp|].
      destruct (resolve p); [|discriminate]. injection Hr as <-. reflexivity.
    + intros (a & Ha & Hr). eexists. split.
      * apply list_elem_of_omap. exists a. split; [exact Ha|].
        rewrite Hr. reflexivity.
      * reflexivity.
Qed.

End Engine.

(** *** Concrete engines *)

(** C5 as stated fails when the table holds more than [K] nodes: all nine
    are queried, not the eight closest. *)
Lemma GetPeers_more_than_K_counterexample :
  ~ queries_K_closest standard9 "aaaaaaaaaaaaaaaaaaa0".
Proof.
  unfold queries_K_closest. intros Hc.
  specialize (Hc eq_refl ltac:(eexists; reflexivity) _ eq_refl).
  apply (f_equal (fun r => match r with
                           | Ok l => length l
                           | Err _ => 0%nat
                           end)) in Hc.
  vm_compute in Hc. discriminate.
Qed.

Lemma GetPeers_queries_all_neighbors_witness :
  GetPeers standard9 "6161616161616161616161616161616161616130"
  = Ok ((fun no => GetPeersQuery no "aaaaaaaaaaaaaaaaaaa0")
          <$> GetNeighbors (table standard9) "aaaaaaaaaaaaaaaaaaa0"
                (Len (table standard9))).
Proof.
  destruct (GetPeers_queries_all_neighbors standard9
              "6161616161616161616161616161616161616130" eq_refl)
    as [_ Hset].
  destruct (Hset ltac:(eexists; reflexivity)) as [_ Hok].
  apply (Hok "aaaaaaaaaaaaaaaaaaa0"). reflexivity.
Defined.

(** C8 as stated fails while a transaction is pending: the tick neither
    joins nor refreshes. *)
Lemma runStep_tick_pending_counterexample :
  ~ tick_joins_or_refreshes (fun a => Ok a) standard9.
Proof.
  unfold tick_joins_or_refreshes. intros [_ Hc].
  specialize (Hc ltac:(discriminate)). vm_compute in Hc. discriminate.
Qed.

Lemma runStep_tick_witness :
  runStep (fun a => Ok a) standard9 Tick = [].
Proof.
  apply (proj1 (proj2 (proj2 (runStep_tick (fun a => Ok a) standard9))));
    discriminate.
Defined.

End DHTClaims.

(** * Further properties *)

(** ** The keyword filter: categories, removal, blacklist *)

Module FilterExtras.
Import FilterClaims.

Lemma firstIndex_Some (l : list string) (k : string) (i : nat) :
  firstIndex l k = Some i ->
  l !! i = Some k /\ forall j, (j < i)%nat -> l !! j <> Some k.
Proof.
  revert i. induction l as [|x l IHl]; intros i; cbn [firstIndex].
  - discriminate.
  - destruct (String.eqb_spec x k) as [->|Hne].
    + intros [= <-]. split; [reflexivity | intros j Hj; lia].
    + destruct (firstIndex l k) as [i'|]; [|discriminate].
      intros [= <-]. destruct (IHl i' eq_refl) as [Hi Hfirst].
      split; [exact Hi|]. intros [|j] Hj; cbn; [congruence|].
      apply Hfirst. lia.
Qed.

Lemma firstIndex_None (l : list string) (k : string) :
  firstIndex l k = None <-> k ∉ l.
Proof.
  induction l as [|x l IHl]; cbn [firstIndex].
  - split; [intros _ H; inversion H | reflexivity].
  - rewrite not_elem_of_cons. destruct (String.eqb_spec x k) as [->|Hne].
    + split; [discriminate | intros [Hk _]; congruence].
    + destruct (firstIndex l k) as [i|] eqn:E.
      * split; [discriminate|]. intros [_ Hk]. apply IHl in Hk. discriminate.
      * split; [|reflexivity]. intros _. split; [congruence | now apply IHl].
Qed.

Lemma firstIndex_app_fresh (l : list string) (k : string) :
  k ∉ l -> firstIndex (l ++ [k]) k = Some (length l).
Proof.
  induction l as [|x l IHl]; intros Hk.
  - cbn. now rewrite String.eqb_refl.
  - apply not_elem_of_cons in Hk as [Hne Hk]. cbn [app firstIndex].
    destruct (String.eqb_spec x k) as [?|_]; [congruence|].
    now rewrite (IHl Hk).
Qed.

(** Deleting the first occurrence from a list without duplicates removes
    the element, and only it. *)
Lemma delete_first_NoDup (l : list string) (k : string) (i : nat) :
  NoDup l -> l !! i = Some k ->
  forall x, x ∈ delete i l <-> x ∈ l /\ x <> k.
Proof.
  intros Hnd Hi x. rewrite <- (take_drop_middle l i k Hi) in Hnd.
  rewrite delete_take_drop.
  rewrite <- (take_drop_middle l i k Hi) at 3.
  apply NoDup_app in Hnd as (_ & Hdisj & Hnd2).
  apply NoDup_cons in Hnd2 as [Hk2 _].
  rewrite !elem_of_app, elem_of_cons. split.
  - intros [Hx|Hx]; (split; [tauto|]); intros ->.
    + apply (Hdisj k Hx). left.
    + contradiction.
  - intros [[Hx|[->|Hx]] Hne]; tauto.
Qed.

Lemma delete_keeps_others (l : list string) (k x : string) (i : nat) :
  l !! i = Some k -> x ∈ l -> x <> k -> x ∈ delete i l.
Proof.
  intros Hi Hx Hne. rewrite <- (take_drop_middle l i k Hi) in Hx.
  rewrite delete_take_drop. rewrite !elem_of_app, elem_of_cons in *.
  destruct Hx as [Hx|[->|Hx]]; tauto.
Qed.

Section Lowercase.
Variable ToLower : string -> string.

Local Abbreviation keywords_ok := (Filter.keywords_ok ToLower).
Local Abbreviation blacklist_ok := (FilterLaws.blacklist_ok ToLower).

(** *** The category map follows the keyword list *)

Lemma categories_ok_New : categories_ok NewKeywordFilter.
Proof. intros k c Hk. cbn in Hk. now rewrite lookup_empty in Hk. Qed.

Lemma categories_ok_AddKeyword (kf : KeywordFilter) (keyword category : string) :
  categories_ok kf -> categories_ok (AddKeyword ToLower kf keyword category).
Proof.
  intros Hok. unfold AddKeyword.
  destruct (containsKeyword kf (ToLower keyword)); cbn [negb]; [exact Hok|].
  intros k c. cbn [categoryMap keywords]. rewrite elem_of_app.
  destruct (String.eqb_spec category "") as [->|Hc]; cbn [negb].
  - intros Hk. destruct (Hok k c Hk). tauto.
  - rewrite lookup_insert. case_decide as Hd.
    + intros [= <-]. subst k. split; [right; left | exact Hc].
    + intros Hk. destruct (Hok k c Hk). tauto.
Qed.

Lemma categories_ok_AddKeywords (kf : KeywordFilter) (kws : list string)
    (category : string) :
  categories_ok kf -> categories_ok (AddKeywords ToLower kf kws category).
Proof.
  unfold AddKeywords. revert kf.
  induction kws as [|k kws IHk]; intros kf Hok; [exact Hok|].
  cbn [foldl]. apply IHk. now apply categories_ok_AddKeyword.
Qed.

Lemma categories_ok_RemoveKeyword (kf : KeywordFilter) (keyword : string) :
  categories_ok kf -> categories_ok (RemoveKeyword ToLower kf keyword).
Proof.
  intros Hok. unfold RemoveKeyword.
  destruct (firstIndex (keywords kf) (ToLower keyword)) as [i|] eqn:Ei;
    [|exact Hok].
  apply firstIndex_Some in Ei as [Hi _].
  intros k c. cbn [categoryMap keywords]. rewrite lookup_delete.
  case_decide as Hd; [discriminate|]. intros Hk.
  destruct (Hok k c Hk) as [Hin Hc]. split; [|exact Hc].
  rewrite <- delete_take_drop. eapply delete_keeps_others; eauto.
Qed.

Lemma categories_ok_mutate (kf : KeywordFilter) (m : Mutation) :
  categories_ok kf -> categories_ok (mutate ToLower kf m).
Proof.
  intros Hok. destruct m as [k c|ks c|k|ks|k|k]; cbn [mutate].
  - now apply categories_ok_AddKeyword.
  - now apply categories_ok_AddKeywords.
  - unfold AddToBlacklist.
    now destruct (containsBlacklistKeyword kf (ToLower k)).
  - unfold AddBlacklist. revert kf Hok.
    induction ks as [|k ks IHk]; intros kf Hok; [exact Hok|].
    cbn [foldl]. apply IHk. unfold AddToBlacklist.
    now destruct (containsBlacklistKeyword kf (ToLower k)).
  - now apply categories_ok_RemoveKeyword.
  - unfold RemoveFromBlacklist.
    now destruct (firstIndex (blacklist kf) (ToLower k)).
Qed.

(** X1.  After every history of calls, each entry of the category map
    belongs to a keyword that is in the list and holds a non-empty
    category; so [GetCategory] answers [""] for every keyword that is not
    in the list. *)
Theorem category_map_follows_keywords (history : list Mutation) :
  categories_ok (filterAfter ToLower history) /\
  forall keyword,
    ToLower keyword ∉ keywords (filterAfter ToLower history) ->
    GetCategory ToLower (filterAfter ToLower history) keyword = "".
Proof.
  assert (Hok : categories_ok (filterAfter ToLower history)).
  { unfold filterAfter. generalize categories_ok_New.
    generalize NewKeywordFilter as kf.
    induction history as [|m ms IHm]; intros kf Hok; [exact Hok|].
    cbn [foldl]. apply IHm. now apply categories_ok_mutate. }
  split; [exact Hok|]. intros keyword Hk. unfold GetCategory.
  destruct (categoryMap _ !! ToLower keyword) as [c|] eqn:Ec; [|reflexivity].
  destruct (Hok _ _ Ec). contradiction.
Qed.

(** X2.  For a keyword that is not yet in the list, [AddKeyword] with a
    non-empty category makes [GetCategory] return that category for every
    spelling of the keyword, and changes the category of no other keyword;
    with the empty category it leaves the category map as it was. *)
Theorem GetCategory_AddKeyword_fresh
    (kf : KeywordFilter) (keyword category other : string) :
  ToLower keyword ∉ keywords kf ->
  (category <> "" ->
   ToLower other = ToLower keyword ->
   GetCategory ToLower (AddKeyword ToLower kf keyword category) other
     = category) /\
  (ToLower other <> ToLower keyword ->
   GetCategory ToLower (AddKeyword ToLower kf keyword category) other
     = GetCategory ToLower kf other) /\
  (category = "" ->
   categoryMap (AddKeyword ToLower kf keyword category) = categoryMap kf).
Proof.
  intros Hfresh. unfold AddKeyword, GetCategory.
  destruct (containsKeyword kf (ToLower keyword)) eqn:Ec.
  { apply containsKeyword_true in Ec. contradiction. }
  cbn [negb categoryMap].
  destruct (String.eqb_spec category "") as [->|Hc]; cbn [negb].
  - split; [congruence|]. split; reflexivity.
  - split; [|split; [|congruence]].
    + intros _ ->. now rewrite lookup_insert_eq.
    + intros Hne. now rewrite lookup_insert_ne by congruence.
Qed.

(** *** Adding and removing *)

Lemma categories_ok_filterAfter (history : list Mutation) :
  categories_ok (filterAfter ToLower history).
Proof.
  unfold filterAfter. generalize categories_ok_New.
  generalize NewKeywordFilter as kf.
  induction history as [|m ms IHm]; intros kf Hok; [exact Hok|].
  cbn [foldl]. apply IHm. now apply categories_ok_mutate.
Qed.

Lemma RemoveKeyword_AddKeyword (kf : KeywordFilter) (keyword category : string) :
  categories_ok kf ->
  ToLower keyword ∉ keywords kf ->
  RemoveKeyword ToLower (AddKeyword ToLower kf keyword category) keyword = kf.
Proof.
  intros Hok Hfresh.
  assert (Hnone : categoryMap kf !! ToLower keyword = None).
  { destruct (categoryMap kf !! ToLower keyword) as [c|] eqn:Ec; [|reflexivity].
    destruct (Hok _ _ Ec). contradiction. }
  unfold AddKeyword.
  destruct (containsKeyword kf (ToLower keyword)) eqn:Ec.
  { apply containsKeyword_true in Ec. contradiction. }
  cbn [negb]. unfold RemoveKeyword. cbn [keywords blacklist categoryMap].
  rewrite (firstIndex_app_fresh _ _ Hfresh).
  destruct kf as [kws bl cm]. cbn [keywords blacklist categoryMap] in *.
  f_equal.
  - rewrite take_app_length, drop_ge by (rewrite length_app; cbn; lia).
    apply app_nil_r.
  - destruct (String.eqb category ""); cbn [negb].
    + now apply delete_id.
    + now apply delete_insert_id.
Qed.

(** X3.  On a filter reached from [NewKeywordFilter], adding a keyword
    that is not in the list and then removing it gives back the filter as
    it was: keyword list, blacklist and category map. *)
Theorem RemoveKeyword_undoes_AddKeyword
    (history : list Mutation) (keyword category : string) :
  ToLower keyword ∉ keywords (filterAfter ToLower history) ->
  RemoveKeyword ToLower
    (AddKeyword ToLower (filterAfter ToLower history) keyword category)
    keyword
  = filterAfter ToLower history.
Proof.
  intros Hfresh. apply RemoveKeyword_AddKeyword; [|exact Hfresh].
  apply categories_ok_filterAfter.
Qed.

(** *** The blacklist *)

Lemma containsBlacklistKeyword_true (kf : KeywordFilter) (keyword : string) :
  containsBlacklistKeyword kf keyword = true <-> keyword ∈ blacklist kf.
Proof.
  unfold containsBlacklistKeyword. rewrite existsb_exists. split.
  - intros (k & Hin & Hk). apply String.eqb_eq in Hk as <-.
    now apply list_elem_of_In.
  - intros Hin. exists keyword. split; [now apply list_elem_of_In|].
    apply String.eqb_refl.
Qed.

(** X4.  After [AddToBlacklist], [MatchContent] rejects every content whose
    lowered form contains the lowered entry, whatever the keywords, and
    answers as before for every other content: a blacklist entry never
    creates a match. *)
Theorem MatchContent_AddToBlacklist
    (kf : KeywordFilter) (keyword content : string) :
  MatchContent ToLower (AddToBlacklist ToLower kf keyword) content
  = if Contains (ToLower content) (ToLower keyword) then (false, "")
    else MatchContent ToLower kf content.
Proof.
  unfold AddToBlacklist, MatchContent.
  destruct (String.eqb content ""); [now destruct (Contains _ _)|].
  destruct (containsBlacklistKeyword kf (ToLower keyword)) eqn:Ec;
    cbn [negb blacklist keywords].
  - destruct (Contains (ToLower content) (ToLower keyword)) eqn:Eb;
      [|reflexivity].
    apply containsBlacklistKeyword_true in Ec.
    assert (Hex : existsb (fun b => Contains (ToLower content) b) (blacklist kf)
                  = true).
    { apply existsb_exists. exists (ToLower keyword).
      split; [now apply list_elem_of_In | exact Eb]. }
    now rewrite Hex.
  - rewrite existsb_app. cbn [existsb]. rewrite orb_false_r.
    destruct (existsb _ (blacklist kf)); cbn [orb].
    + now destruct (Contains _ _).
    + reflexivity.
Qed.

Lemma find_snoc {A} (f : A -> bool) (l : list A) (x : A) :
  find f (l ++ [x])
  = match find f l with
    | Some y => Some y
    | None => if f x then Some x else None
    end.
Proof.
  induction l as [|y l IHl]; cbn [app find]; [reflexivity|].
  now destruct (f y).
Qed.

(** X5.  [AddKeyword] never changes a match: a content matched before is
    matched by the same keyword after, and a content that is newly matched
    is matched by the added keyword, lowered. *)
Theorem MatchContent_AddKeyword
    (kf : KeywordFilter) (keyword category content : string) :
  (forall kw, MatchContent ToLower kf content = (true, kw) ->
     MatchContent ToLower (AddKeyword ToLower kf keyword category) content
       = (true, kw)) /\
  (forall kw,
     MatchContent ToLower (AddKeyword ToLower kf keyword category) content
       = (true, kw) ->
     MatchContent ToLower kf content = (true, kw) \/
     (MatchContent ToLower kf content = (false, "") /\
      kw = ToLower keyword /\ occurs kw (ToLower content))).
Proof.
  unfold AddKeyword.
  destruct (containsKeyword kf (ToLower keyword)); cbn [negb]; [now auto|].
  unfold MatchContent. cbn [keywords blacklist].
  destruct (String.eqb content ""); [split; intros kw; [auto|discriminate]|].
  destruct (existsb _ (blacklist kf)); [split; intros kw; [auto|discriminate]|].
  rewrite find_snoc.
  destruct (find _ (keywords kf)) as [k|]; [now auto|].
  split; intros kw; [discriminate|].
  destruct (Contains (ToLower content) (ToLower keyword)) eqn:Ec;
    [|discriminate].
  intros [= <-]. right. split; [reflexivity|]. split; [reflexivity|].
  now apply Contains_spec.
Qed.

End Lowercase.

Section LowercaseIdem.
Variable ToLower : string -> string.
Hypothesis ToLower_idem : forall s, ToLower (ToLower s) = ToLower s.

Local Abbreviation blacklist_ok := (FilterLaws.blacklist_ok ToLower).

Lemma blacklist_ok_AddToBlacklist (kf : KeywordFilter) (keyword : string) :
  blacklist_ok kf -> blacklist_ok (AddToBlacklist ToLower kf keyword).
Proof.
  intros [Hlow Hnd]. unfold AddToBlacklist.
  destruct (containsBlacklistKeyword kf (ToLower keyword)) eqn:Ec; cbn [negb].
  - now split.
  - split; cbn [blacklist].
    + apply Forall_app. split; [exact Hlow|]. constructor; [|constructor].
      apply ToLower_idem.
    + apply NoDup_app. split; [exact Hnd|]. split; [|apply NoDup_singleton].
      intros k Hk Hk'. apply list_elem_of_singleton in Hk' as ->.
      apply containsBlacklistKeyword_true in Hk. congruence.
Qed.

Lemma blacklist_ok_AddBlacklist (kf : KeywordFilter) (kws : list string) :
  blacklist_ok kf -> blacklist_ok (AddBlacklist ToLower kf kws).
Proof.
  unfold AddBlacklist. revert kf.
  induction kws as [|k kws IHk]; intros kf Hok; [exact Hok|].
  cbn [foldl]. apply IHk. now apply blacklist_ok_AddToBlacklist.
Qed.

Lemma blacklist_ok_RemoveFromBlacklist (kf : KeywordFilter) (keyword : string) :
  blacklist_ok kf -> blacklist_ok (RemoveFromBlacklist ToLower kf keyword).
Proof.
  intros [Hlow Hnd]. unfold RemoveFromBlacklist.
  destruct (firstIndex (blacklist kf) (ToLower keyword)) as [i|]; [|now split].
  split; cbn [blacklist]; rewrite <- delete_take_drop.
  - now apply Forall_delete.
  - eapply sublist_NoDup; [exact Hnd | apply sublist_delete].
Qed.

Lemma blacklist_AddKeyword (kf : KeywordFilter) (keyword category : string) :
  blacklist (AddKeyword ToLower kf keyword category) = blacklist kf.
Proof.
  unfold AddKeyword. now destruct (containsKeyword kf (ToLower keyword)).
Qed.

Lemma blacklist_AddKeywords (kf : KeywordFilter) (kws : list string)
    (category : string) :
  blacklist (AddKeywords ToLower kf kws category) = blacklist kf.
Proof.
  unfold AddKeywords. revert kf.
  induction kws as [|k kws IHk]; intros kf; [reflexivity|].
  cbn [foldl]. now rewrite IHk, blacklist_AddKeyword.
Qed.

Lemma blacklist_RemoveKeyword (kf : KeywordFilter) (keyword : string) :
  blacklist (RemoveKeyword ToLower kf keyword) = blacklist kf.
Proof.
  unfold RemoveKeyword.
  now destruct (firstIndex (keywords kf) (ToLower keyword)).
Qed.

Lemma blacklist_ok_mutate (kf : KeywordFilter) (m : Mutation) :
  blacklist_ok kf -> blacklist_ok (mutate ToLower kf m).
Proof.
  intros Hok. destruct m as [k c|ks c|k|ks|k|k]; cbn [mutate].
  - unfold FilterLaws.blacklist_ok. now rewrite blacklist_AddKeyword.
  - unfold FilterLaws.blacklist_ok. now rewrite blacklist_AddKeywords.
  - now apply blacklist_ok_AddToBlacklist.
  - now apply blacklist_ok_AddBlacklist.
  - unfold FilterLaws.blacklist_ok. now rewrite blacklist_RemoveKeyword.
  - now apply blacklist_ok_RemoveFromBlacklist.
Qed.

Lemma blacklist_ok_filterAfter (history : list Mutation) :
  blacklist_ok (filterAfter ToLower history).
Proof.
  unfold filterAfter.
  assert (H0 : blacklist_ok NewKeywordFilter) by (split; constructor).
  revert H0. generalize NewKeywordFilter as kf.
  induction history as [|m ms IHm]; intros kf Hok; [exact Hok|].
  cbn [foldl]. apply IHm. now apply blacklist_ok_mutate.
Qed.

Lemma elem_of_remove_first (l : list string) (k x : string) :
  NoDup l ->
  x ∈ match firstIndex l k with
      | Some i => (take i l ++ drop (S i) l)%list
      | None => l
      end
  <-> x ∈ l /\ x <> k.
Proof.
  intros Hnd. destruct (firstIndex l k) as [i|] eqn:Ei.
  - apply firstIndex_Some in Ei as [Hi _]. rewrite <- delete_take_drop.
    now apply delete_first_NoDup.
  - apply firstIndex_None in Ei. split; [|tauto].
    intros Hx. split; [exact Hx | congruence].
Qed.

(** X6.  After every history of calls the blacklist holds lowered entries,
    each once; so one [RemoveFromBlacklist] takes an entry out for good:
    the lowered keyword is no longer in the blacklist, every other entry
    stays, and the keywords and categories are untouched. *)
Theorem RemoveFromBlacklist_removes
    (history : list Mutation) (keyword : string) :
  let kf := filterAfter ToLower history in
  let kf' := RemoveFromBlacklist ToLower kf keyword in
  blacklist_ok kf /\
  (forall b, b ∈ blacklist kf' <-> b ∈ blacklist kf /\ b <> ToLower keyword) /\
  keywords kf' = keywords kf /\
  categoryMap kf' = categoryMap kf.
Proof.
  intros kf kf'. pose proof (blacklist_ok_filterAfter history) as Hok.
  fold kf in Hok. split; [exact Hok|]. destruct Hok as [_ Hnd].
  split.
  - intros b. rewrite <- (elem_of_remove_first _ _ _ Hnd).
    unfold kf', RemoveFromBlacklist.
    now destruct (firstIndex (blacklist kf) (ToLower keyword)).
  - unfold kf', RemoveFromBlacklist.
    now destruct (firstIndex (blacklist kf) (ToLower keyword)).
Qed.

(** X7.  On a filter reached from [NewKeywordFilter], [RemoveKeyword]
    takes the lowered keyword out of the list and keeps every other
    keyword; the keyword has no category afterwards, the blacklist is
    untouched, and [MatchContent] no longer reports that keyword. *)
Theorem RemoveKeyword_removes
    (history : list Mutation) (keyword : string) :
  let kf := filterAfter ToLower history in
  let kf' := RemoveKeyword ToLower kf keyword in
  (forall k, k ∈ keywords kf' <-> k ∈ keywords kf /\ k <> ToLower keyword) /\
  GetCategory ToLower kf' keyword = "" /\
  blacklist kf' = blacklist kf /\
  (forall content kw,
     MatchContent ToLower kf' content = (true, kw) -> kw <> ToLower keyword).
Proof.
  intros kf kf'.
  destruct (keywords_ok_filterAfter ToLower ToLower_idem history) as [_ Hnd].
  pose proof (categories_ok_filterAfter ToLower history) as Hcat.
  fold kf in Hnd, Hcat.
  assert (Hkeys : forall k,
            k ∈ keywords kf' <-> k ∈ keywords kf /\ k <> ToLower keyword).
  { intros k. rewrite <- (elem_of_remove_first _ _ _ Hnd).
    unfold kf', RemoveKeyword.
    now destruct (firstIndex (keywords kf) (ToLower keyword)). }
  split; [exact Hkeys|]. split; [|split].
  - unfold GetCategory.
    destruct (categoryMap kf' !! ToLower keyword) as [c|] eqn:Ec;
      [|reflexivity].
    pose proof (categories_ok_RemoveKeyword ToLower kf keyword Hcat) as Hcat'.
    destruct (Hcat' _ _ Ec) as [Hin _]. apply Hkeys in Hin. tauto.
  - apply blacklist_RemoveKeyword.
  - intros content kw Hm.
    assert (Hne : content <> "").
    { intros ->. discriminate. }
    apply MatchContent_true in Hm as [_ (i & Hi & _)]; [|exact Hne].
    apply list_elem_of_lookup_2 in Hi. apply Hkeys in Hi. tauto.
Qed.

End LowercaseIdem.

Lemma category_map_follows_keywords_witness :
  GetCategory ToLowerASCII
    (filterAfter ToLowerASCII
       [CallAddKeyword "Movie" "电影"; CallRemoveKeyword "MOVIE"])
    "movie" = "".
Proof.
  apply (proj2 (category_map_follows_keywords ToLowerASCII
                  [CallAddKeyword "Movie" "电影"; CallRemoveKeyword "MOVIE"])).
  vm_compute. intros H. inversion H.
Defined.

Lemma GetCategory_AddKeyword_fresh_witness :
  GetCategory ToLowerASCII
    (AddKeyword ToLowerASCII NewKeywordFilter "Movie" "电影") "MOVIE"
  = "电影".
Proof.
  refine (proj1 (GetCategory_AddKeyword_fresh ToLowerASCII NewKeywordFilter
                   "Movie" "电影" "MOVIE" _) _ _).
  - intros H. inversion H.
  - discriminate.
  - reflexivity.
Defined.

Lemma RemoveKeyword_undoes_AddKeyword_witness :
  RemoveKeyword ToLowerASCII
    (AddKeyword ToLowerASCII
       (filterAfter ToLowerASCII [CallAddKeyword "film" "电影"])
       "Movie" "电影")
    "MOVIE"
  = filterAfter ToLowerASCII [CallAddKeyword "film" "电影"].
Proof.
  change (RemoveKeyword ToLowerASCII ?kf "MOVIE")
    with (RemoveKeyword ToLowerASCII kf "Movie").
  apply (RemoveKeyword_undoes_AddKeyword ToLowerASCII
           [CallAddKeyword "film" "电影"] "Movie" "电影").
  vm_compute. intros H. apply list_elem_of_singleton in H. discriminate.
Defined.

Lemma RemoveFromBlacklist_removes_witness :
  blacklist_ok ToLowerASCII
    (filterAfter ToLowerASCII [CallAddBlacklist ["Teen"; "XXX"; "teen"]]).
Proof.
  exact (proj1 (RemoveFromBlacklist_removes ToLowerASCII ToLowerASCII_idem
                  [CallAddBlacklist ["Teen"; "XXX"; "teen"]] "xxx")).
Defined.

Lemma RemoveKeyword_removes_witness :
  GetCategory ToLowerASCII
    (RemoveKeyword ToLowerASCII
       (filterAfter ToLowerASCII [CallAddKeyword "Movie" "电影"]) "MOVIE")
    "MOVIE" = "".
Proof.
  exact (proj1 (proj2 (RemoveKeyword_removes ToLowerASCII ToLowerASCII_idem
                         [CallAddKeyword "Movie" "电影"] "MOVIE"))).
Defined.

Lemma MatchContent_AddKeyword_witness :
  MatchContent ToLowerASCII
    (AddKeyword ToLowerASCII
       {| keywords := ["movie"]; blacklist := []; categoryMap := ∅ |}
       "a" "其他")
    "A Movie" = (true, "movie").
Proof.
  apply (proj1 (MatchContent_AddKeyword ToLowerASCII
                  {| keywords := ["movie"]; blacklist := []; categoryMap := ∅ |}
                  "a" "其他" "A Movie")).
  reflexivity.
Defined.

End FilterExtras.

(** ** The encoder: values it does not support *)

Module BencodeExtras.

Lemma foldl_writeItem_Err {W} `{Writer W} (e : error) (l : list value) :
  foldl writeItem (Err e : result W) l = Err e.
Proof. induction l as [|x l IHl]; [reflexivity | exact IHl]. Qed.

Lemma foldl_writeEntry_Err {W} `{Writer W}
    (entries : list (string * (W -> result W))) (e : error) (ks : list string) :
  foldl (writeEntry entries) (Err e) ks = Err e.
Proof. induction ks as [|k ks IHk]; [reflexivity | exact IHk]. Qed.

Local Abbreviation unsupportedError r :=
  (exists ty, r = Err (ErrUnsupportedType ty)).

Lemma forallb_false_elem {A} (f : A -> bool) (l : list A) :
  forallb f l = false -> exists x, x ∈ l /\ f x = false.
Proof.
  induction l as [|x l IHl]; cbn [forallb]; [discriminate|].
  destruct (f x) eqn:Ex; cbn [andb].
  - intros Hl. destruct (IHl Hl) as (y & Hy & Hfy). exists y.
    split; [now right | exact Hfy].
  - intros _. exists x. split; [left | exact Ex].
Qed.

Lemma writeItems_unsupported (l : list value) :
  Forall wf_value l ->
  Forall (fun x => supported x = false ->
                   forall w : Buffer, unsupportedError (writeBencodedValue x w)) l ->
  forallb supported l = false ->
  forall w : Buffer, unsupportedError (foldl writeItem (Ok w) l).
Proof.
  induction l as [|x l IHl]; intros Hwf Hall Hsup w; [discriminate|].
  apply Forall_cons in Hwf as [Hx Hwf], Hall as [Hax Hall].
  cbn [forallb] in Hsup. cbn [foldl]. unfold writeItem at 2.
  rewrite bind_Ok. destruct (supported x) eqn:Ex; cbn [andb] in Hsup.
  - rewrite (writeBencodedValue_canonical x Hx Ex). now apply IHl.
  - destruct (Hax eq_refl w) as [ty ->]. rewrite foldl_writeItem_Err.
    now exists ty.
Qed.

Lemma writeEntries_unsupported (d : list (string * value)) (ks : list string) :
  Forall (fun e => wf_value e.2) d ->
  Forall (fun e => supported e.2 = false ->
                   forall w : Buffer, unsupportedError (writeBencodedValue e.2 w)) d ->
  (forall k, k ∈ ks -> k ∈ keys d) ->
  (exists k x, k ∈ ks /\ index d k = Some x /\ supported x = false) ->
  forall w : Buffer,
    unsupportedError
      (foldl (writeEntry (prod_map id writeBencodedValue <$> d)) (Ok w) ks).
Proof.
  intros Hwf Hall. induction ks as [|k ks IHk]; intros Hks Hbad w.
  { destruct Hbad as (k & x & Hk & _). inversion Hk. }
  cbn [foldl]. unfold writeEntry at 2. write_steps. rewrite index_fmap.
  destruct (index_is_Some d k) as [x Hx]; [apply Hks; left|].
  rewrite Hx. cbn [fmap option_fmap option_map].
  pose proof (index_Some_elem _ _ _ Hx) as Hin.
  rewrite Forall_forall in Hwf, Hall.
  destruct (supported x) eqn:Ex.
  - rewrite (writeBencodedValue_canonical x (Hwf _ Hin) Ex).
    apply IHk.
    + intros k' Hk'. apply Hks. now right.
    + destruct Hbad as (k' & x' & Hk' & Hx' & Hs').
      apply elem_of_cons in Hk' as [->|Hk']; [congruence|].
      now exists k', x'.
  - destruct (Hall _ Hin Ex (((w ++ Itoa (len k)) ++ ":") ++ k)) as [ty Hty].
    cbn [snd] in Hty. rewrite Hty, foldl_writeEntry_Err. now exists ty.
Qed.

Lemma writeBencodedValue_unsupported (v : value) :
  wf_value v -> supported v = false ->
  forall w : Buffer, unsupportedError (writeBencodedValue v w).
Proof.
  induction v as [s|n|n|l IHl|d IHd|ty] using value_ind';
    intros Hwf Hsup w; try discriminate.
  - rewrite writeBencodedValue_VList. write_steps.
    apply wf_value_VList in Hwf.
    assert (Hall : Forall (fun x => supported x = false ->
              forall w : Buffer, unsupportedError (writeBencodedValue x w)) l).
    { rewrite Forall_forall in IHl, Hwf |- *. intros x Hx. apply IHl; auto. }
    destruct (writeItems_unsupported l Hwf Hall Hsup (w ++ "l")) as [ty ->].
    now exists ty.
  - rewrite writeBencodedValue_VDict. unfold writeBencodedDict.
    rewrite writeDictEntries_fold. write_steps. rewrite keys_fmap.
    apply wf_value_VDict in Hwf as [Hnd Hwf].
    rewrite supported_VDict in Hsup.
    apply forallb_false_elem in Hsup as ([k x] & Hin & Hx). cbn [snd] in Hx.
    assert (Hall : Forall (fun e => supported e.2 = false ->
              forall w : Buffer, unsupportedError (writeBencodedValue e.2 w)) d).
    { rewrite Forall_forall in IHd, Hwf |- *. intros e He. apply IHd; auto. }
    destruct (writeEntries_unsupported d (sortStrings (keys d)) Hwf Hall)
      with (w := w ++ "d") as [ty ->].
    + intros k'. now rewrite sortStrings_Permutation.
    + exists k, x. split; [|split; [|exact Hx]].
      * rewrite sortStrings_Permutation. unfold keys.
        apply list_elem_of_fmap. now exists (k, x).
      * now apply index_elem_NoDup.
    + now exists ty.
  - now exists ty.
Qed.

(** X8.  The encoder succeeds exactly on the values it supports: it writes
    a value made of strings, integers, lists and dictionaries, and on a
    value that holds anything else, at any depth, it returns the error
    that names an unsupported type; [calculateInfoHash] then returns that
    error and no hash. *)
Theorem encoder_succeeds_iff_supported (v : value) (w : Buffer) :
  wf_value v ->
  ((exists w', writeBencodedValue v w = Ok w') <-> supported v = true) /\
  (supported v = false ->
   exists ty, writeBencodedValue v w = Err (ErrUnsupportedType ty)) /\
  (forall info, v = VDict info -> supported v = false ->
   exists ty, calculateInfoHash info = Err (ErrUnsupportedType ty)).
Proof.
  intros Hwf. split; [|split].
  - split.
    + intros [w' Hw']. destruct (supported v) eqn:Es; [reflexivity|].
      destruct (writeBencodedValue_unsupported v Hwf Es w) as [ty Hty].
      congruence.
    + intros Hs. rewrite (writeBencodedValue_canonical v Hwf Hs). eauto.
  - intros Hs. now apply writeBencodedValue_unsupported.
  - intros info -> Hs. unfold calculateInfoHash.
    destruct (writeBencodedValue_unsupported _ Hwf Hs "") as [ty Hty].
    rewrite writeBencodedValue_VDict in Hty. rewrite Hty. now exists ty.
Qed.

Lemma encoder_succeeds_iff_supported_witness :
  exists ty,
    calculateInfoHash
      [("name", VString "a"); ("files", VList [VInt 1; VOther "float64"])]
    = Err (ErrUnsupportedType ty).
Proof.
  refine (proj2 (proj2 (encoder_succeeds_iff_supported
    (VDict [("name", VString "a"); ("files", VList [VInt 1; VOther "float64"])])
    "" _)) _ eq_refl eq_refl).
  cbn. repeat split; auto.
  apply NoDup_cons. split; [|apply NoDup_singleton].
  intros H. apply list_elem_of_singleton in H. discriminate.
Defined.

End BencodeExtras.

(** ** The ingest pipeline: conversion, classification, the loop *)

Module CrawlerExtras.
Import FilterClaims CrawlerClaims.

(** X9.  [convertToTorrentMetadata] succeeds exactly on a dictionary that
    holds a string under [name]: anything but a dictionary is refused as
    invalid metadata, a dictionary without a string [name] as having no
    name.  On success the name and the info-hash are carried over, and an
    integer [length] makes the result a single file whatever [files]
    holds. *)
Theorem convertToTorrentMetadata_cases (infoHash : string) (metadata : value) :
  (asDict (Some metadata) = None ->
   convertToTorrentMetadata infoHash metadata = Err ErrInvalidMetadata) /\
  (forall info,
     metadata = VDict info -> asString (index info "name") = None ->
     convertToTorrentMetadata infoHash metadata = Err ErrNoName) /\
  (forall info name,
     metadata = VDict info -> index info "name" = Some (VString name) ->
     exists md,
       convertToTorrentMetadata infoHash metadata = Ok md /\
       Name md = name /\ InfoHash md = infoHash /\
       (forall n, index info "length" = Some (VInt64 n) \/
                  index info "length" = Some (VInt n) ->
                  Length md = n /\ Files md = [])) /\
  ((exists md, convertToTorrentMetadata infoHash metadata = Ok md) <->
   (exists info name,
      metadata = VDict info /\ index info "name" = Some (VString name))).
Proof.
  assert (Hok : forall info name,
     metadata = VDict info -> index info "name" = Some (VString name) ->
     exists md,
       convertToTorrentMetadata infoHash metadata = Ok md /\
       Name md = name /\ InfoHash md = infoHash /\
       (forall n, index info "length" = Some (VInt64 n) \/
                  index info "length" = Some (VInt n) ->
                  Length md = n /\ Files md = [])).
  { intros info name -> Hname. unfold convertToTorrentMetadata.
    cbn [asDict]. rewrite Hname. cbn [asString].
    match goal with |- context [let '(files, length) := ?e in _] =>
      destruct e as [files length] eqn:E end.
    eexists. split; [reflexivity|]. cbn [Name InfoHash Length Files].
    split; [reflexivity|]. split; [reflexivity|].
    intros n [Hn|Hn]; rewrite Hn in E; cbn [asInt64 asInt] in E;
      now injection E as <- <-. }
  split; [|split; [|split; [exact Hok|]]].
  - unfold convertToTorrentMetadata. now intros ->.
  - intros info -> Hname. unfold convertToTorrentMetadata.
    cbn [asDict]. now rewrite Hname.
  - split.
    + intros [md Hmd]. unfold convertToTorrentMetadata in Hmd.
      destruct metadata as [| | | |info|]; try discriminate.
      cbn [asDict] in Hmd.
      destruct (index info "name") as [[name| | | | |]|] eqn:En;
        try discriminate.
      now exists info, name.
    + intros (info & name & Hm & Hname).
      destruct (Hok info name Hm Hname) as (md & Hmd & _). now exists md.
Qed.

Lemma convertToTorrentMetadata_cases_witness :
  exists md,
    convertToTorrentMetadata "h"
      (VDict [("name", VString "a"); ("length", VInt 5);
              ("files", VList [VDict [("length", VInt 3)]])]) = Ok md /\
    Name md = "a" /\ InfoHash md = "h" /\
    (forall n, index [("name", VString "a"); ("length", VInt 5);
                      ("files", VList [VDict [("length", VInt 3)]])] "length"
                 = Some (VInt64 n) \/
               index [("name", VString "a"); ("length", VInt 5);
                      ("files", VList [VDict [("length", VInt 3)]])] "length"
                 = Some (VInt n) ->
               Length md = n /\ Files md = []).
Proof.
  apply (proj1 (proj2 (proj2 (convertToTorrentMetadata_cases "h"
    (VDict [("name", VString "a"); ("length", VInt 5);
            ("files", VList [VDict [("length", VInt 3)]])]))))
    _ "a" eq_refl eq_refl).
Defined.

(** *** The classifier *)

Lemma firstKeywordCategory_Some (lowerName : string)
    (visit : list (string * list string)) (category : string) :
  firstKeywordCategory lowerName visit = Some category ->
  exists words,
    (category, words) ∈ visit /\
    existsb (fun word => Contains lowerName word) words = true.
Proof.
  induction visit as [|[c ws] visit IHv]; cbn [firstKeywordCategory];
    [discriminate|].
  destruct (existsb _ ws) eqn:Ew.
  - intros [= <-]. exists ws. split; [left | exact Ew].
  - intros Hc. destruct (IHv Hc) as (words & Hin & Hw).
    exists words. split; [now right | exact Hw].
Qed.

Lemma firstKeywordCategory_None_iff (lowerName : string)
    (visit : list (string * list string)) :
  firstKeywordCategory lowerName visit = None <->
  forall e, e ∈ visit ->
    existsb (fun word => Contains lowerName word) e.2 = false.
Proof.
  induction visit as [|[c ws] visit IHv]; cbn [firstKeywordCategory].
  - split; [intros _ e He; inversion He | reflexivity].
  - destruct (existsb _ ws) eqn:Ew.
    + split; [discriminate|]. intros Hall.
      specialize (Hall (c, ws) ltac:(left)). cbn [snd] in Hall. congruence.
    + rewrite IHv. split.
      * intros Hall e He. apply elem_of_cons in He as [->|He]; auto.
      * intros Hall e He. apply Hall. now right.
Qed.

(** The categories the classifier can answer. *)
Local Abbreviation answers :=
  ["电影"; "视频"; "音乐"; "图片"; "文档"; "压缩包"; "电视剧"; "游戏";
   "软件"; "动漫"; "电子书"; "合集"; "其他"; "未知"].

Section Environment.
Variable ToLower : string -> string.
Variable QueryEscape : string -> string.

Lemma categorizeContent_answers (visit : list (string * list string))
    (name : string) (fileCount size : Z) :
  visit ≡ₚ keywordTable ->
  categorizeContent ToLower visit name fileCount size ∈ answers.
Proof.
  intros Hperm. unfold categorizeContent.
  destruct (firstKeywordCategory _ visit) as [c|] eqn:Ec.
  - apply firstKeywordCategory_Some in Ec as (words & Hin & _).
    rewrite Hperm in Hin. apply list_elem_of_In in Hin.
    repeat match goal with
    | |- context [if ?b then _ else _] => destruct b
    end; apply list_elem_of_In; cbn in Hin |- *; try tauto;
    repeat (destruct Hin as [[= <- _]|Hin]; [tauto|]); destruct Hin.
  - repeat match goal with
    | |- context [if ?b then _ else _] => destruct b
    end; apply list_elem_of_In; cbn; tauto.
Qed.

Lemma categorizeContent_nonempty (visit : list (string * list string))
    (name : string) (fileCount size : Z) :
  visit ≡ₚ keywordTable ->
  categorizeContent ToLower visit name fileCount size <> "".
Proof.
  intros Hperm He.
  pose proof (categorizeContent_answers visit name fileCount size Hperm) as Hin.
  rewrite He in Hin. apply list_elem_of_In in Hin. cbn in Hin.
  repeat (destruct Hin as [Hin|Hin]; [discriminate|]). destruct Hin.
Qed.

Lemma Category_convert (now : Time) (visit : list (string * list string))
    (md : TorrentMetadata) (category : string) :
  visit ≡ₚ keywordTable ->
  Category (convertMetadataToTorrent ToLower QueryEscape now visit md category)
    <> "".
Proof.
  intros Hperm. unfold convertMetadataToTorrent.
  match goal with |- context [if IsZero ?t then _ else _] =>
    destruct (IsZero t) end; cbn [Category];
  (destruct (String.eqb_spec category "") as [->|Hc];
    [now apply categorizeContent_nonempty | exact Hc]).
Qed.

(** X10.  Whatever the name, the file count and the size, and in whatever
    order the keyword table is visited, [categorizeContent] answers one of
    fourteen categories, never the empty string; so the record built by
    [convertMetadataToTorrent] always has a category. *)
Theorem categorizeContent_never_empty (visit : list (string * list string))
    (name : string) (fileCount size : Z) (now : Time) (md : TorrentMetadata)
    (category : string) :
  visit ≡ₚ keywordTable ->
  categorizeContent ToLower visit name fileCount size ∈ answers /\
  categorizeContent ToLower visit name fileCount size <> "" /\
  Category (convertMetadataToTorrent ToLower QueryEscape now visit md category)
    <> "".
Proof.
  intros Hperm.
  split; [now apply categorizeContent_answers|].
  split; [now apply categorizeContent_nonempty | now apply Category_convert].
Qed.

(** X11.  The order in which the keyword table is visited matters only
    when words of two categories occur in the name: when at most one entry
    of the table has a word that occurs in the lowered name, every visiting
    order gives the same category. *)
Theorem categorizeContent_order_independent
    (visit1 visit2 : list (string * list string))
    (name : string) (fileCount size : Z) :
  visit1 ≡ₚ keywordTable -> visit2 ≡ₚ keywordTable ->
  (forall e1 e2, e1 ∈ keywordTable -> e2 ∈ keywordTable ->
     existsb (fun word => Contains (ToLower name) word) e1.2 = true ->
     existsb (fun word => Contains (ToLower name) word) e2.2 = true ->
     e1 = e2) ->
  categorizeContent ToLower visit1 name fileCount size
  = categorizeContent ToLower visit2 name fileCount size.
Proof.
  intros Hp1 Hp2 Huniq. unfold categorizeContent.
  assert (Hfirst : firstKeywordCategory (ToLower name) visit1
                   = firstKeywordCategory (ToLower name) visit2).
  { destruct (firstKeywordCategory _ visit1) as [c1|] eqn:E1;
      destruct (firstKeywordCategory _ visit2) as [c2|] eqn:E2;
      [| | |reflexivity].
    - apply firstKeywordCategory_Some in E1 as (w1 & Hin1 & Hw1).
      apply firstKeywordCategory_Some in E2 as (w2 & Hin2 & Hw2).
      rewrite Hp1 in Hin1. rewrite Hp2 in Hin2.
      now injection (Huniq _ _ Hin1 Hin2 Hw1 Hw2) as -> _.
    - apply firstKeywordCategory_Some in E1 as (w1 & Hin1 & Hw1).
      rewrite firstKeywordCategory_None_iff in E2.
      rewrite Hp1, <- Hp2 in Hin1. specialize (E2 _ Hin1). cbn [snd] in E2.
      congruence.
    - apply firstKeywordCategory_Some in E2 as (w2 & Hin2 & Hw2).
      rewrite firstKeywordCategory_None_iff in E1.
      rewrite Hp2, <- Hp1 in Hin2. specialize (E1 _ Hin2). cbn [snd] in E1.
      congruence. }
  now rewrite Hfirst.
Qed.

End Environment.

(** *** The loop and the store *)

Section Ingest.
Variable ToLower : string -> string.
Variable QueryEscape : string -> string.
Variable Decode : string -> result value.
Context {DB : Type} `{Database DB}.

Local Abbreviation processResponse :=
  (Crawler.processResponse ToLower QueryEscape Decode).
Local Abbreviation processMetadata :=
  (Crawler.processMetadata ToLower QueryEscape Decode).

(** Every heat increment and every insert comes right after the probe of
    the same info-hash, and an inserted record is a new, matched one. *)
Local Abbreviation disciplined c ops :=
  ((forall (i : nat) h,
      ops !! i = Some (OpIncrementTorrentHeat h) ->
      exists j : nat, i = S j /\ ops !! j = Some (OpInfoHashExists h)) /\
   (forall (i : nat) t,
      ops !! i = Some (OpAddTorrent t) ->
      (exists (j : nat) h,
         i = S j /\ ops !! j = Some (OpInfoHashExists h) /\
         TInfoHash t = EncodeToString h) /\
      Heat t = 1 /\ Source t = "DHT" /\ Title t <> "" /\
      (exists kw, MatchContent ToLower (filter c) (Title t) = (true, kw)) /\
      FileCount t >= 1 /\ Category t <> "")).

Lemma disciplined_nil (c : Crawler) : disciplined c (@nil StoreOp).
Proof. split; intros i x Hi; rewrite lookup_nil in Hi; discriminate. Qed.

Lemma disciplined_app (c : Crawler) (ops1 ops2 : list StoreOp) :
  disciplined c ops1 -> disciplined c ops2 -> disciplined c (ops1 ++ ops2)%list.
Proof.
  intros [Hi1 Ha1] [Hi2 Ha2]. split.
  - intros i h Hi. apply lookup_app_Some in Hi as [Hi|[Hge Hi]].
    + destruct (Hi1 _ _ Hi) as (j & -> & Hj). exists j.
      split; [reflexivity|]. now apply lookup_app_l_Some.
    + destruct (Hi2 _ _ Hi) as (j & Hij & Hj). exists (length ops1 + j)%nat.
      split; [lia|]. rewrite lookup_app_r by lia.
      now replace (length ops1 + j - length ops1)%nat with j by lia.
  - intros i t Hi. apply lookup_app_Some in Hi as [Hi|[Hge Hi]].
    + destruct (Ha1 _ _ Hi) as [(j & h & -> & Hj & Hh) Hrest].
      split; [|exact Hrest]. exists j, h.
      split; [reflexivity|]. split; [now apply lookup_app_l_Some | exact Hh].
    + destruct (Ha2 _ _ Hi) as [(j & h & Hij & Hj & Hh) Hrest].
      split; [|exact Hrest]. exists (length ops1 + j)%nat, h.
      split; [lia|]. split; [|exact Hh]. rewrite lookup_app_r by lia.
      now replace (length ops1 + j - length ops1)%nat with j by lia.
Qed.

Lemma processResponse_disciplined (c : Crawler) (rt : Runtime)
    (resp : Response) (db : DB) :
  visit rt ≡ₚ keywordTable ->
  disciplined c (processResponse c rt resp db).2 /\
  (length (processResponse c rt resp db).2 <= 2)%nat.
Proof.
  intros Hperm. unfold Crawler.processResponse.
  destruct (Decode (MetadataInfo resp)) as [metadata|e];
    [|split; [apply disciplined_nil | cbn; lia]].
  destruct (convertToTorrentMetadata (RInfoHash resp) metadata) as [md|e];
    [|split; [apply disciplined_nil | cbn; lia]].
  destruct (String.eqb_spec (Name md) "") as [Hn|Hn];
    [split; [apply disciplined_nil | cbn; lia]|].
  destruct (InfoHashExists db (InfoHash md)) as [[|]|e].
  - destruct (IncrementTorrentHeat db (InfoHash md)) as [db' o].
    cbn [snd]. split; [|cbn; lia]. split.
    + intros [|[|i]] h Hi; try discriminate. injection Hi as <-.
      now exists 0%nat.
    + intros [|[|i]] t Hi; discriminate.
  - destruct (MatchContent ToLower (filter c) (Name md)) as [[|] kw] eqn:Em;
      cbn [negb].
    + match goal with |- context [AddTorrent db ?t] =>
        set (torrent := t); destruct (AddTorrent db torrent) as [db' o] end.
      cbn [snd]. split; [|cbn; lia]. split.
      * intros [|[|i]] h Hi; discriminate.
      * intros [|[|i]] t Hi; try discriminate. injection Hi as <-.
        split; [exists 0%nat, (InfoHash md)|].
        { split; [reflexivity|]. split; [reflexivity|].
          apply convertMetadataToTorrent_fields. }
        pose proof (convertMetadataToTorrent_fields ToLower QueryEscape
                      (now rt) (visit rt) md
                      (if String.eqb (GetCategory ToLower (filter c) kw) ""
                       then categorizeContent ToLower (visit rt) (Name md)
                              (Z.of_nat (length (Files md))) (Length md)
                       else GetCategory ToLower (filter c) kw))
          as (Hheat & Hsrc & _ & Htitle & _).
        fold torrent in Hheat, Hsrc, Htitle.
        split; [exact Hheat|]. split; [exact Hsrc|].
        rewrite Htitle. split; [exact Hn|]. split; [now exists kw|].
        split.
        -- unfold torrent. rewrite FileCount_convert.
           destruct (Z.eqb_spec (Z.of_nat (length (Files md))) 0); lia.
        -- now apply Category_convert.
    + cbn [snd]. split; [|cbn; lia]. split;
        intros [|[|i]] x Hi; discriminate.
  - cbn [snd]. split; [|cbn; lia]. split;
      intros [|[|i]] x Hi; discriminate.
Qed.

Lemma processMetadata_disciplined (c : Crawler)
    (arrivals : list (Runtime * Response)) (db : DB) :
  Forall (fun a : Runtime * Response => visit a.1 ≡ₚ keywordTable) arrivals ->
  disciplined c (processMetadata c arrivals db).2 /\
  (length (processMetadata c arrivals db).2 <= 2 * length arrivals)%nat.
Proof.
  revert db. induction arrivals as [|[rt resp] arrivals IHa]; intros db Hall.
  { split; [apply disciplined_nil | cbn; lia]. }
  apply Forall_cons in Hall as [Hrt Hall]. cbn [fst] in Hrt.
  cbn [Crawler.processMetadata].
  destruct (running c); cbn [negb];
    [|split; [apply disciplined_nil | cbn; lia]].
  destruct (processResponse_disciplined c rt resp db Hrt) as [Hd1 Hl1].
  destruct (processResponse c rt resp db) as [db1 ops1].
  destruct (IHa db1 Hall) as [Hd2 Hl2].
  destruct (processMetadata c arrivals db1) as [db2 ops2].
  cbn [snd] in *. split; [now apply disciplined_app|].
  rewrite length_app. cbn [length]. lia.
Qed.

(** X12.  Whatever arrives and whatever the store answers, the loop of
    [processMetadata] issues at most two store calls per response; every
    heat increment and every insert comes right after the probe of the same
    info-hash; and every record it inserts has heat 1, source "DHT", a
    title that is not empty and that the filter matches, a file count of at
    least 1 and a category that is not empty. *)
Theorem processMetadata_store_discipline (c : Crawler)
    (arrivals : list (Runtime * Response)) (db : DB) :
  Forall (fun a : Runtime * Response => visit a.1 ≡ₚ keywordTable) arrivals ->
  let ops := (processMetadata c arrivals db).2 in
  (length ops <= 2 * length arrivals)%nat /\
  (forall (i : nat) h,
     ops !! i = Some (OpIncrementTorrentHeat h) ->
     exists j : nat, i = S j /\ ops !! j = Some (OpInfoHashExists h)) /\
  (forall (i : nat) t,
     ops !! i = Some (OpAddTorrent t) ->
     (exists (j : nat) h,
        i = S j /\ ops !! j = Some (OpInfoHashExists h) /\
        TInfoHash t = EncodeToString h) /\
     Heat t = 1 /\ Source t = "DHT" /\ Title t <> "" /\
     (exists kw, MatchContent ToLower (filter c) (Title t) = (true, kw)) /\
     FileCount t >= 1 /\ Category t <> "").
Proof.
  intros Hall ops.
  destruct (processMetadata_disciplined c arrivals db Hall) as [[Hi Ha] Hl].
  split; [exact Hl|]. split; [exact Hi | exact Ha].
Qed.

End Ingest.

Lemma processMetadata_store_discipline_witness :
  (length
     (processMetadata ToLowerASCII (fun s => s) decodeExamples
        {| filter := AddKeyword ToLowerASCII NewKeywordFilter "movie" "";
           running := true |}
        [({| now := Unix 1700000000; visit := keywordTable |},
          {| RInfoHash := "ab";
             MetadataInfo := "d6:lengthi7e4:name9:movie.mkve" |})]
        {| database.Torrents := [] |}).2 <= 2 * 1)%nat.
Proof.
  refine (proj1 (processMetadata_store_discipline ToLowerASCII (fun s => s)
    decodeExamples
    {| filter := AddKeyword ToLowerASCII NewKeywordFilter "movie" "";
       running := true |}
    [({| now := Unix 1700000000; visit := keywordTable |},
      {| RInfoHash := "ab";
         MetadataInfo := "d6:lengthi7e4:name9:movie.mkve" |})]
    {| database.Torrents := [] |} _)).
  repeat constructor.
Defined.

Lemma categorizeContent_never_empty_witness :
  categorizeContent ToLowerASCII (reverse keywordTable) "Some Movie OST" 3 0
    <> "".
Proof.
  apply (categorizeContent_never_empty ToLowerASCII (fun s => s)
           (reverse keywordTable) "Some Movie OST" 3 0 zeroTime
           {| InfoHash := ""; Name := ""; Length := 0; Files := [];
              PieceLength := 0; Pieces := ""; Private := 0; Announce := "";
              Comment := ""; Creation := zeroTime |} "").
  apply reverse_Permutation.
Defined.

Lemma categorizeContent_order_independent_witness :
  categorizeContent ToLowerASCII keywordTable "Ubuntu Linux" 1 0
  = categorizeContent ToLowerASCII (reverse keywordTable) "Ubuntu Linux" 1 0.
Proof.
  apply (categorizeContent_order_independent ToLowerASCII
           keywordTable (reverse keywordTable) "Ubuntu Linux" 1 0).
  - reflexivity.
  - apply reverse_Permutation.
  - intros e1 e2 H1 H2.
    apply list_elem_of_In in H1, H2. cbn in H1, H2.
    repeat (destruct H1 as [<-|H1]; [|]); try destruct H1;
    repeat (destruct H2 as [<-|H2]; [|]); try destruct H2;
    vm_compute; intros; congruence.
Defined.

(** With words of two categories in the name the answer follows the
    visiting order. *)
Example categorizeContent_order_matters :
  categorizeContent ToLowerASCII keywordTable "Some Movie OST" 3 0 = "电影" /\
  categorizeContent ToLowerASCII (reverse keywordTable) "Some Movie OST" 3 0
    = "音乐".
Proof. split; reflexivity. Qed.

End CrawlerExtras.

(** ** The store under the loop *)

Module StoreExtras.
Import FilterClaims CrawlerClaims.

(** The keys of the unique index, in the order of the documents. *)
Local Abbreviation keysOf coll := (TInfoHash <$> coll).

Lemma UpdateOne_keys (coll : list Torrent) (key : string) :
  keysOf (database.UpdateOne coll key).1 = keysOf coll /\
  (database.UpdateOne coll key).2 = None.
Proof.
  induction coll as [|t coll [IHk IHe]]; [split; reflexivity|].
  cbn [database.UpdateOne].
  destruct (String.eqb (TInfoHash t) key); [split; reflexivity|].
  destruct (database.UpdateOne coll key) as [coll' err]. cbn [fst snd] in *.
  split; [|exact IHe]. rewrite !fmap_cons. now f_equal.
Qed.

Lemma holds_keys (coll : list Torrent) (key : string) :
  (exists t, t ∈ coll /\ TInfoHash t = key) <-> key ∈ keysOf coll.
Proof.
  rewrite list_elem_of_fmap. split.
  - intros (t & Hin & <-). now exists t.
  - intros (t & -> & Hin). now exists t.
Qed.

(** X13.  [AddTorrent] is an upsert under the unique index: it never
    fails and never makes a second record for an info-hash.  When the
    info-hash is taken, the record that holds it keeps its place and its
    fields and has its heat raised by one, and the record offered is not
    stored; when it is free, the record offered is appended.  Afterwards
    the store holds a record under that info-hash. *)
Theorem AddTorrent_upsert (db : database.DB) (torrent : Torrent) :
  NoDup (keysOf (database.Torrents db)) ->
  let out := database.AddTorrent db torrent in
  out.2 = None /\
  NoDup (keysOf (database.Torrents out.1)) /\
  TInfoHash torrent ∈ keysOf (database.Torrents out.1) /\
  (TInfoHash torrent ∈ keysOf (database.Torrents db) ->
   exists pre t post,
     database.Torrents db = (pre ++ t :: post)%list /\
     TInfoHash t = TInfoHash torrent /\
     database.Torrents out.1
       = (pre ++ withHeat t (Heat t + 1) :: post)%list) /\
  (TInfoHash torrent ∉ keysOf (database.Torrents db) ->
   database.Torrents out.1 = (database.Torrents db ++ [torrent])%list).
Proof.
  intros Hnd out. subst out.
  destruct (decide (TInfoHash torrent ∈ keysOf (database.Torrents db)))
    as [Hin|Hout].
  - destruct (AddTorrent_taken db torrent (proj2 (holds_keys _ _) Hin))
      as (pre & t & post & Hc & Ht & ->).
    cbn [fst snd database.Torrents].
    assert (Hkeys : keysOf (pre ++ withHeat t (Heat t + 1) :: post)%list
                    = keysOf (database.Torrents db)).
    { rewrite Hc, !fmap_app, !fmap_cons. reflexivity. }
    split; [reflexivity|]. split; [now rewrite Hkeys|].
    split; [now rewrite Hkeys|]. split; [|contradiction].
    intros _. now exists pre, t, post.
  - rewrite AddTorrent_new.
    2:{ intros t Ht Hk. apply Hout. apply holds_keys. now exists t. }
    cbn [fst snd database.Torrents]. split; [reflexivity|].
    split; [|split; [|split; [contradiction | reflexivity]]].
    + rewrite fmap_app. apply NoDup_app. split; [exact Hnd|].
      split; [|apply NoDup_singleton].
      intros k Hk Hk'. apply list_elem_of_singleton in Hk'. congruence.
    + rewrite fmap_app, elem_of_app. right. left.
Qed.

Lemma AddTorrent_upsert_witness :
  (database.AddTorrent {| database.Torrents := [exampleRecord] |}
     (withHeat exampleRecord 7)).2 = None.
Proof.
  apply (AddTorrent_upsert {| database.Torrents := [exampleRecord] |}
           (withHeat exampleRecord 7)).
  apply NoDup_singleton.
Defined.

Section Ingest.
Variable ToLower : string -> string.
Variable QueryEscape : string -> string.
Variable Decode : string -> result value.

Local Abbreviation processResponse :=
  (Crawler.processResponse ToLower QueryEscape Decode).
Local Abbreviation processMetadata :=
  (Crawler.processMetadata ToLower QueryEscape Decode).

(** The index grows at its end, and stays free of duplicates. *)
Lemma extends_refl (db : database.DB) :
  (exists new,
     keysOf (database.Torrents db)
     = (keysOf (database.Torrents db) ++ new)%list) /\
  (NoDup (keysOf (database.Torrents db)) ->
   NoDup (keysOf (database.Torrents db))).
Proof. split; [exists []; now rewrite app_nil_r | auto]. Qed.

Lemma processResponse_extends (c : Crawler) (rt : Runtime) (resp : Response)
    (db : database.DB) :
  (exists new,
     keysOf (database.Torrents (processResponse c rt resp db).1)
     = (keysOf (database.Torrents db) ++ new)%list) /\
  (NoDup (keysOf (database.Torrents db)) ->
   NoDup (keysOf (database.Torrents (processResponse c rt resp db).1))).
Proof.
  unfold Crawler.processResponse.
  destruct (Decode (MetadataInfo resp)) as [metadata|e];
    [|apply extends_refl].
  destruct (convertToTorrentMetadata (RInfoHash resp) metadata) as [md|e];
    [|apply extends_refl].
  destruct (String.eqb (Name md) ""); [apply extends_refl|].
  cbn [InfoHashExists IncrementTorrentHeat AddTorrent Store].
  destruct (database.InfoHashExists db (InfoHash md)) as [[|]|e];
    [| |apply extends_refl].
  - unfold database.IncrementTorrentHeat.
    pose proof (UpdateOne_keys (database.Torrents db)
                  (EncodeToString (InfoHash md))) as [Hk _].
    destruct (database.UpdateOne _ _) as [coll err].
    cbn [fst snd database.Torrents] in *. rewrite Hk.
    split; [exists []; now rewrite app_nil_r | auto].
  - destruct (MatchContent ToLower (filter c) (Name md)) as [[|] kw];
      cbn [negb]; [|apply extends_refl].
    match goal with |- context [database.AddTorrent db ?t] =>
      set (torrent := t) end.
    split.
    + destruct (decide (TInfoHash torrent ∈ keysOf (database.Torrents db)))
        as [Hin|Hout].
      * destruct (AddTorrent_taken db torrent (proj2 (holds_keys _ _) Hin))
          as (pre & t & post & Hc & Ht & ->).
        cbn [fst database.Torrents]. exists [].
        rewrite Hc, !fmap_app, !fmap_cons, app_nil_r. reflexivity.
      * rewrite AddTorrent_new.
        2:{ intros t Ht Hk. apply Hout. apply holds_keys. now exists t. }
        cbn [fst database.Torrents]. exists [TInfoHash torrent].
        now rewrite fmap_app.
    + intros Hnd.
      destruct (database.AddTorrent db torrent) as [db' err] eqn:Ea.
      cbn [fst]. change db' with (db', err).1. rewrite <- Ea.
      now apply AddTorrent_upsert.
Qed.

(** X14.  However many responses the loop of [processMetadata] handles,
    the store only grows at its end: every record keeps its place and its
    info-hash, new info-hashes are appended, and an index without
    duplicates stays without duplicates. *)
Theorem processMetadata_store_grows (c : Crawler)
    (arrivals : list (Runtime * Response)) (db : database.DB) :
  let db' := (processMetadata c arrivals db).1 in
  (exists new,
     keysOf (database.Torrents db')
     = (keysOf (database.Torrents db) ++ new)%list) /\
  (NoDup (keysOf (database.Torrents db)) ->
   NoDup (keysOf (database.Torrents db'))).
Proof.
  revert db. induction arrivals as [|[rt resp] arrivals IHa]; intros db;
    cbn [Crawler.processMetadata]; [apply extends_refl|].
  destruct (running c); cbn [negb]; [|apply extends_refl].
  pose proof (processResponse_extends c rt resp db) as [[new1 H1] Hnd1].
  destruct (processResponse c rt resp db) as [db1 ops1].
  specialize (IHa db1). cbn zeta in IHa.
  destruct (processMetadata c arrivals db1) as [db2 ops2].
  cbn [fst] in *. destruct IHa as [[new2 H2] Hnd2]. split; [|auto].
  exists (new1 ++ new2)%list. now rewrite H2, H1, app_assoc.
Qed.

End Ingest.

Lemma processMetadata_store_grows_witness :
  NoDup
    (keysOf
       (database.Torrents
          (processMetadata ToLowerASCII (fun s => s) decodeExamples
             {| filter := AddKeyword ToLowerASCII NewKeywordFilter "movie" "";
                running := true |}
             [({| now := Unix 1700000000; visit := keywordTable |},
               {| RInfoHash := "ab";
                  MetadataInfo := "d6:lengthi7e4:name9:movie.mkve" |})]
             {| database.Torrents := [] |}).1)).
Proof.
  apply (processMetadata_store_grows ToLowerASCII (fun s => s) decodeExamples
    {| filter := AddKeyword ToLowerASCII NewKeywordFilter "movie" "";
       running := true |}
    [({| now := Unix 1700000000; visit := keywordTable |},
      {| RInfoHash := "ab";
         MetadataInfo := "d6:lengthi7e4:name9:movie.mkve" |})]
    {| database.Torrents := [] |}).
  apply NoDup_nil_2.
Defined.

End StoreExtras.

(** ** Setting the crawler up *)

Module SetupExtras.
Import FilterClaims CrawlerClaims.

(** *** The listen address *)

Local Abbreviation byte c := (String c EmptyString).

Lemma Contains_byte_cons (c d : ascii) (s : string) :
  Contains (String d s) (byte c) = Ascii.eqb d c || Contains s (byte c).
Proof.
  rewrite Contains_cons. f_equal. unfold HasPrefix. cbn [String.prefix].
  destruct (ascii_dec c d) as [->|Hne].
  - rewrite Ascii.eqb_refl. now destruct s.
  - symmetry. apply Ascii.eqb_neq. congruence.
Qed.

Lemma Contains_byte_nil (c : ascii) : Contains "" (byte c) = false.
Proof. reflexivity. Qed.

Lemma Split_not_nil (s : string) (sep : ascii) : Split s sep <> [].
Proof.
  destruct s as [|c s]; cbn [Split]; [discriminate|].
  destruct (Ascii.eqb c sep); [discriminate|].
  destruct (Split s sep); discriminate.
Qed.

Lemma Split_without (s : string) (sep : ascii) :
  Contains s (byte sep) = false -> Split s sep = [s].
Proof.
  induction s as [|c s IHs]; [reflexivity|].
  rewrite Contains_byte_cons. intros Hc.
  apply orb_false_iff in Hc as [Hc Hs].
  cbn [Split]. now rewrite Hc, (IHs Hs).
Qed.

Lemma Split_at (h r : string) (sep : ascii) :
  Contains h (byte sep) = false ->
  Split (h ++ byte sep ++ r) sep = h :: Split r sep.
Proof.
  change (byte sep ++ r) with (String sep r).
  induction h as [|c h IHh].
  - intros _. rewrite append_nil_l. cbn [Split].
    now rewrite Ascii.eqb_refl.
  - rewrite Contains_byte_cons. intros Hc.
    apply orb_false_iff in Hc as [Hc Hh].
    rewrite append_cons. cbn [Split]. now rewrite Hc, (IHh Hh).
Qed.

(** A string either has no separator or breaks at its first one. *)
Lemma first_separator (s : string) (sep : ascii) :
  Contains s (byte sep) = false \/
  exists h r, s = h ++ byte sep ++ r /\ Contains h (byte sep) = false.
Proof.
  induction s as [|c s IHs]; [now left|].
  rewrite Contains_byte_cons.
  destruct (Ascii.eqb_spec c sep) as [->|Hne].
  - right. exists "", s. split; [reflexivity | reflexivity].
  - destruct IHs as [Hs|(h & r & -> & Hh)].
    + left. exact Hs.
    + right. exists (String c h), r. split; [reflexivity|].
      rewrite Contains_byte_cons, Hh.
      now apply Ascii.eqb_neq in Hne as ->.
Qed.

Lemma Split_two (s h p : string) (sep : ascii) :
  Split s sep = [h; p] <->
  s = h ++ byte sep ++ p /\
  Contains h (byte sep) = false /\ Contains p (byte sep) = false.
Proof.
  split.
  - intros Hs. destruct (first_separator s sep) as [Hno|(h' & r & -> & Hh')].
    { rewrite (Split_without _ _ Hno) in Hs. discriminate. }
    rewrite (Split_at _ _ _ Hh') in Hs. injection Hs as -> Hr.
    destruct (first_separator r sep) as [Hno|(h2 & r2 & -> & Hh2)].
    + rewrite (Split_without _ _ Hno) in Hr. injection Hr as ->. auto.
    + rewrite (Split_at _ _ _ Hh2) in Hr. injection Hr as _ Hr.
      now apply Split_not_nil in Hr.
  - intros (-> & Hh & Hp). now rewrite (Split_at _ _ _ Hh), (Split_without _ _ Hp).
Qed.

Section Scan.
Variable Sscanf_d : string -> option Z.

(** X15.  [parseListenAddr] accepts exactly the addresses with one colon
    whose part after the colon scans as an integer: it returns the part
    before the colon as host, or "0.0.0.0" when that part is empty, so
    never an empty host.  An address without a colon, or with more than
    one (a bracketed IPv6 address with its port, say), is refused as
    malformed. *)
Theorem parseListenAddr_one_colon (addr : string) :
  (forall host port,
     parseListenAddr Sscanf_d addr = inl (host, port) <->
     exists h p,
       addr = h ++ ":" ++ p /\
       Contains h ":" = false /\ Contains p ":" = false /\
       Sscanf_d p = Some port /\
       host = if String.eqb h "" then "0.0.0.0" else h) /\
  (forall host port,
     parseListenAddr Sscanf_d addr = inl (host, port) -> host <> "") /\
  (Contains addr ":" = false ->
   parseListenAddr Sscanf_d addr = inr (ErrAddrFormat addr)) /\
  (forall a b c, addr = a ++ ":" ++ b ++ ":" ++ c ->
   parseListenAddr Sscanf_d addr = inr (ErrAddrFormat addr)).
Proof.
  assert (Hiff : forall host port,
     parseListenAddr Sscanf_d addr = inl (host, port) <->
     exists h p,
       addr = h ++ ":" ++ p /\
       Contains h ":" = false /\ Contains p ":" = false /\
       Sscanf_d p = Some port /\
       host = if String.eqb h "" then "0.0.0.0" else h).
  { intros host port. unfold parseListenAddr. split.
    - destruct (Split addr ":") as [|h [|p [|x l]]] eqn:Es; try discriminate.
      apply Split_two in Es as (-> & Hh & Hp).
      destruct (Sscanf_d p) as [port'|] eqn:Ep; [|discriminate].
      intros [= <- <-]. exists h, p. auto.
    - intros (h & p & -> & Hh & Hp & Hport & ->).
      rewrite (proj2 (Split_two (h ++ ":" ++ p) h p ":"))
        by (split; [reflexivity | auto]).
      now rewrite Hport. }
  split; [exact Hiff|]. split; [|split].
  - intros host port Hp. apply Hiff in Hp as (h & p & _ & _ & _ & _ & ->).
    destruct (String.eqb_spec h ""); [discriminate | assumption].
  - intros Hno. unfold parseListenAddr. now rewrite (Split_without _ _ Hno).
  - intros a b c ->. unfold parseListenAddr.
    destruct (Split _ ":") as [|h [|p [|x l]]] eqn:Es; try reflexivity.
    exfalso. revert Es.
    destruct (first_separator a ":") as [Ha|(a1 & a2 & -> & Ha1)].
    + rewrite (Split_at _ _ _ Ha).
      destruct (first_separator b ":") as [Hb|(b1 & b2 & -> & Hb1)].
      * rewrite (Split_at _ _ _ Hb). intros [= _ _ E].
        now apply Split_not_nil in E.
      * rewrite !append_assoc, (Split_at _ _ _ Hb1).
        destruct (first_separator (b2 ++ ":" ++ c) ":")
          as [Hno|(x1 & x2 & Hx & Hx1)].
        { assert (Hc : Contains (b2 ++ ":" ++ c) ":" = true)
            by (apply Contains_spec; now exists b2, c).
          congruence. }
        rewrite Hx, (Split_at _ _ _ Hx1). discriminate.
    + rewrite !append_assoc, (Split_at _ _ _ Ha1).
      destruct (first_separator (a2 ++ ":" ++ b ++ ":" ++ c) ":")
        as [Hno|(x1 & x2 & Hx & Hx1)].
      { assert (Hc : Contains (a2 ++ ":" ++ b ++ ":" ++ c) ":" = true)
          by (apply Contains_spec; now exists a2, (b ++ ":" ++ c)).
        congruence. }
      rewrite Hx, (Split_at _ _ _ Hx1). intros [= _ _ E].
      now apply Split_not_nil in E.
Qed.

End Scan.

Lemma parseListenAddr_one_colon_witness :
  parseListenAddr parseInt ":6881" = inl ("0.0.0.0", 6881) /\
  parseListenAddr parseInt "[::1]:6881" = inr (ErrAddrFormat "[::1]:6881").
Proof.
  split.
  - apply (proj1 (parseListenAddr_one_colon parseInt ":6881")).
    exists "", "6881". repeat split; reflexivity.
  - apply (proj2 (proj2 (proj2
             (parseListenAddr_one_colon parseInt "[::1]:6881")))
             "[" "" "1]:6881").
    reflexivity.
Defined.

(** *** The filter of a new crawler *)

Lemma occurs_trans (a b c : string) : occurs a b -> occurs b c -> occurs a c.
Proof.
  intros (p & q & ->) (pre & post & ->).
  exists (pre ++ p), (q ++ post). now rewrite !append_assoc.
Qed.

Lemma plainLower_ToLowerASCII (s : string) :
  plainLower s = true -> ToLowerASCII s = s.
Proof.
  induction s as [|c s IHs]; [reflexivity|]. cbn [plainLower ToLowerASCII].
  intros Hc. apply andb_true_iff in Hc as [Hc Hs]. rewrite (IHs Hs). f_equal.
  unfold plainLowerByte in Hc. unfold lowerByte.
  apply andb_true_iff in Hc as [_ Hc].
  now destruct ((65 <=? N_of_ascii c) && (N_of_ascii c <=? 90))%N.
Qed.

(** The categories of the default keywords. *)
Local Abbreviation defaultCategories :=
  ["电影"; "电视剧"; "动漫"; "音乐"; "软件"; "游戏"; "电子书"].

Section Lowercase.
Variable ToLower : string -> string.

(** Lowering changes nothing in a string of ASCII bytes without capital
    letters. *)
Hypothesis ToLower_plain : forall s, plainLower s = true -> ToLower s = s.

Local Abbreviation match_iff_keyword_and_no_blacklist :=
  (Filter.match_iff_keyword_and_no_blacklist ToLower).

Lemma AddKeyword_plain (kf : KeywordFilter) (keyword category : string) :
  plainLower keyword = true ->
  AddKeyword ToLower kf keyword category
  = AddKeyword (fun s => s) kf keyword category.
Proof. intros Hk. unfold AddKeyword. now rewrite (ToLower_plain _ Hk). Qed.

Lemma AddKeywords_plain (kf : KeywordFilter) (kws : list string)
    (category : string) :
  forallb plainLower kws = true ->
  AddKeywords ToLower kf kws category
  = AddKeywords (fun s => s) kf kws category.
Proof.
  unfold AddKeywords. revert kf.
  induction kws as [|k kws IHk]; intros kf Hall; [reflexivity|].
  cbn [forallb] in Hall. apply andb_true_iff in Hall as [Hk Hall].
  cbn [foldl]. now rewrite (AddKeyword_plain _ _ _ Hk), (IHk _ Hall).
Qed.

Lemma AddBlacklist_plain (kf : KeywordFilter) (kws : list string) :
  forallb plainLower kws = true ->
  AddBlacklist ToLower kf kws = AddBlacklist (fun s => s) kf kws.
Proof.
  unfold AddBlacklist. revert kf.
  induction kws as [|k kws IHk]; intros kf Hall; [reflexivity|].
  cbn [forallb] in Hall. apply andb_true_iff in Hall as [Hk Hall].
  cbn [foldl]. rewrite <- (IHk _ Hall). f_equal.
  unfold AddToBlacklist. now rewrite (ToLower_plain _ Hk).
Qed.

(** The default words are plain, so the filter is the one read off the
    text of [initDefaultKeywords]. *)
Lemma defaultFilter_plain : defaultFilter ToLower = defaultFilter (fun s => s).
Proof.
  unfold defaultFilter, initDefaultKeywords.
  rewrite !AddKeywords_plain, AddBlacklist_plain by reflexivity.
  reflexivity.
Qed.

Lemma MatchContent_keyword (kf : KeywordFilter) (s kw : string) :
  MatchContent ToLower kf s = (true, kw) ->
  s <> "" /\ firstOccurring (keywords kf) (ToLower s) kw /\ kw ∈ keywords kf.
Proof.
  intros Hm. assert (Hne : s <> "") by (intros ->; discriminate).
  apply MatchContent_true in Hm as [_ Hfirst]; [|exact Hne].
  split; [exact Hne|]. split; [exact Hfirst|].
  destruct Hfirst as (i & Hi & _). eapply list_elem_of_lookup_2; eauto.
Qed.

(** A keyword that contains an earlier keyword of the list is never the
    one reported. *)
Lemma MatchContent_shadowed (kf : KeywordFilter) (i j : nat)
    (k1 k2 content : string) :
  NoDup (keywords kf) ->
  keywords kf !! i = Some k1 -> keywords kf !! j = Some k2 ->
  (i < j)%nat -> occurs k1 k2 ->
  MatchContent ToLower kf content <> (true, k2).
Proof.
  intros Hnd Hi Hj Hij Hocc Hm.
  apply MatchContent_keyword in Hm as (_ & (j' & Hj' & Ho & Hfirst) & _).
  assert (j' = j) as -> by (eapply NoDup_lookup; eauto).
  apply (Hfirst i k1 Hij Hi). eapply occurs_trans; eauto.
Qed.

Lemma defaultFilter_categories (k : string) :
  k ∈ keywords (defaultFilter ToLower) ->
  plainLower k = true /\
  GetCategory ToLower (defaultFilter ToLower) k ∈ defaultCategories.
Proof.
  rewrite defaultFilter_plain. intros Hk.
  assert (Hall : forallb
            (fun k => plainLower k &&
               bool_decide (default "" (categoryMap (defaultFilter (fun s => s)) !! k)
                              ∈ defaultCategories))
            (keywords (defaultFilter (fun s => s))) = true)
    by (vm_compute; reflexivity).
  rewrite forallb_forall in Hall. apply list_elem_of_In in Hk.
  specialize (Hall k Hk). apply andb_true_iff in Hall as [Hp Hc].
  split; [exact Hp|]. apply bool_decide_eq_true in Hc.
  unfold GetCategory. rewrite (ToLower_plain _ Hp).
  destruct (categoryMap _ !! k); exact Hc.
Qed.

(** X16.  The filter that [initDefaultKeywords] gives a new crawler holds
    each keyword once and no empty keyword or blacklist entry; so for
    every input, the empty one included, [MatchContent] reports a match
    exactly when some keyword occurs in the lowered input and no blacklist
    entry does.  Every one of its keywords has a category, and the keyword
    "pc game" is never the one reported, "game" coming before it. *)
Theorem defaultFilter_sound (content : string) :
  let kf := defaultFilter ToLower in
  NoDup (keywords kf) /\ NoDup (blacklist kf) /\
  ("" ∉ keywords kf) /\ ("" ∉ blacklist kf) /\
  match_iff_keyword_and_no_blacklist kf content /\
  (forall k, k ∈ keywords kf ->
     GetCategory ToLower kf k ∈ defaultCategories) /\
  MatchContent ToLower kf content <> (true, "pc game").
Proof.
  intros kf.
  assert (Hnd : NoDup (keywords kf)).
  { unfold kf. rewrite defaultFilter_plain.
    apply (bool_decide_unpack _). vm_compute. exact I. }
  assert (Hempty : "" ∉ keywords kf).
  { unfold kf. rewrite defaultFilter_plain.
    apply (bool_decide_unpack _). vm_compute. exact I. }
  split; [exact Hnd|]. split; [|split; [exact Hempty|split; [|split; [|split]]]].
  - unfold kf. rewrite defaultFilter_plain.
    apply (bool_decide_unpack _). vm_compute. exact I.
  - unfold kf. rewrite defaultFilter_plain.
    apply (bool_decide_unpack _). vm_compute. exact I.
  - apply match_iff_without_empty_keyword; [|exact Hempty].
    now apply ToLower_plain.
  - intros k Hk. now apply defaultFilter_categories.
  - apply (MatchContent_shadowed kf 39 40 "game" "pc game"); try exact Hnd.
    + unfold kf. rewrite defaultFilter_plain. vm_compute. reflexivity.
    + unfold kf. rewrite defaultFilter_plain. vm_compute. reflexivity.
    + lia.
    + now exists "pc ", "".
Qed.

Section Ingest.
Variable QueryEscape : string -> string.
Variable Decode : string -> result value.
Context {DB : Type} `{Database DB}.

Local Abbreviation processResponse :=
  (Crawler.processResponse ToLower QueryEscape Decode).
Local Abbreviation processMetadata :=
  (Crawler.processMetadata ToLower QueryEscape Decode).

Lemma Category_given (now : Time) (visit : list (string * list string))
    (md : TorrentMetadata) (category : string) :
  category <> "" ->
  Category (convertMetadataToTorrent ToLower QueryEscape now visit md category)
  = category.
Proof.
  intros Hc. unfold convertMetadataToTorrent.
  match goal with |- context [if IsZero ?t then _ else _] =>
    destruct (IsZero t) end; cbn [Category];
  now destruct (String.eqb_spec category "").
Qed.

Lemma in_defaultCategories_nonempty (category : string) :
  category ∈ defaultCategories -> category <> "".
Proof.
  intros Hin ->. apply list_elem_of_In in Hin. cbn in Hin.
  repeat (destruct Hin as [Hin|Hin]; [discriminate|]). destruct Hin.
Qed.

Lemma processResponse_default (c : Crawler) (rt : Runtime) (resp : Response)
    (db : DB) (t : Torrent) :
  filter c = defaultFilter ToLower ->
  OpAddTorrent t ∈ (processResponse c rt resp db).2 ->
  exists kw,
    MatchContent ToLower (filter c) (Title t) = (true, kw) /\
    Category t = GetCategory ToLower (filter c) kw /\
    Category t ∈ defaultCategories.
Proof.
  intros Hf. unfold Crawler.processResponse.
  destruct (Decode (MetadataInfo resp)) as [metadata|e];
    [|intros Hin; inversion Hin].
  destruct (convertToTorrentMetadata (RInfoHash resp) metadata) as [md|e];
    [|intros Hin; inversion Hin].
  destruct (String.eqb (Name md) ""); [intros Hin; inversion Hin|].
  destruct (InfoHashExists db (InfoHash md)) as [[|]|e].
  - destruct (IncrementTorrentHeat db (InfoHash md)) as [db' o]. cbn [snd].
    intros Hin. apply list_elem_of_In in Hin. cbn in Hin.
    destruct Hin as [|[|[]]]; discriminate.
  - destruct (MatchContent ToLower (filter c) (Name md)) as [[|] kw] eqn:Em;
      cbn [negb].
    + assert (Hcat : GetCategory ToLower (filter c) kw ∈ defaultCategories).
      { apply MatchContent_keyword in Em as (_ & _ & Hkw).
        rewrite Hf in Hkw |- *. now apply defaultFilter_categories. }
      pose proof (in_defaultCategories_nonempty _ Hcat) as Hne.
      destruct (String.eqb_spec (GetCategory ToLower (filter c) kw) "")
        as [?|_]; [congruence|].
      match goal with |- context [AddTorrent db ?t] =>
        set (torrent := t); destruct (AddTorrent db torrent) as [db' o] end.
      cbn [snd]. intros Hin. apply list_elem_of_In in Hin. cbn in Hin.
      destruct Hin as [|[Hin|[]]]; [discriminate|]. injection Hin as <-.
      exists kw.
      assert (Htitle : Title torrent = Name md)
        by apply convertMetadataToTorrent_fields.
      assert (Hc : Category torrent = GetCategory ToLower (filter c) kw)
        by now apply Category_given.
      rewrite Htitle, Hc. auto.
    + cbn [snd]. intros Hin. apply list_elem_of_singleton in Hin. discriminate.
  - cbn [snd]. intros Hin. apply list_elem_of_singleton in Hin. discriminate.
Qed.

(** X17.  A crawler that keeps the default filter files every record it
    inserts under the category of the keyword that matched its title, one
    of the seven categories of the default keywords: [categorizeContent]
    is never the one to decide. *)
Theorem processMetadata_default_categories (c : Crawler)
    (arrivals : list (Runtime * Response)) (db : DB) (t : Torrent) :
  filter c = defaultFilter ToLower ->
  OpAddTorrent t ∈ (processMetadata c arrivals db).2 ->
  exists kw,
    MatchContent ToLower (filter c) (Title t) = (true, kw) /\
    Category t = GetCategory ToLower (filter c) kw /\
    Category t ∈ defaultCategories.
Proof.
  intros Hf. revert db.
  induction arrivals as [|[rt resp] arrivals IHa]; intros db;
    cbn [Crawler.processMetadata].
  { intros Hin. inversion Hin. }
  destruct (running c); cbn [negb]; [|intros Hin; inversion Hin].
  pose proof (processResponse_default c rt resp db t Hf) as H1.
  destruct (processResponse c rt resp db) as [db1 ops1].
  specialize (IHa db1).
  destruct (processMetadata c arrivals db1) as [db2 ops2].
  cbn [snd] in *. intros Hin. apply elem_of_app in Hin as [Hin|Hin]; auto.
Qed.

End Ingest.

End Lowercase.

Lemma processMetadata_default_categories_witness :
  let c := {| filter := defaultFilter ToLowerASCII; running := true |} in
  let md :=
    {| InfoHash := "ab"; Name := "movie.mkv"; Length := 7; Files := [];
       PieceLength := 0; Pieces := ""; Private := 0; Announce := "";
       Comment := ""; Creation := zeroTime |} in
  let t :=
    convertMetadataToTorrent ToLowerASCII (fun s => s) (Unix 1700000000)
      keywordTable md "电影" in
  exists kw,
    MatchContent ToLowerASCII (filter c) (Title t) = (true, kw) /\
    Category t = GetCategory ToLowerASCII (filter c) kw /\
    Category t ∈ defaultCategories.
Proof.
  intros c md t.
  assert (Hf : filter c = defaultFilter ToLowerASCII) by reflexivity.
  pose proof (processMetadata_default_categories ToLowerASCII
           plainLower_ToLowerASCII (fun s => s) decodeExamples c
           [({| now := Unix 1700000000; visit := keywordTable |},
             {| RInfoHash := "ab";
                MetadataInfo := "d6:lengthi7e4:name9:movie.mkve" |})]
           {| database.Torrents := [] |} t Hf) as Hthm.
  apply Hthm.
  vm_compute.
  right; left.
Defined.

Lemma defaultFilter_sound_witness :
  MatchContent ToLowerASCII (defaultFilter ToLowerASCII) "My PC Game"
    <> (true, "pc game").
Proof.
  exact (proj2 (proj2 (proj2 (proj2 (proj2 (proj2
    (defaultFilter_sound ToLowerASCII plainLower_ToLowerASCII
       "My PC Game"))))))).
Defined.

End SetupExtras.

(** ** The engine: hexadecimal info-hashes and near identifiers *)

Module DHTExtras.
Import DHT DHTClaims.

(** *** Hexadecimal round trip *)

Lemma fromHexChar_hexdigit (c : ascii) :
  fromHexChar (hexdigit (N_of_ascii c / 16)) = Some (N_of_ascii c / 16)%N /\
  fromHexChar (hexdigit (N_of_ascii c mod 16)) = Some (N_of_ascii c mod 16)%N /\
  ascii_of_N (N_of_ascii c / 16 * 16 + N_of_ascii c mod 16) = c.
Proof. destruct c as [[] [] [] [] [] [] [] []]; vm_compute; auto. Qed.

Lemma DecodeString_EncodeToString (b : string) :
  DecodeString (EncodeToString b) = Ok b.
Proof.
  induction b as [|c b IHb]; [reflexivity|].
  cbn [EncodeToString DecodeString].
  destruct (fromHexChar_hexdigit c) as (-> & -> & Hc).
  now rewrite IHb, bind_Ok, Hc.
Qed.

Section Engine.
Context {Callback : Type}.
Implicit Type dht : @DHT Callback.

(** X18.  Decoding the hexadecimal form of a byte string gives the bytes
    back; so [GetPeers] does the same, queries and errors alike, whether
    it is given the 20 raw bytes of an info-hash or their 40 hexadecimal
    digits. *)
Theorem GetPeers_hex_or_raw dht (raw : string) :
  DecodeString (EncodeToString raw) = Ok raw /\
  (String.length raw = 20%nat ->
   rawInfoHash (EncodeToString raw) = Ok raw /\
   rawInfoHash raw = Ok raw /\
   GetPeers dht (EncodeToString raw) = GetPeers dht raw).
Proof.
  split; [apply DecodeString_EncodeToString|]. intros Hlen.
  assert (Hhex : rawInfoHash (EncodeToString raw) = Ok raw).
  { unfold rawInfoHash, Go.len.
    rewrite BencodeClaims.length_EncodeToString, Hlen. cbn.
    apply DecodeString_EncodeToString. }
  assert (Hraw : rawInfoHash raw = Ok raw).
  { unfold rawInfoHash, Go.len. now rewrite Hlen. }
  split; [exact Hhex|]. split; [exact Hraw|].
  unfold GetPeers. now rewrite Hhex, Hraw.
Qed.

End Engine.

Lemma GetPeers_hex_or_raw_witness :
  GetPeers standard9 (EncodeToString "aaaaaaaaaaaaaaaaaaa0")
  = GetPeers standard9 "aaaaaaaaaaaaaaaaaaa0".
Proof.
  apply (proj2 (GetPeers_hex_or_raw standard9 "aaaaaaaaaaaaaaaaaaa0")).
  reflexivity.
Defined.

(** *** Byte strings as numbers *)

Lemma foldl_bigEndian (l : list ascii) (a : N) :
  foldl (fun acc c => (acc * 256 + N_of_ascii c)%N) a l
  = (a * 256 ^ N.of_nat (length l)
     + foldl (fun acc c => (acc * 256 + N_of_ascii c)%N) 0 l)%N.
Proof.
  revert a. induction l as [|c l IHl]; intros a.
  - cbn. lia.
  - cbn [foldl length]. rewrite (IHl (a * 256 + N_of_ascii c)%N).
    rewrite (IHl (0 * 256 + N_of_ascii c)%N).
    rewrite Nat2N.inj_succ, N.pow_succ_r'. lia.
Qed.

Lemma list_ascii_of_string_app (s1 s2 : string) :
  list_ascii_of_string (s1 ++ s2)
  = (list_ascii_of_string s1 ++ list_ascii_of_string s2)%list.
Proof.
  induction s1 as [|c s1 IHs]; [now rewrite append_nil_l|].
  rewrite append_cons. cbn [list_ascii_of_string app]. now rewrite IHs.
Qed.

Lemma length_list_ascii_of_string (s : string) :
  length (list_ascii_of_string s) = String.length s.
Proof. induction s as [|c s IHs]; [reflexivity|]. cbn. now rewrite IHs. Qed.

Lemma bigEndian_app (s1 s2 : string) :
  bigEndian (s1 ++ s2)
  = (bigEndian s1 * 256 ^ N.of_nat (String.length s2) + bigEndian s2)%N.
Proof.
  unfold bigEndian. rewrite list_ascii_of_string_app, foldl_app.
  now rewrite foldl_bigEndian, length_list_ascii_of_string.
Qed.

Lemma bigEndian_bound (s : string) :
  (bigEndian s < 256 ^ N.of_nat (String.length s))%N.
Proof.
  unfold bigEndian. rewrite <- length_list_ascii_of_string.
  induction (list_ascii_of_string s) as [|c l IHl] using rev_ind.
  - cbn. lia.
  - rewrite foldl_app, length_app. cbn [foldl length].
    rewrite Nat.add_1_r, Nat2N.inj_succ, N.pow_succ_r'.
    pose proof (N_ascii_bounded c). lia.
Qed.

(** Two numbers with the same part above bit [k] differ below bit [k]. *)
Lemma lxor_same_high (h t1 t2 k : N) :
  (t1 < 2 ^ k)%N -> (t2 < 2 ^ k)%N ->
  (N.lxor (h * 2 ^ k + t1) (h * 2 ^ k + t2) < 2 ^ k)%N.
Proof.
  intros H1 H2.
  set (x := N.lxor (h * 2 ^ k + t1) (h * 2 ^ k + t2)).
  destruct (N.eq_dec x 0%N) as [->|Hx]; [apply N.neq_0_lt_0, N.pow_nonzero; lia|].
  apply N.log2_lt_pow2; [lia|].
  destruct (N.lt_ge_cases (N.log2 x) k) as [Hlt|Hge]; [exact Hlt|].
  exfalso. pose proof (N.bit_log2 x Hx) as Hbit.
  unfold x in Hbit at 1. rewrite N.lxor_spec in Hbit.
  assert (Hhigh : forall t, (t < 2 ^ k)%N ->
            N.testbit (h * 2 ^ k + t) (N.log2 x)
            = N.testbit h (N.log2 x - k)).
  { intros t Ht.
    replace (N.log2 x) with ((N.log2 x - k) + k)%N at 1 by lia.
    rewrite <- N.div_pow2_bits. f_equal.
    rewrite N.add_comm, N.div_add by (apply N.pow_nonzero; lia).
    rewrite N.div_small by exact Ht. reflexivity. }
  rewrite (Hhigh t1 H1), (Hhigh t2 H2), xorb_nilpotent in Hbit. discriminate.
Qed.

Section Engine.
Context {Callback : Type}.
Implicit Type dht : @DHT Callback.

(** X19.  Outside standard mode and for a 20-byte target, the identifier
    the engine presents is near the target, as its comment says: it has 20
    bytes, shares its first 15 bytes with the target, and its XOR distance
    to the target is below 2^40. *)
Theorem id_near_target dht (target : string) :
  Mode dht <> StandardMode ->
  String.length target = 20%nat ->
  String.length (id_RawString (self dht)) = 20%nat ->
  exists near,
    id dht target = Some near /\
    String.length near = 20%nat /\
    String.substring 0 15 near = String.substring 0 15 target /\
    (xorDistance near target < 2 ^ 40)%N.
Proof.
  intros Hmode Htarget Hself. unfold id, IsStandardMode.
  destruct (Z.eqb_spec (Mode dht) StandardMode) as [?|_]; [contradiction|].
  destruct (String.eqb_spec target "") as [->|_]; [discriminate|].
  cbn [orb]. unfold sliceTo, sliceFrom. rewrite Htarget, Hself.
  cbn [Nat.leb mbind option_bind Nat.sub].
  destruct (substring_prefix target 15 ltac:(lia)) as [Hhl [rest Hrest]].
  destruct (substring_suffix (id_RawString (self dht)) 15 ltac:(lia))
    as [Htl _].
  rewrite Hself in Htl. cbn [Nat.sub] in Htl.
  set (head := String.substring 0 15 target) in *.
  set (tail := String.substring 15 5 (id_RawString (self dht))) in *.
  assert (Hrl : String.length rest = 5%nat).
  { apply (f_equal String.length) in Hrest.
    rewrite length_append, Htarget, Hhl in Hrest. lia. }
  exists (head ++ tail). split; [reflexivity|].
  split; [rewrite length_append, Hhl, Htl; reflexivity|]. split.
  - clear -Hhl. revert Hhl. generalize head as h. intros h Hh.
    assert (Hgen : forall (n : nat) (s t : string),
              String.length s = n -> String.substring 0 n (s ++ t) = s).
    { induction n as [|n IHn]; intros [|c s] t Hs; try discriminate.
      - now destruct t.
      - rewrite append_cons. cbn [String.substring]. f_equal. apply IHn.
        cbn in Hs. lia. }
    now apply Hgen.
  - unfold xorDistance.
    replace (bigEndian target) with (bigEndian (head ++ rest))
      by (now rewrite <- Hrest).
    rewrite !bigEndian_app, Htl, Hrl.
    change (256 ^ N.of_nat 5)%N with (2 ^ 40)%N.
    apply lxor_same_high.
    + pose proof (bigEndian_bound tail) as Hb. rewrite Htl in Hb. exact Hb.
    + pose proof (bigEndian_bound rest) as Hb. rewrite Hrl in Hb. exact Hb.
Qed.

End Engine.

Lemma id_near_target_witness :
  exists near,
    id crawler20 "abcdefghijklmnopqrst" = Some near /\
    String.length near = 20%nat /\
    String.substring 0 15 near = String.substring 0 15 "abcdefghijklmnopqrst" /\
    (xorDistance near "abcdefghijklmnopqrst" < 2 ^ 40)%N.
Proof.
  apply (id_near_target crawler20 "abcdefghijklmnopqrst");
    [discriminate | reflexivity | reflexivity].
Defined.

End DHTExtras.

(** ** The engine's counters *)

Module MonitorExtras.
Import DHTMonitor CrawlerClaims.

Lemma add64_1 (n : Z) : 0 <= n < int64_max -> add64 n 1 = n + 1.
Proof.
  intros Hn. unfold add64. apply wrap64_small.
  unfold in_int64, int64_min, int64_max in *. lia.
Qed.

Lemma init_status (l : list string) (status : gmap string bool) (a : string) :
  foldl (fun status addr => <[addr := false]> status) status l !! a
  = if bool_decide (a ∈ l) then Some false else status !! a.
Proof.
  revert status. induction l as [|x l IHl]; intros status; [reflexivity|].
  cbn [foldl]. rewrite IHl.
  destruct (decide (a ∈ l)) as [Hin|Hout].
  - rewrite !bool_decide_eq_true_2; [reflexivity | now right | exact Hin].
  - rewrite (bool_decide_eq_false_2 _ Hout).
    destruct (decide (a = x)) as [->|Hne].
    + rewrite lookup_insert_eq, bool_decide_eq_true_2; [reflexivity | left].
    + rewrite lookup_insert_ne by congruence.
      rewrite bool_decide_eq_false_2; [reflexivity|].
      rewrite not_elem_of_cons. auto.
Qed.

Lemma init_size (l : list string) (status : gmap string bool) :
  (size (foldl (fun status addr => <[addr := false]> status) status l)
   <= size status + length l)%nat.
Proof.
  revert status. induction l as [|x l IHl]; intros status; cbn [foldl length];
    [lia|].
  specialize (IHl (<[x := false]> status)).
  pose proof (map_size_insert x false status) as Hs.
  destruct (status !! x); unfold id in Hs; lia.
Qed.

Lemma boot_ok_init (primeNodes : list string) :
  boot_ok primeNodes [] (initBootNodeStatus (New primeNodes)).
Proof.
  unfold boot_ok.
  cbn [initBootNodeStatus New PrimeNodes totalBootNodes bootNodeStatus
       connectedBootNodes].
  split; [reflexivity|]. split; [reflexivity|]. split; [|split].
  - pose proof (init_size primeNodes ∅) as Hs.
    rewrite map_size_empty in Hs. exact Hs.
  - intros a. rewrite init_status, lookup_empty.
    destruct (bool_decide (a ∈ primeNodes)); [|reflexivity].
    rewrite bool_decide_eq_false_2; [reflexivity | apply not_elem_of_nil].
  - symmetry. change 0 with (Z.of_nat 0). apply (f_equal Z.of_nat).
    apply map_size_empty_iff. unfold connected.
    apply map_empty. intros a. apply map_lookup_filter_None. right.
    intros status Ha Hs. cbn in Hs. subst.
    rewrite init_status, lookup_empty in Ha.
    destruct (bool_decide (a ∈ primeNodes)); discriminate.
Qed.

Lemma size_connected (status : gmap string bool) :
  (size (connected status) <= size status)%nat.
Proof. apply map_subseteq_size, map_filter_subseteq. Qed.

Lemma boot_ok_record (primeNodes seen : list string) (dht : Monitor)
    (addr : string) :
  Z.of_nat (length primeNodes) <= int64_max ->
  boot_ok primeNodes seen dht ->
  boot_ok primeNodes (seen ++ [addr])%list (recordNodeResponse dht addr).
Proof.
  intros Hmax (Hp & Ht & Hsize & Hstatus & Hc). unfold boot_ok, recordNodeResponse.
  destruct (bootNodeStatus dht !! addr) as [status|] eqn:Ea.
  - cbn [PrimeNodes totalBootNodes bootNodeStatus connectedBootNodes].
    split; [exact Hp|]. split; [exact Ht|].
    assert (Hin : addr ∈ primeNodes).
    { rewrite Hstatus in Ea.
      destruct (decide (addr ∈ primeNodes)); [assumption|].
      now rewrite bool_decide_eq_false_2 in Ea. }
    split; [|split].
    + pose proof (map_size_insert addr true (bootNodeStatus dht)) as Hs.
      rewrite Ea in Hs. unfold id in Hs. lia.
    + intros a. destruct (decide (a = addr)) as [->|Hne].
      * rewrite lookup_insert_eq, (bool_decide_eq_true_2 _ Hin).
        rewrite bool_decide_eq_true_2; [reflexivity|].
        rewrite elem_of_app. right. left.
      * rewrite lookup_insert_ne by congruence. rewrite Hstatus.
        destruct (bool_decide (a ∈ primeNodes)); [|reflexivity].
        f_equal. apply bool_decide_ext. rewrite elem_of_app.
        rewrite list_elem_of_singleton. tauto.
    + pose proof (size_connected (<[addr := true]> (bootNodeStatus dht)))
        as Hle'.
      pose proof (map_size_insert addr true (bootNodeStatus dht)) as Hs'.
      rewrite Ea in Hs'. unfold id in Hs'. rewrite Hs' in Hle'. clear Hs'.
      unfold connected in Hle' |- *.
      rewrite map_filter_insert_True in Hle' |- * by reflexivity.
      fold (connected (bootNodeStatus dht)) in Hle' |- *.
      pose proof (map_size_insert addr true (connected (bootNodeStatus dht)))
        as Hs.
      pose proof (size_connected (bootNodeStatus dht)) as Hle.
      destruct status; cbn [negb].
      * assert (Hl : connected (bootNodeStatus dht) !! addr = Some true)
          by (apply map_lookup_filter_Some; auto).
        rewrite Hl in Hs. unfold id in Hs. rewrite Hs. exact Hc.
      * assert (Hl : connected (bootNodeStatus dht) !! addr = None).
        { apply map_lookup_filter_None. right. intros x Hx.
          rewrite Ea in Hx. injection Hx as <-. discriminate. }
        rewrite Hl in Hs. rewrite Hs, Hc, add64_1.
        -- rewrite Nat2Z.inj_succ. reflexivity.
        -- unfold int64_max in *. lia.
  - destruct (decide (addr ∈ primeNodes)) as [Hin|Hout].
    { rewrite Hstatus, (bool_decide_eq_true_2 _ Hin) in Ea. discriminate. }
    split; [exact Hp|]. split; [exact Ht|]. split; [exact Hsize|].
    split; [|exact Hc]. intros a. rewrite Hstatus.
    destruct (decide (a ∈ primeNodes)) as [Ha|Ha];
      [|now rewrite (bool_decide_eq_false_2 _ Ha)].
    rewrite (bool_decide_eq_true_2 _ Ha). f_equal. apply bool_decide_ext.
    rewrite elem_of_app, list_elem_of_singleton.
    split; [tauto|]. intros [Hs|Hs]; [assumption | subst; contradiction].
Qed.

Lemma boot_ok_update (primeNodes seen : list string) (dht : Monitor)
    (infoHash : string) (peer : Peer) :
  boot_ok primeNodes seen dht ->
  boot_ok primeNodes seen (updatePeerStats dht infoHash peer).
Proof. intros Hok. exact Hok. Qed.

(** *** Peers found *)

Lemma hashCount_snoc (h infoHash : string) (peer : Peer)
    (seen : list (string * Peer)) :
  hashCount h (seen ++ [(infoHash, peer)])
  = (hashCount h seen + if bool_decide (infoHash = h) then 1 else 0)%nat.
Proof.
  unfold hashCount. rewrite filter_app, length_app. f_equal.
  rewrite filter_cons, filter_nil. cbn [fst].
  destruct (decide (infoHash = h)) as [Heq|Hne].
  - now rewrite (bool_decide_eq_true_2 _ Heq).
  - now rewrite (bool_decide_eq_false_2 _ Hne).
Qed.

Lemma hashCount_le (h : string) (seen : list (string * Peer)) :
  (hashCount h seen <= length seen)%nat.
Proof. unfold hashCount. apply length_filter. Qed.

Lemma peers_ok_update (seen : list (string * Peer)) (dht : Monitor)
    (infoHash : string) (peer : Peer) :
  Z.of_nat (length seen) < int64_max ->
  peers_ok seen dht ->
  peers_ok (seen ++ [(infoHash, peer)]) (updatePeerStats dht infoHash peer).
Proof.
  intros Hmax (Htotal & Hmap & Hcount & Hsize & Hactive).
  unfold peers_ok, updatePeerStats.
  cbn [totalPeersFound uniquePeerMap uniquePeersCount activeInfoHashes].
  rewrite length_app, fmap_app. cbn [length fmap list_fmap snd].
  split; [|split; [|split; [|split]]].
  - rewrite Htotal, add64_1; lia.
  - rewrite list_to_set_app_L, <- Hmap.
    destruct (decide (peerKey peer ∈ uniquePeerMap dht)) as [Hin|Hout].
    + rewrite bool_decide_eq_false_2 by tauto.
      apply set_eq. intros x.
      rewrite elem_of_union, elem_of_list_to_set, list_elem_of_singleton.
      split; [tauto | intros [Hx|Hx]; [assumption | now subst]].
    + rewrite (bool_decide_eq_true_2 _ Hout).
      apply set_eq. intros x.
      rewrite !elem_of_union, elem_of_list_to_set, list_elem_of_singleton.
      rewrite elem_of_singleton. tauto.
  - destruct (decide (peerKey peer ∈ uniquePeerMap dht)) as [Hin|Hout].
    + rewrite bool_decide_eq_false_2 by tauto. exact Hcount.
    + rewrite (bool_decide_eq_true_2 _ Hout).
      rewrite size_union
        by (intros x Hx Hx'; apply elem_of_singleton in Hx; now subst). rewrite size_singleton, Hcount.
      rewrite add64_1; lia.
  - destruct (decide (peerKey peer ∈ uniquePeerMap dht)) as [Hin|Hout].
    + rewrite bool_decide_eq_false_2 by tauto. lia.
    + rewrite (bool_decide_eq_true_2 _ Hout).
      rewrite size_union
        by (intros x Hx Hx'; apply elem_of_singleton in Hx; now subst). rewrite size_singleton. lia.
  - intros h. rewrite hashCount_snoc.
    pose proof (hashCount_le infoHash seen) as Hle.
    destruct (decide (infoHash = h)) as [<-|Hne].
    + rewrite bool_decide_eq_true_2 by reflexivity.
      rewrite (Hactive infoHash).
      destruct (Nat.eqb_spec (hashCount infoHash seen) 0) as [E|E].
      * rewrite lookup_insert_eq, E. reflexivity.
      * rewrite lookup_insert_eq.
        destruct (Nat.eqb_spec (hashCount infoHash seen + 1) 0); [lia|].
        f_equal. rewrite add64_1; lia.
    + rewrite (bool_decide_eq_false_2 _ Hne), Nat.add_0_r, <- (Hactive h).
      destruct (activeInfoHashes dht !! infoHash);
        now rewrite lookup_insert_ne.
Qed.

Lemma peers_ok_record (seen : list (string * Peer)) (dht : Monitor)
    (addr : string) :
  peers_ok seen dht -> peers_ok seen (recordNodeResponse dht addr).
Proof.
  intros Hok. unfold recordNodeResponse.
  destruct (bootNodeStatus dht !! addr); exact Hok.
Qed.

Lemma peers_ok_New (primeNodes : list string) :
  peers_ok [] (initBootNodeStatus (New primeNodes)).
Proof. unfold peers_ok. cbn. repeat split; reflexivity. Qed.

(** Both invariants hold along every run of events. *)
Lemma monitor_ok (primeNodes : list string) (events : list MonitorEvent) :
  Z.of_nat (length primeNodes) <= int64_max ->
  forall (addrs : list string) (peers : list (string * Peer)) (dht : Monitor),
    Z.of_nat (length (peers ++ found events)) <= int64_max ->
    boot_ok primeNodes addrs dht -> peers_ok peers dht ->
    boot_ok primeNodes (addrs ++ responded events)%list
      (foldl monitorStep dht events) /\
    peers_ok (peers ++ found events)%list (foldl monitorStep dht events).
Proof.
  intros Hprime. induction events as [|[addr|h peer] events IHe];
    intros addrs peers dht Hmax Hboot Hpeers.
  - cbn. now rewrite !app_nil_r.
  - cbn [foldl monitorStep responded found omap list_omap] in *.
    fold (responded events). fold (found events) in *.
    replace (addrs ++ addr :: responded events)%list
      with ((addrs ++ [addr]) ++ responded events)%list
      by now rewrite <- app_assoc.
    apply IHe; [exact Hmax | | now apply peers_ok_record].
    now apply boot_ok_record.
  - cbn [foldl monitorStep responded found omap list_omap] in *.
    fold (responded events). fold (found events) in *.
    replace (peers ++ (h, peer) :: found events)%list
      with ((peers ++ [(h, peer)]) ++ found events)%list in *
      by now rewrite <- app_assoc.
    apply IHe; [exact Hmax | now apply boot_ok_update |].
    apply peers_ok_update; [|exact Hpeers].
    rewrite !length_app in Hmax. cbn [length] in Hmax. lia.
Qed.

(** X20.  In an engine made by [New] and initialised once, whatever
    events follow, the status map has an entry for each prime node and for
    nothing else, the entry being true exactly for the prime nodes a
    response came from; and the count of connected boot nodes is the
    number of entries that are true, between 0 and the total, which is the
    number of prime nodes. *)
Theorem boot_node_stats (primeNodes : list string)
    (events : list MonitorEvent) :
  Z.of_nat (length primeNodes) <= int64_max ->
  Z.of_nat (length (found events)) <= int64_max ->
  let '(total, connectedCount, status) :=
    GetBootNodeStats (monitorAfter primeNodes events) in
  total = Z.of_nat (length primeNodes) /\
  (forall a, status !! a
             = if bool_decide (a ∈ primeNodes)
               then Some (bool_decide (a ∈ responded events)) else None) /\
  connectedCount = Z.of_nat (size (connected status)) /\
  0 <= connectedCount <= total.
Proof.
  intros Hprime Hmax. unfold GetBootNodeStats, monitorAfter.
  destruct (monitor_ok primeNodes events Hprime [] [] _ Hmax
              (boot_ok_init primeNodes) (peers_ok_New primeNodes))
    as [(_ & Ht & Hsize & Hstatus & Hc) _].
  rewrite app_nil_l in Hstatus.
  split; [exact Ht|]. split; [exact Hstatus|]. split; [exact Hc|].
  rewrite Hc, Ht.
  match goal with |- context [size (connected ?m)] =>
    pose proof (size_connected m) end.
  lia.
Qed.

(** X21.  In an engine made by [New], whatever events follow, the total
    of peers found is the number of calls of [updatePeerStats]; the unique
    count is the number of distinct peer keys among them, never more than
    the total; and the count kept for an info-hash is the number of calls
    made for it, an info-hash never reported having no entry. *)
Theorem peer_stats (primeNodes : list string) (events : list MonitorEvent) :
  Z.of_nat (length primeNodes) <= int64_max ->
  Z.of_nat (length (found events)) <= int64_max ->
  let '(totalFound, uniqueCount, activeHashes) :=
    GetPeerStats (monitorAfter primeNodes events) in
  totalFound = Z.of_nat (length (found events)) /\
  uniqueCount
    = Z.of_nat (size (list_to_set ((fun f => peerKey f.2) <$> found events)
                        : gset string)) /\
  uniqueCount <= totalFound /\
  (forall h, activeHashes !! h
             = if (hashCount h (found events) =? 0)%nat then None
               else Some (Z.of_nat (hashCount h (found events)))).
Proof.
  intros Hprime Hmax. unfold GetPeerStats, monitorAfter.
  destruct (monitor_ok primeNodes events Hprime [] [] _ Hmax
              (boot_ok_init primeNodes) (peers_ok_New primeNodes))
    as [_ (Htotal & Hmap & Hcount & Hsize & Hactive)].
  rewrite app_nil_l in *.
  split; [exact Htotal|]. split; [now rewrite Hcount, Hmap|].
  split; [rewrite Hcount, Htotal; lia | exact Hactive].
Qed.

Lemma boot_node_stats_witness :
  let events :=
    [Responded "b:2"; Found "h1" {| IP := "1.2.3.4"; Port := 6881 |};
     Responded "c:3"; Responded "b:2"] in
  let '(total, connectedCount, status) :=
    GetBootNodeStats (monitorAfter ["a:1"; "b:2"; "a:1"] events) in
  total = Z.of_nat (length ["a:1"; "b:2"; "a:1"]) /\
  (forall a, status !! a
             = if bool_decide (a ∈ ["a:1"; "b:2"; "a:1"])
               then Some (bool_decide (a ∈ responded events)) else None) /\
  connectedCount = Z.of_nat (size (connected status)) /\
  0 <= connectedCount <= total.
Proof.
  intros events. apply (boot_node_stats ["a:1"; "b:2"; "a:1"] events);
    vm_compute; discriminate.
Defined.

Lemma peer_stats_witness :
  let events :=
    [Found "h1" {| IP := "1.2.3.4"; Port := 6881 |}; Responded "b:2";
     Found "h2" {| IP := "1.2.3.4"; Port := 6881 |};
     Found "h1" {| IP := "5.6.7.8"; Port := 1 |}] in
  let '(totalFound, uniqueCount, activeHashes) :=
    GetPeerStats (monitorAfter ["b:2"] events) in
  totalFound = Z.of_nat (length (found events)) /\
  uniqueCount
    = Z.of_nat (size (list_to_set ((fun f => peerKey f.2) <$> found events)
                        : gset string)) /\
  uniqueCount <= totalFound /\
  (forall h, activeHashes !! h
             = if (hashCount h (found events) =? 0)%nat then None
               else Some (Z.of_nat (hashCount h (found events)))).
Proof.
  intros events. apply (peer_stats ["b:2"] events); vm_compute; discriminate.
Defined.

Example monitor_example :
  let dht :=
    monitorAfter ["a:1"; "b:2"; "a:1"]
      [Found "h1" {| IP := "1.2.3.4"; Port := 6881 |}; Responded "b:2";
       Found "h2" {| IP := "1.2.3.4"; Port := 6881 |}; Responded "c:3";
       Found "h1" {| IP := "5.6.7.8"; Port := 1 |}; Responded "b:2"] in
  (GetBootNodeStats dht).1 = (3, 1) /\ (GetPeerStats dht).1 = (3, 2).
Proof. vm_compute. split; reflexivity. Qed.

End MonitorExtras.

(** ** The web server's helpers *)

Module ServerExtras.
Import Server CrawlerClaims.

Lemma sub64_small (a b : Z) : in_int64 (a - b) -> sub64 a b = a - b.
Proof. apply wrap64_small. Qed.

Lemma add64_small (a b : Z) : in_int64 (a + b) -> add64 a b = a + b.
Proof. apply wrap64_small. Qed.

(** X22.  For a current page between 1 and the total, [generatePagination]
    lists at most seven items; its page numbers increase strictly, lie
    between 1 and the total and include the current page and its
    neighbours; exactly one item is marked current, the page of that
    number.  The first page is listed unless the current page is 3, and
    the last unless the current page is the last but two. *)
Theorem generatePagination_pages (currentPage totalPages : Z) :
  1 <= currentPage <= totalPages -> totalPages <= int64_max ->
  let items := generatePagination currentPage totalPages in
  let pages := pageNumbers items in
  (length items <= 7)%nat /\
  StronglySorted Z.lt pages /\
  Forall (fun n => 1 <= n <= totalPages) pages /\
  base.filter (fun item => Current item = true) items
    = [{| Type_ := "page"; Number := currentPage; Current := true |}] /\
  (forall n, 1 <= n <= totalPages -> currentPage - 1 <= n <= currentPage + 1 ->
     n ∈ pages) /\
  (1 ∈ pages <-> currentPage <> 3) /\
  (totalPages ∈ pages <-> currentPage <> totalPages - 2).
Proof.
  intros [H1 H2] Hmax items pages. subst pages items.
  unfold generatePagination, int64_max in *.
  rewrite !sub64_small by (unfold in_int64, int64_min, int64_max; lia).
  destruct (Z.gtb_spec currentPage 3), (Z.gtb_spec currentPage 4),
    (Z.gtb_spec currentPage 1), (Z.ltb_spec currentPage totalPages),
    (Z.ltb_spec currentPage (totalPages - 2)),
    (Z.ltb_spec currentPage (totalPages - 3)); try lia.
  all: rewrite ?add64_small by (unfold in_int64, int64_min, int64_max; lia).
  all: cbn [app pageNumbers omap list_omap Type_ Number String.eqb Ascii.eqb
       Bool.eqb length].
  all: (split; [lia|]).
  all: (split; [repeat constructor; lia|]).
  all: (split; [repeat constructor; lia|]).
  all: (split; [reflexivity|]).
  all: (split; [intros n Hn Hc; rewrite !elem_of_cons, elem_of_nil; lia|]).
  all: rewrite !elem_of_cons, !elem_of_nil; lia.
Qed.
Lemma generatePagination_pages_witness :
  let items := generatePagination 3 10 in
  let pages := pageNumbers items in
  (length items <= 7)%nat /\
  StronglySorted Z.lt pages /\
  Forall (fun n => 1 <= n <= 10) pages /\
  base.filter (fun item => Current item = true) items
    = [{| Type_ := "page"; Number := 3; Current := true |}] /\
  (forall n, 1 <= n <= 10 -> 3 - 1 <= n <= 3 + 1 -> n ∈ pages) /\
  (1 ∈ pages <-> 3 <> 3) /\
  (10 ∈ pages <-> 3 <> 10 - 2).
Proof.
  apply (generatePagination_pages 3 10); [lia | vm_compute; discriminate].
Defined.

(** On page 3 of 10 the first page is missing and nothing marks the gap. *)
Example generatePagination_page_3 :
  generatePagination 3 10
  = [{| Type_ := "page"; Number := 2; Current := false |};
     {| Type_ := "page"; Number := 3; Current := true |};
     {| Type_ := "page"; Number := 4; Current := false |};
     {| Type_ := "ellipsis"; Number := 0; Current := false |};
     {| Type_ := "page"; Number := 10; Current := false |}].
Proof. reflexivity. Qed.

(** *** Sizes *)

Lemma pow1024_bound (e : Z) :
  0 <= e -> 1024 ^ (e + 1) <= int64_max -> e <= 5.
Proof.
  intros He Hp. destruct (Z.le_gt_cases e 5) as [?|Hgt]; [assumption|].
  exfalso. assert (1024 ^ 7 <= 1024 ^ (e + 1)) by (apply Z.pow_le_mono_r; lia).
  unfold int64_max in Hp. lia.
Qed.

Lemma formatSizeLoop_spec (bytes : Z) (fuel : nat) :
  bytes <= int64_max ->
  forall n exp,
    1 <= n < 1024 ^ Z.of_nat fuel -> 0 <= exp ->
    1024 ^ (exp + 1) * n <= bytes < 1024 ^ (exp + 1) * (n + 1) ->
    exists exp',
      exp <= exp' /\
      formatSizeLoop fuel n (1024 ^ (exp + 1)) exp
        = Some (1024 ^ (exp' + 1), exp') /\
      1024 ^ (exp' + 1) <= bytes < 1024 * 1024 ^ (exp' + 1).
Proof.
  intros Hmax. induction fuel as [|fuel IHf]; intros n exp Hn He Hb.
  { cbn in Hn. lia. }
  cbn [formatSizeLoop]. unfold Server.unit.
  assert (Hpos : 0 < 1024 ^ (exp + 1)) by (apply Z.pow_pos_nonneg; lia).
  destruct (Z.geb_spec n 1024) as [Hge|Hlt].
  - rewrite Z.quot_div_nonneg by lia.
    assert (Hq : 1 <= n / 1024) by (apply Z.div_le_lower_bound; lia).
    assert (Hq' : n / 1024 < 1024 ^ Z.of_nat fuel).
    { apply Z.div_lt_upper_bound; [lia|].
      rewrite Nat2Z.inj_succ, Z.pow_succ_r in Hn by lia. lia. }
    pose proof (Z.div_mod n 1024 ltac:(lia)) as Hdm.
    pose proof (Z.mod_pos_bound n 1024 ltac:(lia)) as Hmod.
    assert (Hnext : 1024 ^ (exp + 1) * 1024 = 1024 ^ (exp + 1 + 1))
      by (rewrite (Z.pow_add_r 1024 (exp + 1) 1) by lia; reflexivity).
    assert (Hfit : 1024 ^ (exp + 1 + 1) <= int64_max) by nia.
    pose proof (pow1024_bound (exp + 1) ltac:(lia) Hfit) as He5.
    assert (Hd : wrap64 (1024 ^ (exp + 1) * 1024) = 1024 ^ (exp + 1 + 1)).
    { rewrite Hnext. apply wrap64_small.
      unfold in_int64, int64_min, int64_max in *. lia. }
    assert (Hx : add64 exp 1 = exp + 1).
    { apply add64_small. unfold in_int64, int64_min, int64_max in *. lia. }
    rewrite Hd, Hx.
    destruct (IHf (n / 1024) (exp + 1)) as (exp' & Hle & -> & Hr);
      [lia | lia | rewrite <- Hnext; nia |].
    exists exp'. split; [lia|]. split; [reflexivity | exact Hr].
  - exists exp. split; [lia|]. split; [reflexivity | nia].
Qed.

Section Float.
Variable FormatQuotient : Z -> Z -> string.

(** X23.  [formatSize] never fails on an [int64]: below 1024 (negative
    sizes included) it prints the number of bytes; from 1024 on, its loop
    ends within six turns with the power of 1024 that has the size in
    [div, 1024 * div), so that the index into "KMGTPE" is in range and the
    number printed lies in [1, 1024). *)
Theorem formatSize_total (fuel : nat) (bytes : Z) :
  in_int64 bytes -> (6 <= fuel)%nat ->
  (bytes < 1024 ->
   formatSize FormatQuotient fuel bytes = Some (Itoa bytes ++ " B")) /\
  (1024 <= bytes ->
   exists div exp letter,
     0 <= exp <= 5 /\ div = 1024 ^ (exp + 1) /\
     div <= bytes < 1024 * div /\
     String.get (Z.to_nat exp) "KMGTPE" = Some letter /\
     formatSize FormatQuotient fuel bytes
       = Some (FormatQuotient bytes div ++ " " ++ String letter "B")).
Proof.
  intros [Hmin Hmax] Hfuel. unfold formatSize, Server.unit. split.
  - intros Hlt. now destruct (Z.ltb_spec bytes 1024); [|lia].
  - intros Hge. destruct (Z.ltb_spec bytes 1024) as [?|_]; [lia|].
    rewrite Z.quot_div_nonneg by lia.
    pose proof (Z.div_mod bytes 1024 ltac:(lia)) as Hdm.
    pose proof (Z.mod_pos_bound bytes 1024 ltac:(lia)) as Hmod.
    assert (Hq : 1 <= bytes / 1024) by (apply Z.div_le_lower_bound; lia).
    assert (Hpow : 1024 ^ 6 <= 1024 ^ Z.of_nat fuel)
      by (apply Z.pow_le_mono_r; lia).
    destruct (formatSizeLoop_spec bytes fuel Hmax (bytes / 1024) 0)
      as (k & Hk & Hloop & Hr).
    { unfold int64_max in Hmax. split; [lia|].
      apply Z.lt_le_trans with (1024 ^ 6); [|exact Hpow].
      apply Z.div_lt_upper_bound; lia. }
    { lia. }
    { change (1024 ^ (0 + 1)) with 1024. lia. }
    change (1024 ^ (0 + 1)) with 1024 in Hloop. rewrite Hloop.
    cbn [mbind option_bind].
    assert (Hk5 : k <= 5) by (apply pow1024_bound; lia).
    assert (Hletter : exists letter,
              String.get (Z.to_nat k) "KMGTPE" = Some letter /\
              unitLetter k = Some letter).
    { unfold unitLetter.
      assert (k = 0 \/ k = 1 \/ k = 2 \/ k = 3 \/ k = 4 \/ k = 5)
        as [-> | [-> | [-> | [-> | [-> | ->]]]]] by lia;
        eexists; split; reflexivity. }
    destruct Hletter as (letter & Hget & ->).
    exists (1024 ^ (k + 1)), k, letter.
    split; [lia|]. split; [reflexivity|].
    split; [exact Hr|]. split; [exact Hget | reflexivity].
Qed.

End Float.

Lemma formatSize_total_witness :
  exists div exp letter,
    0 <= exp <= 5 /\ div = 1024 ^ (exp + 1) /\
    div <= 5000000 < 1024 * div /\
    String.get (Z.to_nat exp) "KMGTPE" = Some letter /\
    formatSize (fun bytes div => Itoa (bytes / div)) 6 5000000
      = Some ((fun bytes div => Itoa (bytes / div)) 5000000 div
              ++ " " ++ String letter "B").
Proof.
  apply (proj2 (formatSize_total (fun bytes div => Itoa (bytes / div))
                  6 5000000 ltac:(vm_compute; split; discriminate)
                  ltac:(lia))).
  lia.
Defined.

End ServerExtras.

(** ** Paging *)

Module SearchExtras.
Import Search CrawlerClaims ServerExtras.

(** X24.  With the page size [searchHandler] passes on, [SearchTorrents]
    never divides by zero; for a total that is not negative the number of
    pages is the least that holds all results, zero when there is none;
    and every result lies on exactly one page between 1 and that
    number. *)
Theorem paging_covers (page0 pageSize0 total : Z) :
  in_int64 pageSize0 -> 0 <= total <= int64_max ->
  let pageSize := (normalize page0 pageSize0).2 in
  0 < pageSize /\
  exists totalPage,
    TotalPage total pageSize = Some totalPage /\
    (totalPage - 1) * pageSize < total <= totalPage * pageSize /\
    (total = 0 <-> totalPage = 0) /\
    (forall i, 0 <= i < total ->
       exists page,
         1 <= page <= totalPage /\
         skip page pageSize <= i < skip page pageSize + pageSize /\
         forall page',
           1 <= page' <= totalPage ->
           skip page' pageSize <= i < skip page' pageSize + pageSize ->
           page' = page).
Proof.
  intros [Hsmin Hsmax] [Ht Htmax] pageSize. subst pageSize.
  unfold normalize. cbn [snd].
  set (pageSize := if pageSize0 <=? 0 then 20 else pageSize0).
  assert (Hps : 0 < pageSize <= int64_max).
  { unfold pageSize, int64_max in *.
    destruct (Z.leb_spec pageSize0 0); lia. }
  clearbody pageSize. split; [lia|].
  unfold TotalPage. destruct (Z.eqb_spec pageSize 0) as [?|_]; [lia|].
  rewrite Z.quot_div_nonneg, Z.rem_mod_nonneg by lia.
  pose proof (Z.div_mod total pageSize ltac:(lia)) as Hdm.
  pose proof (Z.mod_pos_bound total pageSize ltac:(lia)) as Hmod.
  assert (Hq : 0 <= total / pageSize <= total).
  { split; [apply Z.div_pos; lia|]. apply Z.div_le_upper_bound; nia. }
  rewrite (wrap64_small (total / pageSize))
    by (unfold in_int64, int64_min, int64_max in *; lia).
  set (q := total / pageSize) in *. set (r := total mod pageSize) in *.
  assert (Hskip : forall page, 1 <= page -> (page - 1) * pageSize <= total ->
            skip page pageSize = (page - 1) * pageSize).
  { intros page Hp Hle. unfold skip.
    rewrite (wrap64_small (page - 1)).
    - apply wrap64_small. unfold in_int64, int64_min, int64_max in *. nia.
    - unfold in_int64, int64_min, int64_max in *. nia. }
  destruct (Z.gtb_spec r 0) as [Hr|Hr].
  - exists (q + 1). rewrite add64_small by
      (unfold in_int64, int64_min, int64_max in *; nia).
    split; [reflexivity|]. split; [nia|]. split; [lia|].
    intros i Hi. exists (i / pageSize + 1).
    pose proof (Z.div_mod i pageSize ltac:(lia)) as Hidm.
    pose proof (Z.mod_pos_bound i pageSize ltac:(lia)) as Himod.
    assert (Hiq : 0 <= i / pageSize <= q).
    { split; [apply Z.div_pos; lia|]. apply Z.div_le_mono; lia. }
    split; [lia|]. rewrite Hskip by nia. split; [nia|].
    intros page' Hp' Hin. rewrite Hskip in Hin by nia. nia.
  - exists q. rewrite add64_small, Z.add_0_r by
      (unfold in_int64, int64_min, int64_max in *; lia).
    split; [reflexivity|]. split; [nia|]. split; [nia|].
    intros i Hi. exists (i / pageSize + 1).
    pose proof (Z.div_mod i pageSize ltac:(lia)) as Hidm.
    pose proof (Z.mod_pos_bound i pageSize ltac:(lia)) as Himod.
    assert (Hiq : 0 <= i / pageSize < q).
    { split; [apply Z.div_pos; lia|]. apply Z.div_lt_upper_bound; nia. }
    split; [lia|]. rewrite Hskip by nia. split; [nia|].
    intros page' Hp' Hin. rewrite Hskip in Hin by nia. nia.
Qed.

Lemma paging_covers_witness :
  let pageSize := (normalize 0 0).2 in
  0 < pageSize /\
  exists totalPage,
    TotalPage 41 pageSize = Some totalPage /\
    (totalPage - 1) * pageSize < 41 <= totalPage * pageSize /\
    (41 = 0 <-> totalPage = 0) /\
    (forall i, 0 <= i < 41 ->
       exists page,
         1 <= page <= totalPage /\
         skip page pageSize <= i < skip page pageSize + pageSize /\
         forall page',
           1 <= page' <= totalPage ->
           skip page' pageSize <= i < skip page' pageSize + pageSize ->
           page' = page).
Proof.
  apply (paging_covers 0 0 41); vm_compute; split; discriminate.
Defined.

Example TotalPage_example :
  TotalPage 41 20 = Some 3 /\ TotalPage 40 20 = Some 2 /\
  TotalPage 0 20 = Some 0 /\ nextPage 1 0 = 0.
Proof. repeat split; reflexivity. Qed.

End SearchExtras.

(** ** Guessing the gateway *)

Module GatewayExtras.
Import Gateway.

(** X25.  [guessGatewayFromIP] answers only for an address and a mask of
    four bytes each, with the network address whose last byte is set to 1.
    When the last byte of the mask is 0 the guess lies in the network of
    the address. *)
Theorem guessGatewayFromIP_network (ip mask : list Z) :
  (length ip <> 4%nat \/ length mask <> 4%nat ->
   guessGatewayFromIP ip mask = None) /\
  (forall i0 i1 i2 i3 m0 m1 m2 m3,
     ip = [i0; i1; i2; i3] -> mask = [m0; m1; m2; m3] ->
     guessGatewayFromIP ip mask
       = Some [Z.land i0 m0; Z.land i1 m1; Z.land i2 m2; 1] /\
     (m3 = 0 ->
      networkOf [Z.land i0 m0; Z.land i1 m1; Z.land i2 m2; 1] mask
      = networkOf ip mask)).
Proof.
  split.
  - unfold guessGatewayFromIP. intros [Hl|Hl].
    + apply Nat.eqb_neq in Hl. now rewrite Hl.
    + apply Nat.eqb_neq in Hl. now rewrite Hl, andb_false_r.
  - intros i0 i1 i2 i3 m0 m1 m2 m3 -> ->. split; [reflexivity|].
    intros ->. unfold networkOf. cbn [zip_with].
    rewrite !Z.land_0_r.
    now rewrite <- !Z.land_assoc, !Z.land_diag.
Qed.

Lemma guessGatewayFromIP_network_witness :
  guessGatewayFromIP [192; 168; 1; 37] [255; 255; 255; 0]
  = Some [192; 168; 1; 1].
Proof.
  apply (proj2 (guessGatewayFromIP_network [192; 168; 1; 37]
                  [255; 255; 255; 0]) 192 168 1 37 255 255 255 0
           eq_refl eq_refl).
Defined.

(** In a network narrower than 24 bits the guess can lie outside of it. *)
Example guessGatewayFromIP_outside :
  guessGatewayFromIP [10; 0; 0; 200] [255; 255; 255; 128]
    = Some [10; 0; 0; 1] /\
  networkOf [10; 0; 0; 1] [255; 255; 255; 128] = [10; 0; 0; 0] /\
  networkOf [10; 0; 0; 200] [255; 255; 255; 128] = [10; 0; 0; 128].
Proof. repeat split; reflexivity. Qed.

End GatewayExtras.
